(** * CoreThread: dispatching commands from producer threads to the core thread

    A shallow embedding of [BansheeCore/Source/CmCoreThread.cpp].  The class
    [CoreThread] becomes a record, its member functions become functions on
    a [System] (the object together with the heap, the thread-local storage,
    the task scheduler and the program counters of the running threads), and
    the interleaving of threads becomes a labelled step function.

    A thread inside [queueCommand], [queueReturnCommand],
    [blockUntilCommandCompleted], [shutdownCoreThread] or [runCoreThread]
    advances from one program point to the next; taking a mutex, the body
    of a locked section together with its release, entering a wait and being
    woken are steps of their own.  Callbacks are opaque: invoking one leaves
    an event in the history and nothing else, and a callback is taken to
    return.

    The static thread-local slots [mAccessor] belong to the process, not to
    a [CoreThread]: [Process] holds what outlives the object,
    [CoreThread_ctor_in] constructs a [CoreThread] in a given process and
    [CoreThread_dtor] gives the process back.  [CoreThread_ctor] is the
    construction of the first [CoreThread] of a process, and [reachable]
    ranges over the lifetime of that object. *)

From Stdlib Require Import ZArith Lia.
From stdpp Require Import base option list gmap strings relations.

(** ** Build configuration

    The two preprocessor switches tested by the source.  Their values are
    fixed in a header that is not part of the translated file, so every
    definition takes them as a parameter. *)

Record Config := {
  CM_FORCE_SINGLETHREADED_RENDERING : bool;
  CM_THREAD_SUPPORT : bool
}.

Abbreviation ThreadId := nat.
Abbreviation Ptr := nat.
Abbreviation Callback := nat.

(** ** Machine integers *)

Definition UINT32_modulus : Z := 2 ^ 32.

Definition to_UINT32 (z : Z) : Z := z mod UINT32_modulus.

(** ** Exceptions *)

Inductive Exception :=
| InternalErrorException (msg : string).

Inductive Result (A : Type) :=
| Ok (a : A)
| Throw (e : Exception).

Arguments Ok {A} a.
Arguments Throw {A} e.

(** ** Commands

    Modelled from the spec: the command-queue container ([CommandQueue],
    its [queue], [queueReturn], [isEmpty], [flush] and [playbackWithNotify])
    is declared outside the translated file.  A queued command is an opaque
    callable, with or without a result handle, that carries an optional
    notify-id; the channel is an ordered sequence of such commands, flushed
    as a whole and played back in order. *)

Record QueuedCommand := {
  returnsValue : bool;
  callback : Callback;
  notifyId : option Z
}.

Global Instance QueuedCommand_eq_dec : EqDecision QueuedCommand.
Proof. solve_decision. Defined.

Definition queue (cb : Callback) (id : option Z) (q : list QueuedCommand) :
    list QueuedCommand :=
  q ++ [{| returnsValue := false; callback := cb; notifyId := id |}].

Definition queueReturn (cb : Callback) (id : option Z) (q : list QueuedCommand) :
    list QueuedCommand :=
  q ++ [{| returnsValue := true; callback := cb; notifyId := id |}].

Definition flush (q : list QueuedCommand) : list QueuedCommand * list QueuedCommand :=
  (q, []).

Definition isEmpty (q : list QueuedCommand) : bool :=
  match q with [] => true | _ => false end.

(** ** Heap objects

    Modelled from the spec: [FrameAlloc] is an external linear arena of
    which only allocation and [clear] matter; it is kept as the list of the
    block sizes handed out since the last [clear].  Accessors are kept by
    the thread they were created for. *)

Inductive HeapObj :=
| OFrameAlloc (blocks : list nat)
| OCoreThreadAccessor (synced : bool) (thread : ThreadId)
| OAccessorContainer (accessor : Ptr).

Global Instance HeapObj_eq_dec : EqDecision HeapObj.
Proof. solve_decision. Defined.

(** ** The class *)

Record CoreThread := {
  mCoreThreadShutdown : bool;
  mCoreThreadId : ThreadId;
  mCommandQueue : list QueuedCommand;
  mMaxCommandNotifyId : Z;
  mCommandsCompleted : list Z;
  mSyncedCoreAccessor : option Ptr;
  mAccessors : list Ptr;
  mFrameAllocs : list Ptr;
  mActiveFrameAlloc : Z;
  mCommandQueueMutex : option ThreadId;
  mCommandNotifyMutex : option ThreadId
}.

(** ** Program counters *)

(** The arguments of one call of [queueCommand] or [queueReturnCommand]. *)
Record Call := {
  cReturn : bool;
  cCallback : Callback;
  cBlock : bool
}.

Global Instance Call_eq_dec : EqDecision Call.
Proof. solve_decision. Defined.

Definition queued (call : Call) (id : option Z) : QueuedCommand :=
  {| returnsValue := cReturn call; callback := cCallback call; notifyId := id |}.

(** Where a thread other than the core thread stands.  The constructors
    keep the call's arguments and its local [commandId]. *)
Inductive ProdPC :=
| Idle
| QLock (call : Call) (commandId : Z)
| QCrit (call : Call) (commandId : Z)
| QNotify (call : Call) (commandId : Z)
| BLock (call : Call) (commandId : Z)
| BCheck (call : Call) (commandId : Z)
| BWait (call : Call) (commandId : Z)
| BWoken (call : Call) (commandId : Z)
| SLock
| SCrit
| SNotify
| SSetId.

Global Instance ProdPC_eq_dec : EqDecision ProdPC.
Proof. solve_decision. Defined.

(** Where the thread running [runCoreThread] stands. *)
Inductive CorePC :=
| CNone
| CStart
| CInit
| CLoop
| CTest
| CWaitEnter
| CWait
| CWoken
| CReclaim
| CExit
| CDone
| CPlay (commands : list QueuedCommand)
| CNotifyLock (commandId : Z) (commands : list QueuedCommand)
| CNotifyPush (commandId : Z) (commands : list QueuedCommand)
| CNotifyAll (commands : list QueuedCommand).

Global Instance CorePC_eq_dec : EqDecision CorePC.
Proof. solve_decision. Defined.

(** ** History *)

Inductive Event :=
| EvImmediate (t : ThreadId) (call : Call)
| EvQueue (t : ThreadId) (q : QueuedCommand)
| EvInvoke (t : ThreadId) (q : QueuedCommand)
| EvReturn (t : ThreadId) (q : QueuedCommand).

Global Instance Event_eq_dec : EqDecision Event.
Proof. solve_decision. Defined.

(** ** The whole system *)

Record System := {
  self : CoreThread;
  mAccessor : gmap nat nat;
  heap : gmap nat HeapObj;
  heapNext : Ptr;
  mMaxActiveTasks : Z;
  coreTid : option ThreadId;
  corePc : CorePC;
  pcs : gmap nat ProdPC;
  trace : list Event
}.

(** ** Member updates

    [set_f v x] is [x] with member [f] replaced by [v]; [with_f v s] does
    the same to a member of the [CoreThread] object inside a system. *)

Definition set_mCoreThreadShutdown v (c : CoreThread) : CoreThread :=
  Build_CoreThread
    v (mCoreThreadId c) (mCommandQueue c) (mMaxCommandNotifyId c)
    (mCommandsCompleted c) (mSyncedCoreAccessor c) (mAccessors c)
    (mFrameAllocs c) (mActiveFrameAlloc c) (mCommandQueueMutex c)
    (mCommandNotifyMutex c).

Definition set_mCoreThreadId v (c : CoreThread) : CoreThread :=
  Build_CoreThread
    (mCoreThreadShutdown c) v (mCommandQueue c) (mMaxCommandNotifyId c)
    (mCommandsCompleted c) (mSyncedCoreAccessor c) (mAccessors c)
    (mFrameAllocs c) (mActiveFrameAlloc c) (mCommandQueueMutex c)
    (mCommandNotifyMutex c).

Definition set_mCommandQueue v (c : CoreThread) : CoreThread :=
  Build_CoreThread
    (mCoreThreadShutdown c) (mCoreThreadId c) v (mMaxCommandNotifyId c)
    (mCommandsCompleted c) (mSyncedCoreAccessor c) (mAccessors c)
    (mFrameAllocs c) (mActiveFrameAlloc c) (mCommandQueueMutex c)
    (mCommandNotifyMutex c).

Definition set_mMaxCommandNotifyId v (c : CoreThread) : CoreThread :=
  Build_CoreThread
    (mCoreThreadShutdown c) (mCoreThreadId c) (mCommandQueue c) v
    (mCommandsCompleted c) (mSyncedCoreAccessor c) (mAccessors c)
    (mFrameAllocs c) (mActiveFrameAlloc c) (mCommandQueueMutex c)
    (mCommandNotifyMutex c).

Definition set_mCommandsCompleted v (c : CoreThread) : CoreThread :=
  Build_CoreThread
    (mCoreThreadShutdown c) (mCoreThreadId c) (mCommandQueue c)
    (mMaxCommandNotifyId c) v (mSyncedCoreAccessor c) (mAccessors c)
    (mFrameAllocs c) (mActiveFrameAlloc c) (mCommandQueueMutex c)
    (mCommandNotifyMutex c).

Definition set_mSyncedCoreAccessor v (c : CoreThread) : CoreThread :=
  Build_CoreThread
    (mCoreThreadShutdown c) (mCoreThreadId c) (mCommandQueue c)
    (mMaxCommandNotifyId c) (mCommandsCompleted c) v (mAccessors c)
    (mFrameAllocs c) (mActiveFrameAlloc c) (mCommandQueueMutex c)
    (mCommandNotifyMutex c).

Definition set_mAccessors v (c : CoreThread) : CoreThread :=
  Build_CoreThread
    (mCoreThreadShutdown c) (mCoreThreadId c) (mCommandQueue c)
    (mMaxCommandNotifyId c) (mCommandsCompleted c) (mSyncedCoreAccessor c) v
    (mFrameAllocs c) (mActiveFrameAlloc c) (mCommandQueueMutex c)
    (mCommandNotifyMutex c).

Definition set_mFrameAllocs v (c : CoreThread) : CoreThread :=
  Build_CoreThread
    (mCoreThreadShutdown c) (mCoreThreadId c) (mCommandQueue c)
    (mMaxCommandNotifyId c) (mCommandsCompleted c) (mSyncedCoreAccessor c)
    (mAccessors c) v (mActiveFrameAlloc c) (mCommandQueueMutex c)
    (mCommandNotifyMutex c).

Definition set_mActiveFrameAlloc v (c : CoreThread) : CoreThread :=
  Build_CoreThread
    (mCoreThreadShutdown c) (mCoreThreadId c) (mCommandQueue c)
    (mMaxCommandNotifyId c) (mCommandsCompleted c) (mSyncedCoreAccessor c)
    (mAccessors c) (mFrameAllocs c) v (mCommandQueueMutex c)
    (mCommandNotifyMutex c).

Definition set_mCommandQueueMutex v (c : CoreThread) : CoreThread :=
  Build_CoreThread
    (mCoreThreadShutdown c) (mCoreThreadId c) (mCommandQueue c)
    (mMaxCommandNotifyId c) (mCommandsCompleted c) (mSyncedCoreAccessor c)
    (mAccessors c) (mFrameAllocs c) (mActiveFrameAlloc c) v
    (mCommandNotifyMutex c).

Definition set_mCommandNotifyMutex v (c : CoreThread) : CoreThread :=
  Build_CoreThread
    (mCoreThreadShutdown c) (mCoreThreadId c) (mCommandQueue c)
    (mMaxCommandNotifyId c) (mCommandsCompleted c) (mSyncedCoreAccessor c)
    (mAccessors c) (mFrameAllocs c) (mActiveFrameAlloc c)
    (mCommandQueueMutex c) v.

Definition set_self v (s : System) : System :=
  Build_System
    v (mAccessor s) (heap s) (heapNext s) (mMaxActiveTasks s) (coreTid s)
    (corePc s) (pcs s) (trace s).

Definition set_mAccessor v (s : System) : System :=
  Build_System
    (self s) v (heap s) (heapNext s) (mMaxActiveTasks s) (coreTid s) (corePc
    s) (pcs s) (trace s).

Definition set_heap v (s : System) : System :=
  Build_System
    (self s) (mAccessor s) v (heapNext s) (mMaxActiveTasks s) (coreTid s)
    (corePc s) (pcs s) (trace s).

Definition set_heapNext v (s : System) : System :=
  Build_System
    (self s) (mAccessor s) (heap s) v (mMaxActiveTasks s) (coreTid s)
    (corePc s) (pcs s) (trace s).

Definition set_mMaxActiveTasks v (s : System) : System :=
  Build_System
    (self s) (mAccessor s) (heap s) (heapNext s) v (coreTid s) (corePc s)
    (pcs s) (trace s).

Definition set_coreTid v (s : System) : System :=
  Build_System
    (self s) (mAccessor s) (heap s) (heapNext s) (mMaxActiveTasks s) v
    (corePc s) (pcs s) (trace s).

Definition set_corePc v (s : System) : System :=
  Build_System
    (self s) (mAccessor s) (heap s) (heapNext s) (mMaxActiveTasks s)
    (coreTid s) v (pcs s) (trace s).

Definition set_pcs v (s : System) : System :=
  Build_System
    (self s) (mAccessor s) (heap s) (heapNext s) (mMaxActiveTasks s)
    (coreTid s) (corePc s) v (trace s).

Definition set_trace v (s : System) : System :=
  Build_System
    (self s) (mAccessor s) (heap s) (heapNext s) (mMaxActiveTasks s)
    (coreTid s) (corePc s) (pcs s) v.

Definition with_mCoreThreadShutdown v (s : System) : System :=
  set_self (set_mCoreThreadShutdown v (self s)) s.

Definition with_mCoreThreadId v (s : System) : System :=
  set_self (set_mCoreThreadId v (self s)) s.

Definition with_mCommandQueue v (s : System) : System :=
  set_self (set_mCommandQueue v (self s)) s.

Definition with_mMaxCommandNotifyId v (s : System) : System :=
  set_self (set_mMaxCommandNotifyId v (self s)) s.

Definition with_mCommandsCompleted v (s : System) : System :=
  set_self (set_mCommandsCompleted v (self s)) s.

Definition with_mSyncedCoreAccessor v (s : System) : System :=
  set_self (set_mSyncedCoreAccessor v (self s)) s.

Definition with_mAccessors v (s : System) : System :=
  set_self (set_mAccessors v (self s)) s.

Definition with_mFrameAllocs v (s : System) : System :=
  set_self (set_mFrameAllocs v (self s)) s.

Definition with_mActiveFrameAlloc v (s : System) : System :=
  set_self (set_mActiveFrameAlloc v (self s)) s.

Definition with_mCommandQueueMutex v (s : System) : System :=
  set_self (set_mCommandQueueMutex v (self s)) s.

Definition with_mCommandNotifyMutex v (s : System) : System :=
  set_self (set_mCommandNotifyMutex v (self s)) s.

(** ** Threads, heap, scheduler and condition variables *)

Definition pcOf (s : System) (t : ThreadId) : ProdPC :=
  default Idle (pcs s !! t).

Definition set_pc (t : ThreadId) (pc : ProdPC) (s : System) : System :=
  set_pcs (<[t := pc]> (pcs s)) s.

Definition log (e : Event) (s : System) : System :=
  set_trace (trace s ++ [e]) s.

Definition cm_new (o : HeapObj) (s : System) : Ptr * System :=
  (heapNext s,
   set_heapNext (S (heapNext s)) (set_heap (<[heapNext s := o]> (heap s)) s)).

Definition cm_delete (p : option Ptr) (s : System) : System :=
  match p with
  | Some a => set_heap (delete a (heap s)) s
  | None => s
  end.

(** Modelled from the spec: the task scheduler is an external collaborator
    whose [addWorker] releases and whose [removeWorker] reserves one unit
    of shared worker capacity. *)
Definition addWorker (s : System) : System :=
  set_mMaxActiveTasks (mMaxActiveTasks s + 1)%Z s.

Definition removeWorker (s : System) : System :=
  set_mMaxActiveTasks (mMaxActiveTasks s - 1)%Z s.

(** [CM_THREAD_NOTIFY_ALL]: every thread blocked on the condition leaves
    its wait and has to take the mutex again.  Only the core thread waits on
    [mCommandReadyCondition]; only blocked callers wait on
    [mCommandCompleteCondition]. *)
Definition wakeCore (pc : CorePC) : CorePC :=
  match pc with CWait => CWoken | _ => pc end.

Definition wakeProd (pc : ProdPC) : ProdPC :=
  match pc with BWait call id => BWoken call id | _ => pc end.

Definition notifyAll_mCommandReadyCondition (s : System) : System :=
  set_corePc (wakeCore (corePc s)) s.

Definition notifyAll_mCommandCompleteCondition (s : System) : System :=
  set_pcs (wakeProd <$> pcs s) s.

(** ** Construction *)

Definition initCoreThread (cfg : Config) (K : ThreadId) (s : System) : Result System :=
  if CM_FORCE_SINGLETHREADED_RENDERING cfg then Ok s
  else if CM_THREAD_SUPPORT cfg then
    (* ThreadPool::instance().run("Core", runCoreThread) on a new thread K *)
    Ok (set_corePc CStart (set_coreTid (Some K) s))
  else
    Throw (InternalErrorException
      "Attempting to start a core thread but application isn't compiled with thread support.").

(** What outlives a [CoreThread]: the static thread-local slots
    [mAccessor] (line 10 of the source), the heap with its next free
    address, and the task scheduler. *)
Record Process := {
  tls : gmap ThreadId Ptr;
  objects : gmap Ptr HeapObj;
  nextObject : nat;
  workers : Z
}.

(** A process in which no [CoreThread] has existed yet: every thread-local
    slot holds its static initialiser [nullptr]. *)
Definition process_start (W : Z) : Process :=
  {| tls := ∅; objects := ∅; nextObject := 0%nat; workers := W |}.

(** [CoreThread::CoreThread], run by thread [M] in the process [p]; [K] is
    the thread handed out by the thread pool.  The constructor does not
    touch the thread-local slots. *)
Definition CoreThread_ctor_in (cfg : Config) (M K : ThreadId) (p : Process) :
    Result System :=
  let s0 :=
    {| self := {| mCoreThreadShutdown := false;
                  mCoreThreadId := M;
                  mCommandQueue := [];
                  mMaxCommandNotifyId := 0;
                  mCommandsCompleted := [];
                  mSyncedCoreAccessor := None;
                  mAccessors := [];
                  mFrameAllocs := [];
                  mActiveFrameAlloc := 0;
                  mCommandQueueMutex := None;
                  mCommandNotifyMutex := None |};
       mAccessor := tls p; heap := objects p; heapNext := nextObject p;
       mMaxActiveTasks := workers p;
       coreTid := None; corePc := CNone; pcs := ∅; trace := [] |} in
  let '(f0, s1) := cm_new (OFrameAlloc []) s0 in
  let '(f1, s2) := cm_new (OFrameAlloc []) s1 in
  let s3 := with_mFrameAllocs [f0; f1] s2 in
  let s4 := with_mCoreThreadId M s3 in
  initCoreThread cfg K s4.

(** The construction of the first [CoreThread] of a process, with a task
    scheduler of capacity [W]. *)
Definition CoreThread_ctor (cfg : Config) (M K : ThreadId) (W : Z) : Result System :=
  CoreThread_ctor_in cfg M K (process_start W).

(** ** Frame allocators *)

Definition update (s : System) : option System :=
  let a := (to_UINT32 (mActiveFrameAlloc (self s) + 1) mod 2)%Z in
  p ← mFrameAllocs (self s) !! Z.to_nat a;
  o ← heap s !! p;
  match o with
  | OFrameAlloc _ =>
      Some (set_heap (<[p := OFrameAlloc []]> (heap s)) (with_mActiveFrameAlloc a s))
  | _ => None
  end.

Definition getFrameAlloc (s : System) : option Ptr :=
  mFrameAllocs (self s) !! Z.to_nat (mActiveFrameAlloc (self s)).

(** The contents of the arena behind a pointer. *)
Definition arena (s : System) (p : Ptr) : option (list nat) :=
  match heap s !! p with
  | Some (OFrameAlloc blocks) => Some blocks
  | _ => None
  end.

(** [getFrameAlloc()->alloc(n)], the way command authors use the arena. *)
Definition frameAlloc (n : nat) (s : System) : option System :=
  p ← getFrameAlloc s;
  blocks ← arena s p;
  Some (set_heap (<[p := OFrameAlloc (blocks ++ [n])]> (heap s)) s).

(** ** Accessors

    The registry is touched inside one critical section of
    [mAccessorMutex], taken as a single step. *)

Definition deref_container (s : System) (c : Ptr) : option Ptr :=
  match heap s !! c with
  | Some (OAccessorContainer a) => Some a
  | _ => None
  end.

Definition getAccessor (t : ThreadId) (s : System) : option (Ptr * System) :=
  let s' :=
    match mAccessor s !! t with
    | None =>
        let '(newAccessor, s1) := cm_new (OCoreThreadAccessor false t) s in
        let '(c, s2) := cm_new (OAccessorContainer newAccessor) s1 in
        let s3 := set_mAccessor (<[t := c]> (mAccessor s2)) s2 in
        with_mAccessors (mAccessors (self s3) ++ [c]) s3
    | Some _ => s
    end in
  c ← mAccessor s' !! t;
  a ← deref_container s' c;
  Some (a, s').

(** A call of [submitToCoreThread] goes through the accessor object: there
    is none to go through behind a pointer to a deleted object. *)
Definition deref_accessor (s : System) (a : Ptr) : option Ptr :=
  match heap s !! a with
  | Some (OCoreThreadAccessor _ _) => Some a
  | _ => None
  end.

(** The calls of [submitToCoreThread] made by [submitAccessors], in order:
    on the accessors of the copied registry, then on the synced accessor. *)
Definition submitAccessors (blockUntilComplete : bool) (s : System) :
    option (list (Ptr * bool)) :=
  accessorCopies ← mapM (λ c, deref_container s c ≫= deref_accessor s)
                        (mAccessors (self s));
  synced ← mSyncedCoreAccessor (self s) ≫= deref_accessor s;
  Some ((λ a, (a, blockUntilComplete)) <$> (accessorCopies ++ [synced])).

(** ** Thread-affinity guards *)

Definition throwIfNotCoreThread (cfg : Config) (t : ThreadId) (s : System) : Result unit :=
  if CM_FORCE_SINGLETHREADED_RENDERING cfg then Ok ()
  else if decide (t ≠ mCoreThreadId (self s)) then
    Throw (InternalErrorException "This method can only be accessed from the core thread.")
  else Ok ().

Definition throwIfCoreThread (cfg : Config) (t : ThreadId) (s : System) : Result unit :=
  if CM_FORCE_SINGLETHREADED_RENDERING cfg then Ok ()
  else if decide (t = mCoreThreadId (self s)) then
    Throw (InternalErrorException "This method cannot be accessed from the core thread.")
  else Ok ().

(** ** Submission *)

(** The entry of [queueCommand] and [queueReturnCommand], which differ in
    the result handle only: on the core thread the callback runs at once,
    elsewhere the caller goes on to the locked section with
    [commandId = -1]. *)
Definition submit (t : ThreadId) (call : Call) (s : System) : System :=
  if decide (t = mCoreThreadId (self s)) then log (EvImmediate t call) s
  else set_pc t (QLock call (to_UINT32 (-1))) s.

Definition queueCommand (t : ThreadId) (commandCallback : Callback)
    (blockUntilComplete : bool) (s : System) : System :=
  submit t {| cReturn := false; cCallback := commandCallback;
              cBlock := blockUntilComplete |} s.

Definition queueReturnCommand (t : ThreadId) (commandCallback : Callback)
    (blockUntilComplete : bool) (s : System) : System :=
  submit t {| cReturn := true; cCallback := commandCallback;
              cBlock := blockUntilComplete |} s.

(** The command a call has put into the queue. *)
Definition commandOf (call : Call) (commandId : Z) : QueuedCommand :=
  queued call (if cBlock call then Some commandId else None).

(** [mCommandQueue->queue] or [mCommandQueue->queueReturn], as the call is
    one of [queueCommand] or of [queueReturnCommand]. *)
Definition put (call : Call) (id : option Z) (q : list QueuedCommand) :
    list QueuedCommand :=
  if cReturn call then queueReturn (cCallback call) id q
  else queue (cCallback call) id q.

(** The locked section of a submission: the notify-id is drawn and the
    command appended. *)
Definition enqueue (t : ThreadId) (call : Call) (commandId : Z) (s : System) : Z * System :=
  if cBlock call then
    let id := mMaxCommandNotifyId (self s) in
    let s1 := with_mMaxCommandNotifyId (to_UINT32 (id + 1)) s in
    let s2 := with_mCommandQueue (put call (Some id) (mCommandQueue (self s1))) s1 in
    (id, log (EvQueue t (queued call (Some id))) s2)
  else
    let s1 := with_mCommandQueue (put call None (mCommandQueue (self s))) s in
    (commandId, log (EvQueue t (queued call None)) s1).

(** The search loop of [blockUntilCommandCompleted]: the position of the
    first entry equal to [commandId], if any. *)
Definition findCompleted (commandId : Z) (completed : list Z) : option nat :=
  fst <$> list_find (λ x, x = commandId) completed.

Definition commandCompletedNotify_push (commandId : Z) (s : System) : System :=
  with_mCommandsCompleted (mCommandsCompleted (self s) ++ [commandId]) s.

(** One step of a thread other than the core thread inside a call. *)
Definition producer_step (cfg : Config) (t : ThreadId) (s : System) : option System :=
  match pcOf s t with
  | Idle => None
  (* queueCommand / queueReturnCommand *)
  | QLock call id =>
      match mCommandQueueMutex (self s) with
      | None => Some (set_pc t (QCrit call id) (with_mCommandQueueMutex (Some t) s))
      | Some _ => None
      end
  | QCrit call id =>
      let '(id', s1) := enqueue t call id s in
      Some (set_pc t (QNotify call id') (with_mCommandQueueMutex None s1))
  | QNotify call id =>
      let s1 := notifyAll_mCommandReadyCondition s in
      if cBlock call then
        (* blockUntilCommandCompleted(commandId) *)
        if CM_FORCE_SINGLETHREADED_RENDERING cfg then
          Some (set_pc t Idle (log (EvReturn t (commandOf call id)) s1))
        else Some (set_pc t (BLock call id) s1)
      else Some (set_pc t Idle (log (EvReturn t (commandOf call id)) s1))
  (* blockUntilCommandCompleted *)
  | BLock call id | BWoken call id =>
      match mCommandNotifyMutex (self s) with
      | None => Some (set_pc t (BCheck call id) (with_mCommandNotifyMutex (Some t) s))
      | Some _ => None
      end
  | BCheck call id =>
      match findCompleted id (mCommandsCompleted (self s)) with
      | Some iter =>
          let s1 := with_mCommandsCompleted (delete iter (mCommandsCompleted (self s))) s in
          let s2 := with_mCommandNotifyMutex None s1 in
          Some (set_pc t Idle (log (EvReturn t (commandOf call id)) s2))
      | None =>
          (* CM_THREAD_WAIT(mCommandCompleteCondition, mCommandNotifyMutex, lock) *)
          Some (set_pc t (BWait call id) (with_mCommandNotifyMutex None s))
      end
  | BWait _ _ => None
  (* shutdownCoreThread *)
  | SLock =>
      match mCommandQueueMutex (self s) with
      | None => Some (set_pc t SCrit (with_mCommandQueueMutex (Some t) s))
      | Some _ => None
      end
  | SCrit =>
      Some (set_pc t SNotify
              (with_mCommandQueueMutex None (with_mCoreThreadShutdown true s)))
  | SNotify => Some (set_pc t SSetId (notifyAll_mCommandReadyCondition s))
  | SSetId => Some (set_pc t Idle (with_mCoreThreadId t s))
  end.

Definition shutdownCoreThread (cfg : Config) (t : ThreadId) (s : System) : System :=
  if CM_FORCE_SINGLETHREADED_RENDERING cfg then s else set_pc t SLock s.

(** ** The core thread *)

(** One step of [runCoreThread] on thread [K], with the playback of the
    flushed commands and [commandCompletedNotify] unfolded into it. *)
Definition runCoreThread_step (K : ThreadId) (s : System) : option System :=
  match corePc s with
  | CNone | CDone | CWait => None
  | CStart => Some (set_corePc CInit (removeWorker s))
  | CInit =>
      let s1 := with_mCoreThreadId K s in
      let '(a, s2) := cm_new (OCoreThreadAccessor true K) s1 in
      Some (set_corePc CLoop (with_mSyncedCoreAccessor (Some a) s2))
  | CLoop | CWoken =>
      match mCommandQueueMutex (self s) with
      | None =>
          Some (set_corePc (match corePc s with CLoop => CTest | _ => CReclaim end)
                  (with_mCommandQueueMutex (Some K) s))
      | Some _ => None
      end
  | CTest =>
      if isEmpty (mCommandQueue (self s)) then
        if mCoreThreadShutdown (self s) then
          Some (set_corePc CExit (cm_delete (mSyncedCoreAccessor (self s)) s))
        else Some (set_corePc CWaitEnter (addWorker s))
      else
        (* commands = mCommandQueue->flush(), end of the locked scope *)
        let '(commands, rest) := flush (mCommandQueue (self s)) in
        Some (set_corePc (CPlay commands)
                (with_mCommandQueueMutex None (with_mCommandQueue rest s)))
  | CWaitEnter => Some (set_corePc CWait (with_mCommandQueueMutex None s))
  | CReclaim => Some (set_corePc CTest (removeWorker s))
  | CExit => Some (set_corePc CDone (with_mCommandQueueMutex None (addWorker s)))
  | CPlay [] => Some (set_corePc CLoop s)
  | CPlay (q :: commands) =>
      let s1 := log (EvInvoke K q) s in
      match notifyId q with
      | Some id => Some (set_corePc (CNotifyLock id commands) s1)
      | None => Some (set_corePc (CPlay commands) s1)
      end
  (* commandCompletedNotify *)
  | CNotifyLock id commands =>
      match mCommandNotifyMutex (self s) with
      | None =>
          Some (set_corePc (CNotifyPush id commands)
                  (with_mCommandNotifyMutex (Some K) s))
      | Some _ => None
      end
  | CNotifyPush id commands =>
      Some (set_corePc (CNotifyAll commands)
              (with_mCommandNotifyMutex None (commandCompletedNotify_push id s)))
  | CNotifyAll commands =>
      Some (set_corePc (CPlay commands) (notifyAll_mCommandCompleteCondition s))
  end.

(** ** Interleaving *)

Inductive Label :=
| CallQueueCommand (t : ThreadId) (commandCallback : Callback) (blockUntilComplete : bool)
| CallQueueReturnCommand (t : ThreadId) (commandCallback : Callback) (blockUntilComplete : bool)
| CallShutdownCoreThread (t : ThreadId)
| CallUpdate (t : ThreadId)
| CallGetAccessor (t : ThreadId)
| CallFrameAlloc (t : ThreadId) (n : nat)
| Producer (t : ThreadId)
| Core
| SpuriousWake (t : ThreadId)
| SpuriousWakeCore.

(** A thread may start a call when it is inside none and is not the
    thread running [runCoreThread].  The core thread makes no call of its
    own here: callbacks are opaque, and what a played callback does on the
    core thread is part of its invocation.  That covers the submissions
    of a callback that run at once because the core thread is the recorded
    core thread (lines 159-163 and 188-192); a callback whose submission
    would be queued, which takes the recorded id to differ from the thread
    playing it, has no counterpart here: what is shown about the progress
    of the system is shown for runs on which the core thread is the
    recorded core thread. *)
Definition mayCall (t : ThreadId) (s : System) : bool :=
  bool_decide (pcOf s t = Idle) && bool_decide (coreTid s ≠ Some t).

Definition step_fn (cfg : Config) (l : Label) (s : System) : option System :=
  match l with
  | CallQueueCommand t cb b =>
      if mayCall t s then Some (queueCommand t cb b s) else None
  | CallQueueReturnCommand t cb b =>
      if mayCall t s then Some (queueReturnCommand t cb b s) else None
  | CallShutdownCoreThread t =>
      if mayCall t s then Some (shutdownCoreThread cfg t s) else None
  | CallUpdate t => if mayCall t s then update s else None
  | CallGetAccessor t => if mayCall t s then snd <$> getAccessor t s else None
  | CallFrameAlloc t n => if mayCall t s then frameAlloc n s else None
  | Producer t =>
      if bool_decide (coreTid s ≠ Some t) then producer_step cfg t s else None
  | Core => K ← coreTid s; runCoreThread_step K s
  | SpuriousWake t =>
      match pcOf s t with
      | BWait call id => Some (set_pc t (BWoken call id) s)
      | _ => None
      end
  | SpuriousWakeCore =>
      match corePc s with
      | CWait => Some (set_corePc CWoken s)
      | _ => None
      end
  end.

Definition step (cfg : Config) (s s' : System) : Prop :=
  ∃ l, step_fn cfg l s = Some s'.

Definition steps (cfg : Config) : relation System := rtc (step cfg).

(** The states a system can be in after its construction by [M], with the
    core thread [K] distinct from the constructing thread. *)
Definition reachable (cfg : Config) (M K : ThreadId) (W : Z) (s : System) : Prop :=
  ∃ s0, M ≠ K ∧ CoreThread_ctor cfg M K W = Ok s0 ∧ steps cfg s0 s.

(** Running a schedule. *)
Fixpoint run (cfg : Config) (ls : list Label) (s : System) : option System :=
  match ls with
  | [] => Some s
  | l :: ls' => s' ← step_fn cfg l s; run cfg ls' s'
  end.

(** ** Destruction *)

(** [CoreThread::~CoreThread], run by thread [t] without interference, and
    the process it leaves behind.  The command queue is held in the record
    of the object and goes with it.  The accessor objects, which a
    container shares with whoever called [getAccessor], are left alone.
    The thread-local slots are not touched. *)
Definition CoreThread_dtor (cfg : Config) (t : ThreadId) (s : System) : option Process :=
  (* shutdownCoreThread() *)
  s1 ← (if CM_FORCE_SINGLETHREADED_RENDERING cfg then Some s
        else run cfg [CallShutdownCoreThread t; Producer t; Producer t;
                      Producer t; Producer t] s);
  (* for(auto& accessor : mAccessors) cm_delete(accessor); mAccessors.clear() *)
  let s2 := with_mAccessors []
              (foldl (λ s' c, cm_delete (Some c) s') s1 (mAccessors (self s1))) in
  (* cm_delete(mFrameAllocs[0]); cm_delete(mFrameAllocs[1]) *)
  let s3 := cm_delete (mFrameAllocs (self s2) !! 0%nat) s2 in
  let s4 := cm_delete (mFrameAllocs (self s3) !! 1%nat) s3 in
  Some {| tls := mAccessor s4; objects := heap s4; nextObject := heapNext s4;
          workers := mMaxActiveTasks s4 |}.

(** ** Configurations and schedules used in examples *)

Definition multiThreaded : Config :=
  {| CM_FORCE_SINGLETHREADED_RENDERING := false; CM_THREAD_SUPPORT := true |}.

Definition singleThreaded : Config :=
  {| CM_FORCE_SINGLETHREADED_RENDERING := true; CM_THREAD_SUPPORT := false |}.

(** Thread 0 allocates in the first arena, advances the frame and
    allocates in the second arena. *)
Definition frames_schedule : list Label :=
  [CallFrameAlloc 0 8; CallUpdate 0; CallFrameAlloc 0 16].

(** The reading of [update] under which the arena that was active before
    the call is the one cleared and the newly active one is left alone. *)
Definition update_clears_previous (s : System) : Prop :=
  ∀ s' old new,
    getFrameAlloc s = Some old → update s = Some s' →
    getFrameAlloc s' = Some new →
    new ≠ old ∧ arena s' old = Some [] ∧ arena s' new = arena s new.

(** The reading of the guards under which they raise whatever the build. *)
Definition guards_always_throw (cfg : Config) : Prop :=
  ∀ t s,
    (t ≠ mCoreThreadId (self s) →
     ∃ msg, throwIfNotCoreThread cfg t s = Throw (InternalErrorException msg)) ∧
    (t = mCoreThreadId (self s) →
     ∃ msg, throwIfCoreThread cfg t s = Throw (InternalErrorException msg)).

(** ** Observations of the history *)

Definition queuedOf (e : Event) : option QueuedCommand :=
  match e with EvQueue _ q => Some q | _ => None end.

Definition invokedOf (e : Event) : option QueuedCommand :=
  match e with EvInvoke _ q => Some q | _ => None end.

(** The commands put into the shared queue so far, oldest first. *)
Definition enqueued (s : System) : list QueuedCommand :=
  omap queuedOf (trace s).

(** The commands played back so far, oldest first. *)
Definition played (s : System) : list QueuedCommand :=
  omap invokedOf (trace s).

(** The notify-ids carried by a sequence of commands. *)
Definition ids (qs : list QueuedCommand) : list Z := omap notifyId qs.

(** The number of notify-ids drawn so far. *)
Definition allocated (s : System) : nat := length (ids (enqueued s)).

(** The flushed commands the core thread still has to play. *)
Definition batch (pc : CorePC) : list QueuedCommand :=
  match pc with
  | CPlay cs | CNotifyLock _ cs | CNotifyPush _ cs | CNotifyAll cs => cs
  | _ => []
  end.

(** The notify-id of a played command whose completion is not recorded yet. *)
Definition inflight (pc : CorePC) : list Z :=
  match pc with
  | CNotifyLock id _ | CNotifyPush id _ => [id]
  | _ => []
  end.

(** The command a thread has queued and not returned from yet. *)
Definition pending (pc : ProdPC) : option QueuedCommand :=
  match pc with
  | QNotify call id | BLock call id | BCheck call id
  | BWait call id | BWoken call id => Some (commandOf call id)
  | _ => None
  end.

(** The thread is inside [blockUntilCommandCompleted call id]. *)
Definition blockedOn (pc : ProdPC) : option (Call * Z) :=
  match pc with
  | BLock call id | BCheck call id | BWait call id | BWoken call id =>
      Some (call, id)
  | _ => None
  end.

(** Worker slots the core thread holds at a program point. *)
Definition reserved (pc : CorePC) : Z :=
  match pc with
  | CNone | CStart | CWaitEnter | CWait | CWoken | CReclaim | CDone => 0
  | _ => 1
  end.

(** The core thread has left [runCoreThread]. *)
Definition exited (pc : CorePC) : bool :=
  match pc with CDone => true | _ => false end.

(** Program points at which a mutex is held. *)
Definition holdsQueueMutex (pc : ProdPC) : bool :=
  match pc with QCrit _ _ | SCrit => true | _ => false end.

Definition coreHoldsQueueMutex (pc : CorePC) : bool :=
  match pc with CTest | CWaitEnter | CReclaim | CExit => true | _ => false end.

Definition holdsNotifyMutex (pc : ProdPC) : bool :=
  match pc with BCheck _ _ => true | _ => false end.

Definition coreHoldsNotifyMutex (pc : CorePC) : bool :=
  match pc with CNotifyPush _ _ => true | _ => false end.


(** The notify-id drawn by the [k]-th blocking submission, counted from 0. *)
Definition nth_id (k : nat) : Z := to_UINT32 (Z.of_nat k).

(** Worker slots the core thread has taken out of a scheduler of capacity [W]. *)
Definition reservedSlots (W : Z) (s : System) : Z := (W - mMaxActiveTasks s)%Z.

(** The core thread is flushing the queue or executing flushed commands. *)
Definition working (pc : CorePC) : bool :=
  match pc with
  | CTest | CPlay _ | CNotifyLock _ _ | CNotifyPush _ _ | CNotifyAll _ => true
  | _ => false
  end.

(** Shutdown is requested while three commands are queued: the core thread
    is parked in its wait, thread 2 queues three commands, thread 0 runs
    [shutdownCoreThread], and the core thread runs until it leaves. *)
Definition shutdown_schedule_queued : list Label :=
  [Core; Core; Core; Core; Core;
   CallQueueCommand 2 10 false; Producer 2; Producer 2;
   CallQueueCommand 3 11 false; Producer 3; Producer 3;
   CallQueueReturnCommand 4 12 false; Producer 4; Producer 4;
   CallShutdownCoreThread 0; Producer 0; Producer 0].

Definition shutdown_schedule_drain : list Label :=
  [Producer 0; Producer 0;
   Core; Core; Core; Core; Core; Core; Core; Core; Core; Core].

(** ** Readings of the blocking protocol *)


(** The notify-id of the command a thread has queued and not returned from. *)
Definition pendingId (pc : ProdPC) : option Z := pending pc ≫= notifyId.

(** No two threads wait on the same notify-id. *)
Definition pending_ids_distinct (s : System) : Prop :=
  ∀ t1 t2 i, t1 ≠ t2 →
    pendingId (pcOf s t1) = Some i → pendingId (pcOf s t2) ≠ Some i.

(** No step lowers the notify-id counter. *)
Definition counter_monotone (cfg : Config) (s : System) : Prop :=
  ∀ l s', step_fn cfg l s = Some s' →
    (mMaxCommandNotifyId (self s) ≤ mMaxCommandNotifyId (self s'))%Z.

(** The thread has queued a blocking command and has not returned: it is
    about to call, or inside, [blockUntilCommandCompleted call id]. *)
Definition inBlockingCall (pc : ProdPC) : option (Call * Z) :=
  match pc with
  | QNotify call id => if cBlock call then Some (call, id) else None
  | _ => blockedOn pc
  end.

(** A blocking call returns only by taking its notify-id out of the
    completed ones. *)
Definition returns_after_finding (cfg : Config) (s : System) : Prop :=
  ∀ t call id s',
    inBlockingCall (pcOf s t) = Some (call, id) →
    step_fn cfg (Producer t) s = Some s' → pcOf s' t = Idle →
    ∃ l1 l2, mCommandsCompleted (self s) = l1 ++ id :: l2 ∧ (id ∉ l1) ∧
             mCommandsCompleted (self s') = l1 ++ l2.

(** Thread 5 makes one blocking submission and runs it to its return. *)
Definition blocking_schedule_single : list Label :=
  [CallQueueCommand 5 7 true; Producer 5; Producer 5; Producer 5].

(** The core thread parks, thread 2 makes a blocking submission, the core
    thread plays it and thread 2 returns. *)
Definition blocking_schedule : list Label :=
  [Core; Core; Core; Core; Core;
   CallQueueCommand 2 100 true; Producer 2; Producer 2; Producer 2;
   Core; Core; Core; Core; Core; Core; Core; Core;
   Producer 2; Producer 2].

(** ** A long-blocked caller and a busy one

    Thread 2 has made a blocking submission which the core thread has
    played and recorded, and has not looked at the completed set yet;
    thread 3 is free to make blocking submissions of its own. *)

Definition callA : Call := {| cReturn := false; cCallback := 100; cBlock := true |}.
Definition callB : Call := {| cReturn := false; cCallback := 200; cBlock := true |}.

(** The situation after thread 2's command has been played and recorded
    and thread 3 has returned from its own, with the counter at [k]. *)
Record wrapping (k : Z) (s : System) : Prop := {
  wr_reach : reachable multiThreaded 0 1 4 s;
  wr_counter : mMaxCommandNotifyId (self s) = k;
  wr_completed : mCommandsCompleted (self s) = [0%Z];
  wr_core : corePc s = CLoop;
  wr_A : pcOf s 2 = BLock callA 0;
  wr_B : pcOf s 3 = Idle;
  wr_qm : mCommandQueueMutex (self s) = None;
  wr_nm : mCommandNotifyMutex (self s) = None;
  wr_queue : mCommandQueue (self s) = [];
  wr_tid : coreTid s = Some 1;
  wr_id : mCoreThreadId (self s) = 1;
  wr_inv : ∀ t q, EvInvoke t q ∈ trace s → callback q = 200 →
           notifyId q ≠ Some 0%Z
}.

(** Thread 2 submits, the core thread plays and records, thread 2 stays
    where it is; then thread 3 does a whole blocking submission. *)
Definition wrap_prefix_schedule : list Label :=
  [Core; Core; Core; Core; Core;
   CallQueueCommand 2 100 true; Producer 2; Producer 2; Producer 2;
   Core; Core; Core; Core; Core; Core; Core; Core;
   CallQueueCommand 3 200 true; Producer 3; Producer 3; Producer 3;
   Core; Core; Core; Core; Core; Core; Core;
   Producer 3; Producer 3].

(** One whole blocking submission of thread 3. *)
Definition wrap_cycle_schedule : list Label :=
  [CallQueueCommand 3 200 true; Producer 3; Producer 3; Producer 3;
   Core; Core; Core; Core; Core; Core; Core;
   Producer 3; Producer 3].

(** Thread 3 submits again and, without the core thread running, looks at
    the completed set. *)
Definition wrap_collision_schedule : list Label :=
  [CallQueueCommand 3 200 true; Producer 3; Producer 3; Producer 3;
   Producer 3; Producer 3].

(** Thread 3 submits again and the core thread plays and records the
    command while thread 2 has still not looked at the completed set. *)
Definition wrap_duplicate_schedule : list Label :=
  [CallQueueCommand 3 200 true; Producer 3; Producer 3; Producer 3;
   Core; Core; Core; Core; Core].

(** ** Readings of the accessor registry *)

(** [getAccessor] creates on a thread's first call on the [CoreThread]: a
    thread with no container in the registry is given a new accessor,
    which is cached in its thread-local slot and appended to the
    registry. *)
Definition creates_on_first_call (s : System) : Prop :=
  ∀ t, (∀ c, mAccessor s !! t = Some c → c ∉ mAccessors (self s)) →
    ∃ a s', getAccessor t s = Some (a, s') ∧ heap s !! a = None ∧
      ∃ c, mAccessor s' !! t = Some c ∧
           mAccessors (self s') = mAccessors (self s) ++ [c].

(** [submitAccessors] can flush the accessor of every thread that has
    called [getAccessor]. *)
Definition flushes_every_accessor (s : System) : Prop :=
  ∀ block, ∃ calls, submitAccessors block s = Some calls ∧
    ∀ t c a, mAccessor s !! t = Some c → deref_container s c = Some a →
             (a, block) ∈ calls.

(** ** Readings of the blocking protocol *)






(** Threads 2 and 3 each make a blocking submission while the core thread
    is parked, and neither has returned. *)
Definition two_pending_schedule : list Label :=
  [Core; Core; Core; Core; Core;
   CallQueueCommand 2 100 true; Producer 2; Producer 2; Producer 2;
   CallQueueReturnCommand 3 200 true; Producer 3; Producer 3; Producer 3].

(** * Further operations and observations *)

(** [CoreThread::getSyncedAccessor]: the object behind
    [mSyncedCoreAccessor]; there is none where the pointer is null or the
    object it points at has been deleted. *)
Definition getSyncedAccessor (s : System) : option HeapObj :=
  p ← mSyncedCoreAccessor (self s); heap s !! p.

(** [gCoreAccessor]: [*CoreThread::instance().getAccessor()], called on
    thread [t]. *)
Definition gCoreAccessor (t : ThreadId) (s : System) : option (HeapObj * System) :=
  '(a, s') ← getAccessor t s;
  o ← heap s' !! a;
  Some (o, s').

(** The core thread is between the creation and the deletion of the synced
    accessor. *)
Definition running (pc : CorePC) : bool :=
  match pc with
  | CNone | CStart | CInit | CExit | CDone => false
  | _ => true
  end.

(** The core thread has executed [mCoreThreadId = CM_THREAD_CURRENT_ID]. *)
Definition initialised (pc : CorePC) : bool :=
  match pc with CNone | CStart | CInit => false | _ => true end.

(** The thread is about to execute a [CM_THREAD_NOTIFY_ALL] on
    [mCommandReadyCondition]. *)
Definition aboutToNotify (pc : ProdPC) : bool :=
  match pc with QNotify _ _ | SNotify => true | _ => false end.

(** The thread is past the locked section of [shutdownCoreThread]. *)
Definition pastShutdownSection (pc : ProdPC) : bool :=
  match pc with SNotify | SSetId => true | _ => false end.

(** The thread is inside [shutdownCoreThread]. *)
Definition inShutdown (pc : ProdPC) : bool :=
  match pc with SLock | SCrit | SNotify | SSetId => true | _ => false end.

Definition returnedOf (e : Event) : option QueuedCommand :=
  match e with EvReturn _ q => Some q | _ => None end.

(** The commands whose submitting call has returned, oldest first. *)
Definition returned (s : System) : list QueuedCommand :=
  omap returnedOf (trace s).

(** The thread is idle or in the queueing part of a submission. *)
Definition queueing (pc : ProdPC) : bool :=
  match pc with
  | Idle | QLock _ _ | QCrit _ _ | QNotify _ _ => true
  | _ => false
  end.

(** After the core thread has left, thread 5 makes a blocking submission
    and goes as far as it can. *)
Definition late_submission_schedule : list Label :=
  [CallQueueCommand 5 77 true; Producer 5; Producer 5; Producer 5;
   Producer 5; Producer 5].

(** ** Driving the core thread

    Notions used to show that the core thread can always get through its
    work. *)

(** No thread other than the core thread holds one of the two mutexes. *)
Definition quiet (s : System) : Prop :=
  (mCommandQueueMutex (self s) = None ∨ coreHoldsQueueMutex (corePc s) = true) ∧
  (mCommandNotifyMutex (self s) = None ∨ coreHoldsNotifyMutex (corePc s) = true).

(** The distance of a program point of the core thread from its next
    invocation or its next rest. *)
Definition rank (pc : CorePC) : nat :=
  match pc with
  | CWait => 19
  | CWoken => 18
  | CReclaim => 17
  | CStart => 15
  | CInit => 14
  | CNotifyLock _ _ => 13
  | CNotifyPush _ _ => 12
  | CNotifyAll _ => 11
  | CPlay [] => 10
  | CLoop => 9
  | CTest => 8
  | CWaitEnter | CExit => 1
  | CPlay (_ :: _) | CNone | CDone => 0
  end.

(** What the core thread has left to do. *)
Definition work (s : System) : nat :=
  20 * length (batch (corePc s) ++ mCommandQueue (self s)) + rank (corePc s).

(** The core thread has gone through everything queued and rests: it
    waits with no shutdown requested, or it has left. *)
Definition settled (s : System) : Prop :=
  mCommandQueue (self s) = [] ∧
  ((corePc s = CWait ∧ mCoreThreadShutdown (self s) = false) ∨ corePc s = CDone).

(** The core thread is the recorded core thread: from the assignment in
    [runCoreThread] (line 70) on, [mCoreThreadId] holds the id of the core
    thread, which it does until a caller of [shutdownCoreThread] stores its
    own (line 115).  While that is so, what a played callback submits
    takes the immediate branch of [queueCommand] and [queueReturnCommand]
    and runs inside the callback. *)
Definition recorded (K : ThreadId) (s : System) : Prop :=
  initialised (corePc s) = true → mCoreThreadId (self s) = K.

(** A run throughout which the core thread is the recorded core thread. *)
Definition steps_recorded (cfg : Config) (K : ThreadId) : relation System :=
  rtc (λ s s', step cfg s s' ∧ recorded K s').

(** A run in which nothing is queued, no shutdown is requested and no
    blocking call returns, and throughout which the core thread is the
    recorded core thread. *)
Definition driven (cfg : Config) (K : ThreadId) (s s' : System) : Prop :=
  steps_recorded cfg K s s' ∧ enqueued s' = enqueued s ∧
  mCoreThreadShutdown (self s') = mCoreThreadShutdown (self s) ∧
  ∀ t call id, inBlockingCall (pcOf s t) = Some (call, id) →
               inBlockingCall (pcOf s' t) = Some (call, id).

(** The steps the core thread needs to give the queue mutex back. *)
Definition holdRank (pc : CorePC) : nat :=
  match pc with
  | CReclaim => 3
  | CTest => 2
  | CWaitEnter | CExit => 1
  | _ => 0
  end.

(** ** Invariants of the reachable states *)

Record heap_inv (s : System) : Prop := {
  hi_frames : mFrameAllocs (self s) = [0; 1];
  hi_active : mActiveFrameAlloc (self s) = 0%Z ∨ mActiveFrameAlloc (self s) = 1%Z;
  hi_arena0 : ∃ blocks, heap s !! 0 = Some (OFrameAlloc blocks);
  hi_arena1 : ∃ blocks, heap s !! 1 = Some (OFrameAlloc blocks);
  hi_next : 2 ≤ heapNext s;
  hi_bound : ∀ p, is_Some (heap s !! p) → p < heapNext s;
  hi_synced : ∀ p, mSyncedCoreAccessor (self s) = Some p → 2 ≤ p < heapNext s
}.

Record acc_inv (s : System) : Prop := {
  ai_nodup : NoDup (mAccessors (self s));
  ai_tls : ∀ t c, mAccessor s !! t = Some c →
    c ∈ mAccessors (self s) ∧
    ∃ a, heap s !! c = Some (OAccessorContainer a) ∧
         heap s !! a = Some (OCoreThreadAccessor false t);
  ai_reg : ∀ c, c ∈ mAccessors (self s) → ∃ t, mAccessor s !! t = Some c;
  ai_synced : ∀ p o, mSyncedCoreAccessor (self s) = Some p →
    heap s !! p = Some o → ∃ k, o = OCoreThreadAccessor true k
}.

Record core_inv (cfg : Config) (K : ThreadId) (s : System) : Prop := {
  ci_tid : coreTid s =
           if CM_FORCE_SINGLETHREADED_RENDERING cfg then None else Some K;
  ci_none : CM_FORCE_SINGLETHREADED_RENDERING cfg = true → corePc s = CNone;
  ci_idle : ∀ k, coreTid s = Some k → default Idle (pcs s !! k) = Idle
}.

Record mutex_inv (s : System) : Prop := {
  mi_q : ∀ t, holdsQueueMutex (default Idle (pcs s !! t)) = true →
         mCommandQueueMutex (self s) = Some t;
  mi_qc : coreHoldsQueueMutex (corePc s) = true →
          mCommandQueueMutex (self s) = coreTid s;
  mi_n : ∀ t, holdsNotifyMutex (default Idle (pcs s !! t)) = true →
         mCommandNotifyMutex (self s) = Some t;
  mi_nc : coreHoldsNotifyMutex (corePc s) = true →
          mCommandNotifyMutex (self s) = coreTid s
}.

Record pending_inv (cfg : Config) (s : System) : Prop := {
  pe_queued : ∀ t q, pending (default Idle (pcs s !! t)) = Some q →
              q ∈ enqueued s;
  pe_block : ∀ t call id, blockedOn (default Idle (pcs s !! t)) = Some (call, id) →
             cBlock call = true ∧ CM_FORCE_SINGLETHREADED_RENDERING cfg = false
}.

Record owner_inv (s : System) : Prop := {
  ow_q : ∀ t, mCommandQueueMutex (self s) = Some t →
         holdsQueueMutex (default Idle (pcs s !! t)) = true ∨
         (coreTid s = Some t ∧ coreHoldsQueueMutex (corePc s) = true);
  ow_n : ∀ t, mCommandNotifyMutex (self s) = Some t →
         holdsNotifyMutex (default Idle (pcs s !! t)) = true ∨
         (coreTid s = Some t ∧ coreHoldsNotifyMutex (corePc s) = true)
}.

(** * Reasoning about reachable states *)

Lemma reachable_init cfg M K W s0 :
  M ≠ K → CoreThread_ctor cfg M K W = Ok s0 → reachable cfg M K W s0.
Proof. intros. exists s0. split_and!; auto. apply rtc_refl. Qed.

Lemma reachable_step cfg M K W s l s' :
  reachable cfg M K W s → step_fn cfg l s = Some s' → reachable cfg M K W s'.
Proof.
  intros (s0 & ? & ? & ?) Hl. exists s0. split_and!; auto.
  eapply rtc_r; [eassumption | by exists l].
Qed.

Lemma reachable_steps cfg M K W s s' :
  reachable cfg M K W s → steps cfg s s' → reachable cfg M K W s'.
Proof.
  intros (s0 & ? & ? & ?) Hs. exists s0. split_and!; auto.
  by etrans.
Qed.

Lemma reachable_run cfg M K W s0 ls s :
  M ≠ K → CoreThread_ctor cfg M K W = Ok s0 → run cfg ls s0 = Some s →
  reachable cfg M K W s.
Proof.
  intros Hne Hc. pose proof (reachable_init _ _ _ _ _ Hne Hc) as Hr.
  clear Hc. revert s0 Hr. induction ls as [|l ls IH]; intros s0 Hr Hrun.
  - by injection Hrun as <-.
  - cbn [run] in Hrun. destruct (step_fn cfg l s0) as [s1|] eqn:Hl; [|done].
    eapply IH; [|exact Hrun]. by eapply reachable_step.
Qed.

Lemma steps_run cfg ls s s' : run cfg ls s = Some s' → steps cfg s s'.
Proof.
  revert s. induction ls as [|l ls IH]; intros s Hrun.
  - injection Hrun as <-. apply rtc_refl.
  - cbn [run] in Hrun. destruct (step_fn cfg l s) as [s1|] eqn:Hl; [|done].
    eapply rtc_l; [by exists l | by apply IH].
Qed.

(** Induction over the states reachable from a construction. *)
Lemma reachable_ind' cfg M K W (P : System → Prop) :
  (∀ s0, M ≠ K → CoreThread_ctor cfg M K W = Ok s0 → P s0) →
  (∀ s l s', reachable cfg M K W s → P s → step_fn cfg l s = Some s' → P s') →
  ∀ s, reachable cfg M K W s → P s.
Proof.
  intros Hinit Hstep s (s0 & Hne & Hctor & Hsteps).
  cut (reachable cfg M K W s ∧ P s); [tauto|].
  revert s Hsteps. apply (rtc_ind_r (λ s, reachable cfg M K W s ∧ P s)).
  - split; [by apply reachable_init | eauto].
  - intros s1 s2 _ [l Hl] [Hr HP1]. split; [by eapply reachable_step | eauto].
Qed.

(** The state right after a successful construction. *)
Lemma ctor_inv cfg M K W s0 :
  CoreThread_ctor cfg M K W = Ok s0 →
  s0 = (let base :=
          {| self := {| mCoreThreadShutdown := false; mCoreThreadId := M;
                        mCommandQueue := []; mMaxCommandNotifyId := 0;
                        mCommandsCompleted := []; mSyncedCoreAccessor := None;
                        mAccessors := []; mFrameAllocs := [0; 1];
                        mActiveFrameAlloc := 0; mCommandQueueMutex := None;
                        mCommandNotifyMutex := None |};
             mAccessor := ∅;
             heap := <[1 := OFrameAlloc []]> (<[0 := OFrameAlloc []]> ∅);
             heapNext := 2; mMaxActiveTasks := W;
             coreTid := None; corePc := CNone; pcs := ∅; trace := [] |} in
        if CM_FORCE_SINGLETHREADED_RENDERING cfg then base
        else set_corePc CStart (set_coreTid (Some K) base)) ∧
  (CM_FORCE_SINGLETHREADED_RENDERING cfg = true ∨ CM_THREAD_SUPPORT cfg = true).
Proof.
  unfold CoreThread_ctor, CoreThread_ctor_in, process_start, initCoreThread, cm_new.
  cbv beta iota zeta. cbn [tls objects nextObject workers].
  destruct (CM_FORCE_SINGLETHREADED_RENDERING cfg), (CM_THREAD_SUPPORT cfg);
    intros H; try discriminate H; injection H as <-; auto.
Qed.

Ltac sys_simpl :=
  cbn [mCoreThreadShutdown mCoreThreadId mCommandQueue mMaxCommandNotifyId
       mCommandsCompleted mSyncedCoreAccessor mAccessors mFrameAllocs
       mActiveFrameAlloc mCommandQueueMutex mCommandNotifyMutex self
       mAccessor heap heapNext mMaxActiveTasks coreTid corePc pcs trace
       set_mCoreThreadShutdown set_mCoreThreadId set_mCommandQueue
       set_mMaxCommandNotifyId set_mCommandsCompleted set_mSyncedCoreAccessor
       set_mAccessors set_mFrameAllocs set_mActiveFrameAlloc
       set_mCommandQueueMutex set_mCommandNotifyMutex set_self set_mAccessor
       set_heap set_heapNext set_mMaxActiveTasks set_coreTid set_corePc
       set_pcs set_trace with_mCoreThreadShutdown with_mCoreThreadId
       with_mCommandQueue with_mMaxCommandNotifyId with_mCommandsCompleted
       with_mSyncedCoreAccessor with_mAccessors with_mFrameAllocs
       with_mActiveFrameAlloc with_mCommandQueueMutex
       with_mCommandNotifyMutex set_pc log addWorker removeWorker
       notifyAll_mCommandReadyCondition notifyAll_mCommandCompleteCondition
       commandCompletedNotify_push fst snd] in *.

Lemma getAccessor_Some t s a s' :
  getAccessor t s = Some (a, s') →
  (mAccessor s !! t = None ∧ a = heapNext s ∧
   s' = with_mAccessors (mAccessors (self s) ++ [S (heapNext s)])
          (set_mAccessor (<[t := S (heapNext s)]> (mAccessor s))
             (set_heapNext (S (S (heapNext s)))
                (set_heap (<[S (heapNext s) := OAccessorContainer (heapNext s)]>
                             (<[heapNext s := OCoreThreadAccessor false t]> (heap s)))
                   s)))) ∨
  (∃ c, mAccessor s !! t = Some c ∧ deref_container s c = Some a ∧ s' = s).
Proof.
  unfold getAccessor. destruct (mAccessor s !! t) as [c|] eqn:Hc.
  - rewrite Hc. cbn [mbind option_bind].
    destruct (deref_container s c) eqn:Hd; [|done].
    cbn [mbind option_bind]. intros [= <- <-]. right. eauto.
  - unfold cm_new. cbv beta iota zeta. sys_simpl.
    rewrite lookup_insert_eq. cbn [mbind option_bind].
    unfold deref_container. sys_simpl. rewrite lookup_insert_eq.
    cbn [mbind option_bind]. intros [= <- <-]. left. auto.
Qed.

(** Case analysis of one step: every way [step_fn] can succeed. *)
Ltac inv_step H :=
  repeat match type of H with
  | step_fn _ ?l _ = Some _ =>
      first [is_var l; destruct l | idtac]; cbn [step_fn] in H
  | update _ = Some _ => unfold update in H
  | frameAlloc _ _ = Some _ => unfold frameAlloc in H
  | fmap snd (getAccessor ?t ?s) = Some _ =>
      let Hga := fresh "Hga" in
      destruct (getAccessor t s) as [[? ?]|] eqn:Hga;
      [apply getAccessor_Some in Hga as [(? & ? & ->)|(? & ? & ? & ->)]|];
      cbn [fmap option_fmap option_map snd] in H
  | context [enqueue _ _ _ _] => unfold enqueue in H
  | context [if cBlock ?c then (_, _) else _] =>
      destruct (cBlock c) eqn:?; cbv beta iota zeta in H
  | context [cm_new _ _] => unfold cm_new in H; cbv beta iota zeta in H
  | context [flush _] => unfold flush in H; cbv beta iota zeta in H
  | producer_step _ _ _ = Some _ => unfold producer_step in H
  | runCoreThread_step _ _ = Some _ => unfold runCoreThread_step in H
  | (if ?b then _ else _) = Some _ => destruct b eqn:?
  | (let '(_, _) := ?x in _) = Some _ => destruct x eqn:?
  | match ?x with _ => _ end = Some _ => destruct x eqn:?
  | mbind _ ?x = Some _ => destruct x eqn:?; cbn [mbind option_bind] in H
  | fmap _ ?x = Some _ => destruct x eqn:?; cbn [fmap option_fmap option_map] in H
  | None = Some _ => discriminate H
  | Some _ = Some _ => injection H as <-
  end.

Ltac split_calls :=
  unfold queueCommand, queueReturnCommand, submit, shutdownCoreThread, cm_delete in *;
  repeat match goal with
  | |- context [if decide ?P then _ else _] => destruct (decide P)
  | |- context [if CM_FORCE_SINGLETHREADED_RENDERING ?c then _ else _] =>
      destruct (CM_FORCE_SINGLETHREADED_RENDERING c) eqn:?
  | |- context [match mSyncedCoreAccessor ?c with _ => _ end] =>
      destruct (mSyncedCoreAccessor c) eqn:?
  end.

Lemma pc_insert (m : gmap nat ProdPC) t pc t' :
  default Idle (<[t := pc]> m !! t') = if decide (t = t') then pc else default Idle (m !! t').
Proof. rewrite lookup_insert. by case_decide. Qed.

Lemma pc_wake (m : gmap nat ProdPC) t :
  default Idle ((wakeProd <$> m) !! t) = wakeProd (default Idle (m !! t)).
Proof. rewrite lookup_fmap. by destruct (m !! t). Qed.

Lemma mayCall_true t s :
  mayCall t s = true → default Idle (pcs s !! t) = Idle ∧ coreTid s ≠ Some t.
Proof.
  unfold mayCall, pcOf. intros [H1 H2]%andb_prop.
  by apply bool_decide_eq_true in H1, H2.
Qed.

Ltac step_facts :=
  unfold pcOf in *;
  repeat match goal with
  | H : mayCall _ _ = true |- _ => apply mayCall_true in H; destruct H
  | H : bool_decide _ = true |- _ => apply bool_decide_eq_true in H
  | H : bool_decide _ = false |- _ => apply bool_decide_eq_false in H
  end.

Lemma put_queued call id q : put call id q = q ++ [queued call id].
Proof. unfold put, queue, queueReturn, queued. by destruct (cReturn call). Qed.

(** The standard opening of an invariant's step case. *)
Ltac step_cases H :=
  inv_step H; split_calls; step_facts; sys_simpl;
  rewrite ?put_queued in *;
  rewrite ?pc_insert, ?pc_wake.

(** ** The heap and the frame allocators *)

Lemma next_index_0 : (to_UINT32 (0 + 1) `mod` 2)%Z = 1%Z.
Proof. reflexivity. Qed.

Lemma next_index_1 : (to_UINT32 (1 + 1) `mod` 2)%Z = 0%Z.
Proof. reflexivity. Qed.

Ltac heap_solve :=
  repeat first [rewrite lookup_insert | rewrite lookup_delete];
  repeat case_decide; subst; eauto; try lia; try done.

Lemma heap_inv_init cfg M K W s0 :
  CoreThread_ctor cfg M K W = Ok s0 → heap_inv s0.
Proof.
  intros [-> _]%ctor_inv.
  destruct (CM_FORCE_SINGLETHREADED_RENDERING cfg); sys_simpl;
      (split; sys_simpl; eauto;
       [intros p [o Hp]; apply lookup_insert_Some in Hp as [[<- _]|[_ Hp]];
          [lia|apply lookup_insert_Some in Hp as [[<- _]|[_ Hp]]; [lia|done]]
       | done]).
Qed.

Lemma heap_inv_step cfg l s s' :
  heap_inv s → step_fn cfg l s = Some s' → heap_inv s'.
Proof.
  intros [Hf Ha [b0 H0] [b1 H1] Hn Hb Hsy] Hl.
  assert (Hfresh : ∀ p, heapNext s ≤ p → heap s !! p = None).
    { intros p Hp. apply eq_None_not_Some. intros ?%Hb. lia. }
    assert (Hidx : ∀ i p, [0; 1] !! i = Some p → p = 0 ∨ p = 1).
    { intros [|[|i]] p; cbn; intros [= <-]; auto. }
    step_cases Hl.
    all: unfold getFrameAlloc in *; sys_simpl.
    all: repeat match goal with
         | H : mFrameAllocs (self _) !! _ = Some _ |- _ => rewrite Hf in H
         | H : [0; 1] !! _ = Some _ |- _ => apply Hidx in H
         end.
    all: split; sys_simpl; try done; eauto.
    all: try (destruct Ha as [-> | ->]; rewrite ?next_index_0, ?next_index_1; by auto).
    all: try (intros p; rewrite !lookup_insert; repeat case_decide; subst; try lia;
              intros ?%Hb; lia).
    all: try (intros p; rewrite lookup_delete; case_decide; [by intros []|apply Hb]).
    all: try (intros ? [= <-]; lia).
    all: try (intros p Hp; specialize (Hsy _ Hp); lia).
    all: try (rewrite !lookup_insert; repeat case_decide; subst; eauto; lia).
    all: try (intros p Hp; apply Hsy; congruence).
    all: specialize (Hsy _ eq_refl); rewrite lookup_delete;
      case_decide; [lia|eauto].
Qed.

Lemma heap_inv_reachable cfg M K W s :
  reachable cfg M K W s → heap_inv s.
Proof.
  revert s. apply reachable_ind'.
  - intros s0 _ Hc. by eapply heap_inv_init.
  - intros s l s' _ Hi Hl. by eapply heap_inv_step.
Qed.

(** ** The accessor registry *)

Lemma acc_inv_init cfg M K W s0 :
  CoreThread_ctor cfg M K W = Ok s0 → acc_inv s0.
Proof.
  intros [-> _]%ctor_inv.
  destruct (CM_FORCE_SINGLETHREADED_RENDERING cfg); sys_simpl;
    (split; sys_simpl; [apply NoDup_nil_2|done|by intros ? ?%elem_of_nil|done]).
Qed.

Lemma arena_Some s p blocks :
  arena s p = Some blocks → heap s !! p = Some (OFrameAlloc blocks).
Proof.
  unfold arena. destruct (heap s !! p) as [[]|]; try done. by intros [= ->].
Qed.

Lemma acc_inv_step cfg l s s' :
  heap_inv s → acc_inv s → step_fn cfg l s = Some s' → acc_inv s'.
Proof.
  intros [Hf Ha [b0 H0] [b1 H1] Hn Hb Hsy] [Hnd Htls Hreg Hsyn] Hl.
  assert (Hfresh : ∀ p, heapNext s ≤ p → heap s !! p = None).
  { intros p Hp. apply eq_None_not_Some. intros ?%Hb. lia. }
  assert (Htls' : ∀ t c, mAccessor s !! t = Some c →
    c ∈ mAccessors (self s) ∧ c < heapNext s ∧
    ∃ a, a < heapNext s ∧ heap s !! c = Some (OAccessorContainer a) ∧
         heap s !! a = Some (OCoreThreadAccessor false t)).
  { intros t c (Hin & a & Hc & Ha')%Htls. split_and!; [done|apply Hb; eauto|].
    exists a. split_and!; [apply Hb; eauto|done|done]. }
  step_cases Hl.
  all: repeat match goal with
       | H : arena _ _ = Some _ |- _ => apply arena_Some in H
       end.
  all: split; sys_simpl; try done.
  all: try (intros p o Hp; congruence).
  (* the thread-local pointers, when only the heap changes *)
  all: try (intros t0 c Hc; destruct (Htls' _ _ Hc) as (Hin & Hlt & a & Hlt' & Hc1 & Ha1);
            split; [done|]; exists a;
            first [ rewrite !lookup_insert_ne by lia; done
                  | rewrite !lookup_insert_ne by congruence; done
                  | rewrite !lookup_delete_ne; [done| |]; intros ->;
                    match goal with
                    | H1 : heap _ !! ?p = Some ?o |- _ =>
                        destruct (Hsyn p o eq_refl H1); congruence
                    end ]).
  (* the synced accessor, when only the heap changes *)
  all: try (intros p o Hp; rewrite lookup_insert; case_decide;
            [ subst; first [ by intros [= <-]; eauto
                           | match goal with
                             | H1 : heap _ !! _ = Some _ |- _ =>
                                 destruct (Hsyn _ _ Hp H1); congruence
                             end ]
            | by apply Hsyn ]).
  all: try (intros p o [= <-]; rewrite lookup_insert_eq; intros [= <-]; eauto).
  all: try (intros p o Hp; rewrite lookup_delete; case_decide; [done|];
            apply Hsyn; congruence).
  (* a first call of getAccessor *)
  - apply NoDup_app. split_and!; [done| |apply NoDup_singleton].
    intros c [t0 Hc]%Hreg ->%list_elem_of_singleton.
    apply Htls' in Hc. lia.
  - intros t0 c [[-> <-]|[Hne Hc]]%lookup_insert_Some.
    + split; [apply elem_of_app; right; by apply list_elem_of_singleton|].
      exists (heapNext s).
      rewrite lookup_insert_eq, lookup_insert_ne by lia.
      by rewrite lookup_insert_eq.
    + destruct (Htls' _ _ Hc) as (Hin & Hlt & a & Hlt' & Hc1 & Ha1).
      split; [apply elem_of_app; by left|].
      exists a. by rewrite !lookup_insert_ne by lia.
  - intros c [Hc| ->%list_elem_of_singleton]%elem_of_app.
    + destruct (Hreg _ Hc) as [t0 Ht0]. exists t0.
      rewrite lookup_insert_ne; [done|congruence].
    + exists t. by rewrite lookup_insert_eq.
  - intros p o Hp. specialize (Hsy _ Hp).
    rewrite !lookup_insert_ne by lia. by apply Hsyn.
Qed.

Lemma acc_inv_reachable cfg M K W s :
  reachable cfg M K W s → acc_inv s.
Proof.
  revert s. apply reachable_ind'.
  - intros s0 _ Hc. by eapply acc_inv_init.
  - intros s l s' Hr Hi Hl. eapply acc_inv_step; [|done..].
    by eapply heap_inv_reachable.
Qed.

Lemma heap_inv_steps cfg s s' :
  heap_inv s → acc_inv s → steps cfg s s' → heap_inv s' ∧ acc_inv s'.
Proof.
  intros Hh Ha Hs. induction Hs as [|x y z [l Hl] _ IH]; [done|].
  apply IH; [by eapply heap_inv_step | by eapply acc_inv_step].
Qed.

Lemma tls_stable cfg l s s' t c a :
  heap_inv s → acc_inv s → step_fn cfg l s = Some s' →
  mAccessor s !! t = Some c → deref_container s c = Some a →
  mAccessor s' !! t = Some c ∧ deref_container s' c = Some a.
Proof.
  intros [Hf Ha [b0 H0] [b1 H1] Hn Hb Hsy] [Hnd Htls Hreg Hsyn] Hl Ht Hd.
  unfold deref_container in *.
  destruct (heap s !! c) as [[| |a']|] eqn:Hc; try done.
  injection Hd as ->.
  assert (Hlt : c < heapNext s) by (apply Hb; eauto).
  step_cases Hl.
  all: repeat match goal with
       | H : arena _ _ = Some _ |- _ => apply arena_Some in H
       end.
  all: rewrite ?Hc; try done.
  all: try (rewrite lookup_insert_ne by congruence; by rewrite Hc).
  all: try (rewrite lookup_insert_ne by lia; by rewrite Hc).
  - rewrite lookup_insert_ne by congruence.
    rewrite !lookup_insert_ne by lia. by rewrite Hc.
  - rewrite lookup_delete_ne; [by rewrite Hc|]. intros ->.
    destruct (Hsyn _ _ eq_refl Hc). congruence.
Qed.

Lemma tls_stable_steps cfg s s' t c a :
  heap_inv s → acc_inv s → steps cfg s s' →
  mAccessor s !! t = Some c → deref_container s c = Some a →
  mAccessor s' !! t = Some c ∧ deref_container s' c = Some a.
Proof.
  intros Hh Ha Hs. induction Hs as [|x y z [l Hl] _ IH]; [done|].
  intros Ht Hd. destruct (tls_stable _ _ _ _ _ _ _ Hh Ha Hl Ht Hd).
  apply IH; [by eapply heap_inv_step | by eapply acc_inv_step | done..].
Qed.

Lemma getAccessor_cached t s c a :
  mAccessor s !! t = Some c → deref_container s c = Some a →
  getAccessor t s = Some (a, s).
Proof.
  intros Ht Hd. unfold getAccessor. rewrite Ht. cbn [mbind option_bind].
  rewrite Ht. cbn [mbind option_bind]. by rewrite Hd.
Qed.

(** The accessors of the registry, in order. *)
Lemma registry_accessors s :
  acc_inv s →
  ∃ accs, mapM (deref_container s) (mAccessors (self s)) = Some accs ∧
    NoDup accs ∧ length accs = length (mAccessors (self s)) ∧
    (∀ a, a ∈ accs ↔
       ∃ t c, mAccessor s !! t = Some c ∧ deref_container s c = Some a).
Proof.
  intros [Hnd Htls Hreg _].
  assert (Hown : ∀ c, c ∈ mAccessors (self s) →
    ∃ t a, mAccessor s !! t = Some c ∧ deref_container s c = Some a ∧
           heap s !! a = Some (OCoreThreadAccessor false t)).
  { intros c [t Ht]%Hreg. destruct (Htls _ _ Ht) as (_ & a & Hc & Ha).
    exists t, a. unfold deref_container. by rewrite Hc. }
  set (acc_of := λ c, default 0 (deref_container s c)).
  exists (acc_of <$> mAccessors (self s)). split_and!.
  - apply mapM_Some_2, Forall2_fmap_r, Forall_Forall2_diag.
    apply Forall_forall.
    intros c (t & a & _ & Hd & _)%Hown. unfold acc_of. cbn. by rewrite Hd.
  - apply NoDup_fmap_2_strong; [|done].
    intros c1 c2 (t1 & a1 & Ht1 & Hd1 & Ha1)%Hown (t2 & a2 & Ht2 & Hd2 & Ha2)%Hown.
    unfold acc_of. rewrite Hd1, Hd2. cbn. intros ->.
    rewrite Ha1 in Ha2. injection Ha2 as ->. congruence.
  - by rewrite length_fmap.
  - intros a. rewrite list_elem_of_fmap. split.
    + intros (c & -> & (t & a' & Ht & Hd & _)%Hown).
      exists t, c. unfold acc_of. by rewrite Hd.
    + intros (t & c & Ht & Hd). exists c. unfold acc_of. rewrite Hd.
      split; [done|]. by apply Htls in Ht as [? _].
Qed.

(** * Frame allocators *)

Lemma update_reachable cfg M K W s :
  reachable cfg M K W s →
  ∃ s' old new,
    getFrameAlloc s = Some old ∧ update s = Some s' ∧
    getFrameAlloc s' = Some new ∧ new ≠ old ∧
    mActiveFrameAlloc (self s') = ((mActiveFrameAlloc (self s) + 1) `mod` 2)%Z ∧
    arena s' new = Some [] ∧ arena s' old = arena s old.
Proof.
  intros [Hf Ha [b0 H0] [b1 H1] Hn Hb Hsy]%heap_inv_reachable.
  unfold getFrameAlloc, update, arena. rewrite Hf.
  destruct Ha as [-> | ->]; rewrite ?next_index_0, ?next_index_1;
    change ([0; 1] !! Z.to_nat 0) with (Some 0);
    change ([0; 1] !! Z.to_nat 1) with (Some 1);
    cbn [mbind option_bind]; rewrite ?H0, ?H1; cbn [mbind option_bind].
  - exists (set_heap (<[1:=OFrameAlloc []]> (heap s)) (with_mActiveFrameAlloc 1 s)), 0, 1.
    sys_simpl. rewrite Hf, lookup_insert_eq, lookup_insert_ne by done.
    by split_and!.
  - exists (set_heap (<[0:=OFrameAlloc []]> (heap s)) (with_mActiveFrameAlloc 0 s)), 1, 0.
    sys_simpl. rewrite Hf, lookup_insert_eq, lookup_insert_ne by done.
    by split_and!.
Qed.

(** C2 (as amended): [update] flips the active index and then clears the
    arena that has just become active; the arena that was active before the
    call keeps its contents, and [getFrameAlloc] afterwards returns the
    cleared, newly active arena. *)
Theorem update_clears_new_active cfg M K W s :
  reachable cfg M K W s →
  ∃ s' old new,
    getFrameAlloc s = Some old ∧ update s = Some s' ∧
    getFrameAlloc s' = Some new ∧ new ≠ old ∧
    mActiveFrameAlloc (self s') = ((mActiveFrameAlloc (self s) + 1) `mod` 2)%Z ∧
    arena s' new = Some [] ∧ arena s' old = arena s old.
Proof. apply update_reachable. Qed.

Lemma update_clears_new_active_witness :
  ∃ s0 s,
    CoreThread_ctor multiThreaded 0 1 4 = Ok s0 ∧
    run multiThreaded frames_schedule s0 = Some s ∧
    arena s 0 = Some [8] ∧ arena s 1 = Some [16] ∧
    ∃ s' old new,
      getFrameAlloc s = Some old ∧ update s = Some s' ∧
      getFrameAlloc s' = Some new ∧ new ≠ old ∧
      mActiveFrameAlloc (self s') = ((mActiveFrameAlloc (self s) + 1) `mod` 2)%Z ∧
      arena s' new = Some [] ∧ arena s' old = arena s old.
Proof.
  eexists _, _. split; [reflexivity|]. split; [vm_compute; reflexivity|].
  split; [reflexivity|]. split; [reflexivity|].
  apply (update_clears_new_active multiThreaded 0 1 4).
  eapply (reachable_run multiThreaded 0 1 4 _ frames_schedule);
    [lia | reflexivity | vm_compute; reflexivity].
Defined.

(** C2 (as stated) fails: after an allocation in each arena, [update]
    leaves the arena that was active before the call untouched and empties
    the other one. *)
Lemma update_clears_previous_counterexample :
  ∃ s0 s,
    CoreThread_ctor multiThreaded 0 1 4 = Ok s0 ∧
    run multiThreaded frames_schedule s0 = Some s ∧
    ¬ update_clears_previous s.
Proof.
  eexists _, _. split; [reflexivity|]. split; [vm_compute; reflexivity|].
  intros H. destruct (H _ 1 0 eq_refl eq_refl eq_refl) as (_ & Hold & _).
  vm_compute in Hold. discriminate Hold.
Qed.

(** C10: the index of the active frame allocator starts at 0 and stays 0
    or 1; [update] succeeds and maps it by [(i + 1) % 2]; [getFrameAlloc]
    indexes inside the two-element array and returns one of the two
    allocators made by the constructor, which is still alive. *)
Theorem active_frame_index_in_bounds cfg M K W s0 s :
  M ≠ K → CoreThread_ctor cfg M K W = Ok s0 → steps cfg s0 s →
  mActiveFrameAlloc (self s0) = 0%Z ∧
  (mActiveFrameAlloc (self s) = 0%Z ∨ mActiveFrameAlloc (self s) = 1%Z) ∧
  (∃ s', update s = Some s' ∧
     mActiveFrameAlloc (self s') = ((mActiveFrameAlloc (self s) + 1) `mod` 2)%Z) ∧
  length (mFrameAllocs (self s)) = 2 ∧
  Z.to_nat (mActiveFrameAlloc (self s)) < length (mFrameAllocs (self s)) ∧
  ∃ p, getFrameAlloc s = Some p ∧ p ∈ mFrameAllocs (self s0) ∧
       is_Some (arena s p).
Proof.
  intros Hne Hc Hs.
  assert (Hr : reachable cfg M K W s) by (exists s0; auto).
  assert (Hr0 : reachable cfg M K W s0) by by apply reachable_init.
  apply heap_inv_reachable in Hr0 as [Hf0 _ _ _ _ _ _].
  destruct (update_reachable _ _ _ _ _ Hr) as (s' & old & new & Hg & Hu & _ & _ & Hm & _).
  apply heap_inv_reachable in Hr as [Hf Ha [b0 H0] [b1 H1] Hn Hb Hsy].
  split_and!.
  - apply ctor_inv in Hc as [-> _].
    by destruct (CM_FORCE_SINGLETHREADED_RENDERING cfg).
  - done.
  - eauto.
  - by rewrite Hf.
  - rewrite Hf. destruct Ha as [-> | ->]; cbn; lia.
  - exists old. split; [done|]. unfold getFrameAlloc in Hg. rewrite Hf in Hg.
    rewrite Hf0. split; [by eapply list_elem_of_lookup_2|].
    unfold arena.
    destruct Ha as [Ha | Ha]; rewrite Ha in Hg; injection Hg as <-;
      rewrite ?H0, ?H1; eauto.
Qed.

Lemma active_frame_index_in_bounds_witness :
  ∃ s0 s,
    0 ≠ 1 ∧ CoreThread_ctor multiThreaded 0 1 4 = Ok s0 ∧
    steps multiThreaded s0 s ∧
    getFrameAlloc s = Some 1 ∧
    (mActiveFrameAlloc (self s0) = 0%Z ∧
     (mActiveFrameAlloc (self s) = 0%Z ∨ mActiveFrameAlloc (self s) = 1%Z) ∧
     (∃ s', update s = Some s' ∧
        mActiveFrameAlloc (self s') = ((mActiveFrameAlloc (self s) + 1) `mod` 2)%Z) ∧
     length (mFrameAllocs (self s)) = 2 ∧
     Z.to_nat (mActiveFrameAlloc (self s)) < length (mFrameAllocs (self s)) ∧
     ∃ p, getFrameAlloc s = Some p ∧ p ∈ mFrameAllocs (self s0) ∧
          is_Some (arena s p)).
Proof.
  eexists _, _. split; [lia|]. split; [reflexivity|].
  assert (Hs : ∀ s0 s, run multiThreaded frames_schedule s0 = Some s →
                       steps multiThreaded s0 s) by apply steps_run.
  split; [apply Hs; vm_compute; reflexivity|].
  split; [reflexivity|].
  apply (active_frame_index_in_bounds multiThreaded 0 1 4);
    [lia | reflexivity | apply Hs; vm_compute; reflexivity].
Defined.

(** * Thread-affinity guards *)

(** C6 (as amended): in a build without
    [CM_FORCE_SINGLETHREADED_RENDERING], [throwIfNotCoreThread] called from a
    thread other than the recorded core thread and [throwIfCoreThread] called
    from the recorded core thread raise [InternalErrorException], and the
    opposite calls return normally; in a build with
    [CM_FORCE_SINGLETHREADED_RENDERING] both guards are compiled out and
    return normally on every thread. *)
Theorem guards_throw_when_multithreaded cfg t s :
  (CM_FORCE_SINGLETHREADED_RENDERING cfg = false →
   (t ≠ mCoreThreadId (self s) →
    throwIfNotCoreThread cfg t s =
      Throw (InternalErrorException
               "This method can only be accessed from the core thread.") ∧
    throwIfCoreThread cfg t s = Ok ()) ∧
   (t = mCoreThreadId (self s) →
    throwIfCoreThread cfg t s =
      Throw (InternalErrorException
               "This method cannot be accessed from the core thread.") ∧
    throwIfNotCoreThread cfg t s = Ok ())) ∧
  (CM_FORCE_SINGLETHREADED_RENDERING cfg = true →
   throwIfNotCoreThread cfg t s = Ok () ∧ throwIfCoreThread cfg t s = Ok ()).
Proof.
  unfold throwIfNotCoreThread, throwIfCoreThread.
  split; intros Hcfg; rewrite Hcfg; [|done].
  split; intros Ht; repeat case_decide; done.
Qed.

Lemma guards_throw_when_multithreaded_witness :
  ∃ s0 s1,
    CoreThread_ctor multiThreaded 0 1 4 = Ok s0 ∧
    CM_FORCE_SINGLETHREADED_RENDERING multiThreaded = false ∧
    mCoreThreadId (self s0) = 0 ∧
    throwIfNotCoreThread multiThreaded 5 s0 =
      Throw (InternalErrorException
               "This method can only be accessed from the core thread.") ∧
    throwIfCoreThread multiThreaded 0 s0 =
      Throw (InternalErrorException
               "This method cannot be accessed from the core thread.") ∧
    CoreThread_ctor singleThreaded 0 1 4 = Ok s1 ∧
    CM_FORCE_SINGLETHREADED_RENDERING singleThreaded = true ∧
    throwIfNotCoreThread singleThreaded 5 s1 = Ok () ∧
    throwIfCoreThread singleThreaded 0 s1 = Ok ().
Proof.
  eexists _, _. split; [reflexivity|]. split; [reflexivity|]. split; [reflexivity|].
  match goal with
  | |- throwIfNotCoreThread _ _ ?s = _ ∧ _ =>
      pose proof (proj1 (guards_throw_when_multithreaded multiThreaded 5 s) eq_refl)
        as [H5 _];
      pose proof (proj1 (guards_throw_when_multithreaded multiThreaded 0 s) eq_refl)
        as [_ H0]
  end.
  split; [apply H5; cbn; lia|]. split; [apply H0; reflexivity|].
  split; [reflexivity|]. split; [reflexivity|].
  match goal with
  | |- throwIfNotCoreThread _ _ ?s = _ ∧ _ =>
      pose proof (proj2 (guards_throw_when_multithreaded singleThreaded 5 s) eq_refl)
        as [H5' _];
      pose proof (proj2 (guards_throw_when_multithreaded singleThreaded 0 s) eq_refl)
        as [_ H0']
  end.
  by split.
Defined.

(** C6 (as stated) fails: in a build with
    [CM_FORCE_SINGLETHREADED_RENDERING] both guards are compiled out.
    [throwIfNotCoreThread] called from a thread other than the recorded core
    thread returns normally, and so does [throwIfCoreThread] called from
    the recorded core thread. *)
Lemma guards_always_throw_counterexample :
  ∃ s0,
    CoreThread_ctor singleThreaded 0 1 4 = Ok s0 ∧
    mCoreThreadId (self s0) = 0 ∧
    throwIfNotCoreThread singleThreaded 5 s0 = Ok () ∧
    throwIfCoreThread singleThreaded 0 s0 = Ok () ∧
    ¬ guards_always_throw singleThreaded.
Proof.
  eexists. split; [reflexivity|]. split; [reflexivity|].
  split; [reflexivity|]. split; [reflexivity|].
  intros H.
  destruct (CoreThread_ctor singleThreaded 0 1 4) as [s0|] eqn:Hc; [|done].
  destruct (H 0 s0) as [_ H0]. destruct (H 5 s0) as [H5 _].
  apply ctor_inv in Hc as [-> _].
  destruct H0 as [msg Hmsg]; [reflexivity|]. discriminate Hmsg.
Qed.

(** * Submission from the core thread *)

(** C3: when [queueCommand] or [queueReturnCommand] is called from the
    thread recorded as the core thread, the callback runs at once on the
    calling thread and the call is over: the command queue, the notify-id
    counter and every other member are unchanged, no thread is left inside
    the call and the core thread is not woken. *)
Theorem core_thread_call_runs_immediately t cb b s s' :
  t = mCoreThreadId (self s) →
  s' = queueCommand t cb b s ∨ s' = queueReturnCommand t cb b s →
  (∃ call, cCallback call = cb ∧ cBlock call = b ∧
           trace s' = trace s ++ [EvImmediate t call]) ∧
  mCommandQueue (self s') = mCommandQueue (self s) ∧
  mMaxCommandNotifyId (self s') = mMaxCommandNotifyId (self s) ∧
  self s' = self s ∧
  pcs s' = pcs s ∧ pcOf s' t = pcOf s t ∧
  corePc s' = corePc s ∧
  mMaxActiveTasks s' = mMaxActiveTasks s ∧ heap s' = heap s.
Proof.
  intros Ht Hs'. unfold queueCommand, queueReturnCommand, submit in Hs'.
  rewrite !decide_True in Hs' by done.
  destruct Hs' as [-> | ->]; unfold pcOf; sys_simpl;
    (split_and!; [eexists; split_and!; [| |reflexivity]|..]; done).
Qed.

Lemma core_thread_call_runs_immediately_witness :
  ∃ s0,
    CoreThread_ctor multiThreaded 0 1 4 = Ok s0 ∧
    0 = mCoreThreadId (self s0) ∧
    trace (queueCommand 0 7 true s0) =
      [EvImmediate 0 {| cReturn := false; cCallback := 7; cBlock := true |}] ∧
    mCommandQueue (self (queueCommand 0 7 true s0)) = [] ∧
    pcOf (queueCommand 0 7 true s0) 0 = Idle.
Proof.
  eexists. split; [reflexivity|]. split; [reflexivity|].
  match goal with
  | |- trace (queueCommand 0 7 true ?s) = _ ∧ _ =>
      pose proof (core_thread_call_runs_immediately 0 7 true s _
                    eq_refl (or_introl eq_refl))
        as (_ & Hq & _ & _ & _ & Hpc & _)
  end.
  split; [reflexivity|]. split; [exact Hq | exact Hpc].
Defined.

(** * Accessors *)

Lemma getAccessor_preserves t s a s1 :
  heap_inv s → acc_inv s → getAccessor t s = Some (a, s1) →
  heap_inv s1 ∧ acc_inv s1.
Proof.
  intros Hh Ha [(Hnone & -> & ->)|(c & Hc & Hd & ->)]%getAccessor_Some; [|done].
  destruct Hh as [Hf Hact [b0 H0] [b1 H1] Hn Hb Hsy].
  destruct Ha as [Hnd Htls Hreg Hsyn].
  assert (Htls' : ∀ t c, mAccessor s !! t = Some c →
    c ∈ mAccessors (self s) ∧ c < heapNext s ∧
    ∃ a, a < heapNext s ∧ heap s !! c = Some (OAccessorContainer a) ∧
         heap s !! a = Some (OCoreThreadAccessor false t)).
  { intros t' c (Hin & a & Hc & Ha')%Htls. split_and!; [done|apply Hb; eauto|].
    exists a. split_and!; [apply Hb; eauto|done|done]. }
  split; split; sys_simpl; try done.
  - rewrite !lookup_insert_ne by lia. eauto.
  - rewrite !lookup_insert_ne by lia. eauto.
  - lia.
  - intros p. rewrite !lookup_insert. repeat case_decide; subst; try lia.
    intros ?%Hb. lia.
  - intros p Hp. specialize (Hsy _ Hp). lia.
  - apply NoDup_app. split_and!; [done| |apply NoDup_singleton].
    intros c [t0 Hc]%Hreg ->%list_elem_of_singleton.
    apply Htls' in Hc. lia.
  - intros t0 c [[-> <-]|[Hne Hc]]%lookup_insert_Some.
    + split; [apply elem_of_app; right; by apply list_elem_of_singleton|].
      exists (heapNext s).
      rewrite lookup_insert_eq, lookup_insert_ne by lia.
      by rewrite lookup_insert_eq.
    + destruct (Htls' _ _ Hc) as (Hin & Hlt & a & Hlt' & Hc1 & Ha1).
      split; [apply elem_of_app; by left|].
      exists a. by rewrite !lookup_insert_ne by lia.
  - intros c [Hc| ->%list_elem_of_singleton]%elem_of_app.
    + destruct (Hreg _ Hc) as [t0 Ht0]. exists t0.
      rewrite lookup_insert_ne; [done|congruence].
    + exists t. by rewrite lookup_insert_eq.
  - intros p o Hp. specialize (Hsy _ Hp).
    rewrite !lookup_insert_ne by lia. by apply Hsyn.
Qed.

(** The registry holds live accessors only, so [submitAccessors] finds an
    object behind each of them. *)
Lemma registry_calls s accs :
  acc_inv s →
  mapM (deref_container s) (mAccessors (self s)) = Some accs →
  mapM (λ c, deref_container s c ≫= deref_accessor s) (mAccessors (self s)) =
    Some accs.
Proof.
  intros [_ Htls Hreg _] Hm.
  assert (Hlive : ∀ c a, c ∈ mAccessors (self s) → deref_container s c = Some a →
                         deref_accessor s a = Some a).
  { intros c a [t Ht]%Hreg Hd. destruct (Htls _ _ Ht) as (_ & a' & Hc & Ha).
    unfold deref_container in Hd. rewrite Hc in Hd. injection Hd as <-.
    unfold deref_accessor. by rewrite Ha. }
  apply mapM_Some in Hm. apply mapM_Some.
  revert Hm Hlive. generalize (mAccessors (self s)) as l. intros l Hm.
  induction Hm as [|c a l accs Hc Hrest IH]; intros Hlive; constructor.
  - rewrite Hc. cbn. apply (Hlive c); [by left|done].
  - apply IH. intros c' a' Hin. apply Hlive. by right.
Qed.

(** C9 (as amended): in the lifetime of the first [CoreThread] of a
    process, [getAccessor] creates lazily and is idempotent per thread.  A
    first call on a thread makes a new accessor, caches its container in
    the thread-local slot and appends that container once to the registry;
    a call on a thread that has one changes nothing; every later call of
    the thread, whatever happened in between, returns the same accessor;
    the registry holds exactly one accessor per thread that has called
    [getAccessor], each thread its own; and while the synced accessor
    exists [submitAccessors] goes through these accessors, in the order of
    the registry, and then through the synced one. *)
Theorem getAccessor_lazy_idempotent cfg M K W s t :
  reachable cfg M K W s →
  ∃ a s1, getAccessor t s = Some (a, s1) ∧
    (mAccessor s !! t = None →
       heap s !! a = None ∧
       ∃ c, (c ∉ mAccessors (self s)) ∧
            mAccessors (self s1) = mAccessors (self s) ++ [c] ∧
            mAccessor s1 !! t = Some c ∧ deref_container s1 c = Some a) ∧
    (is_Some (mAccessor s !! t) → s1 = s) ∧
    ∀ s2, steps cfg s1 s2 →
      getAccessor t s2 = Some (a, s2) ∧
      ∃ accs, mapM (deref_container s2) (mAccessors (self s2)) = Some accs ∧
        NoDup accs ∧ a ∈ accs ∧
        (∀ a', a' ∈ accs ↔
           ∃ t' c', mAccessor s2 !! t' = Some c' ∧
                    deref_container s2 c' = Some a') ∧
        (∀ t1 t2 c1 c2 a', mAccessor s2 !! t1 = Some c1 →
           mAccessor s2 !! t2 = Some c2 → deref_container s2 c1 = Some a' →
           deref_container s2 c2 = Some a' → t1 = t2) ∧
        (∀ synced block, mSyncedCoreAccessor (self s2) = Some synced →
           is_Some (heap s2 !! synced) →
           submitAccessors block s2 =
             Some ((λ a, (a, block)) <$> (accs ++ [synced]))).
Proof.
  intros Hr.
  pose proof (heap_inv_reachable _ _ _ _ _ Hr) as Hh.
  pose proof (acc_inv_reachable _ _ _ _ _ Hr) as Ha.
  assert (∃ a s1, getAccessor t s = Some (a, s1)) as (a & s1 & Hg).
  { unfold getAccessor, cm_new. cbv beta iota zeta.
    destruct (mAccessor s !! t) as [c|] eqn:Hc.
    - rewrite Hc. cbn [mbind option_bind].
      destruct Ha as [_ Htls _ _]. destruct (Htls _ _ Hc) as (_ & a & Hca & _).
      unfold deref_container. rewrite Hca. cbn [mbind option_bind]. eauto.
    - sys_simpl. rewrite lookup_insert_eq. cbn [mbind option_bind].
      unfold deref_container. sys_simpl. rewrite lookup_insert_eq.
      cbn [mbind option_bind]. eauto. }
  exists a, s1. split; [done|].
  destruct (getAccessor_preserves _ _ _ _ Hh Ha Hg) as [Hh1 Ha1].
  assert (Hcached : ∃ c, mAccessor s1 !! t = Some c ∧ deref_container s1 c = Some a).
  { apply getAccessor_Some in Hg as [(Hnone & -> & ->)|(c & Hc & Hd & ->)]; [|eauto].
    exists (S (heapNext s)). sys_simpl. unfold deref_container. sys_simpl.
    by rewrite !lookup_insert_eq. }
  split_and!.
  - intros Hnone.
    apply getAccessor_Some in Hg as [(_ & -> & ->)|(c & Hc & _)]; [|congruence].
    destruct Hh as [_ _ _ _ _ Hb _]. split.
    { apply eq_None_not_Some. intros ?%Hb. lia. }
    exists (S (heapNext s)). sys_simpl. unfold deref_container. sys_simpl.
    rewrite !lookup_insert_eq. split_and!; try done.
    destruct Ha as [_ Htls Hreg _]. intros [t0 Ht0]%Hreg.
    destruct (Htls _ _ Ht0) as (_ & a0 & Hc0 & _).
    assert (S (heapNext s) < heapNext s) by (apply Hb; eauto). lia.
  - intros [c Hc].
    apply getAccessor_Some in Hg as [(Hnone & _)|(_ & _ & _ & ->)]; [congruence|done].
  - intros s2 Hs2. destruct Hcached as (c & Hc & Hd).
    destruct (tls_stable_steps _ _ _ _ _ _ Hh1 Ha1 Hs2 Hc Hd) as [Hc2 Hd2].
    destruct (heap_inv_steps _ _ _ Hh1 Ha1 Hs2) as [Hh2 Ha2].
    split; [by eapply getAccessor_cached|].
    destruct (registry_accessors _ Ha2) as (accs & Hm & Hnd & _ & Hiff).
    exists accs. split_and!; [done|done|apply Hiff; eauto|done| |].
    + intros t1 t2 c1 c2 a' Ht1 Ht2 Hd1 Hd2'.
      destruct Ha2 as [_ Htls _ _].
      destruct (Htls _ _ Ht1) as (_ & a1 & Hc1 & Ha1').
      destruct (Htls _ _ Ht2) as (_ & a2 & Hc2' & Ha2').
      unfold deref_container in Hd1, Hd2'. rewrite Hc1 in Hd1. rewrite Hc2' in Hd2'.
      injection Hd1 as ->. injection Hd2' as ->. congruence.
    + intros synced block Hsy [o Ho]. unfold submitAccessors.
      rewrite (registry_calls _ _ Ha2 Hm), Hsy. cbn [mbind option_bind].
      destruct Ha2 as [_ _ _ Hsyn]. destruct (Hsyn _ _ Hsy Ho) as [k ->].
      unfold deref_accessor. rewrite Ho. done.
Qed.

Lemma getAccessor_lazy_idempotent_witness :
  ∃ s0 s,
    CoreThread_ctor multiThreaded 0 1 4 = Ok s0 ∧
    run multiThreaded [CallGetAccessor 5; CallUpdate 0] s0 = Some s ∧
    mAccessors (self s) = [3] ∧
    getAccessor 5 s = Some (2, s) ∧
    (fst <$> getAccessor 6 s) = Some 4.
Proof.
  eexists _, _. split; [reflexivity|]. split; [vm_compute; reflexivity|].
  split; [reflexivity|].
  match goal with
  | |- getAccessor 5 ?s0 = _ ∧ _ =>
      set (s := s0);
      assert (Hr : reachable multiThreaded 0 1 4 s)
        by (eapply (reachable_run multiThreaded 0 1 4 _
                      [CallGetAccessor 5; CallUpdate 0]);
            [lia | reflexivity | vm_compute; reflexivity]);
      destruct (getAccessor_lazy_idempotent multiThreaded 0 1 4 s 5 Hr)
        as (a & s1 & Hg & _ & Hsame & _);
      destruct (getAccessor_lazy_idempotent multiThreaded 0 1 4 s 6 Hr)
        as (a' & s1' & Hg' & _)
  end.
  assert (Heq : s1 = s) by (apply Hsame; vm_compute; eauto).
  rewrite Heq in Hg. split.
  - rewrite Hg. f_equal. f_equal. vm_compute in Hg. by injection Hg.
  - vm_compute. reflexivity.
Defined.

(** C9 (as stated) fails.  The thread-local slot is a static that nothing
    resets: once a [CoreThread] has been destroyed, with its containers
    deleted, a thread that had an accessor makes its first call of
    [getAccessor] on the next [CoreThread] with a slot that is not null,
    and reads through the deleted container instead of creating and
    registering an accessor.  And [submitAccessors] goes through
    [mSyncedCoreAccessor], so it cannot flush the registered accessors
    before the core thread has created the synced accessor nor after it has
    deleted it. *)
Lemma getAccessor_lazy_counterexample :
  (∃ s0 s1 p s2,
     CoreThread_ctor multiThreaded 0 1 4 = Ok s0 ∧
     run multiThreaded [Core; Core; CallGetAccessor 5] s0 = Some s1 ∧
     CoreThread_dtor multiThreaded 0 s1 = Some p ∧
     CoreThread_ctor_in multiThreaded 0 1 p = Ok s2 ∧
     mAccessors (self s2) = [] ∧ ¬ creates_on_first_call s2) ∧
  (∃ s0 s,
     CoreThread_ctor multiThreaded 0 1 4 = Ok s0 ∧
     run multiThreaded [CallGetAccessor 5] s0 = Some s ∧
     is_Some (mAccessor s !! 5) ∧ ¬ flushes_every_accessor s) ∧
  (∃ s0 s,
     CoreThread_ctor multiThreaded 0 1 4 = Ok s0 ∧
     run multiThreaded
       (CallGetAccessor 5 :: shutdown_schedule_queued ++ shutdown_schedule_drain)
       s0 = Some s ∧
     is_Some (mAccessor s !! 5) ∧ corePc s = CDone ∧ ¬ flushes_every_accessor s).
Proof.
  split_and!.
  - eexists _, _, _, _. split; [reflexivity|].
    split; [vm_compute; reflexivity|]. split; [vm_compute; reflexivity|].
    split; [vm_compute; reflexivity|]. split; [reflexivity|].
    intros H. destruct (H 5) as (a & s' & Hg & _).
    + intros c _ Hin. by apply elem_of_nil in Hin.
    + vm_compute in Hg. discriminate Hg.
  - eexists _, _. split; [reflexivity|]. split; [vm_compute; reflexivity|].
    split; [vm_compute; eauto|].
    intros H. destruct (H true) as (calls & Hs & _).
    vm_compute in Hs. discriminate Hs.
  - eexists _, _. split; [reflexivity|]. split; [vm_compute; reflexivity|].
    split; [vm_compute; eauto|]. split; [reflexivity|].
    intros H. destruct (H true) as (calls & Hs & _).
    vm_compute in Hs. discriminate Hs.
Qed.

(** ** The core thread's identity *)

Lemma core_inv_reachable cfg M K W s :
  reachable cfg M K W s → core_inv cfg K s.
Proof.
  revert s. apply reachable_ind'.
  - intros s0 _ [-> _]%ctor_inv.
    destruct (CM_FORCE_SINGLETHREADED_RENDERING cfg) eqn:Hcfg; sys_simpl;
      split; sys_simpl; rewrite ?Hcfg; try done.
  - intros s l s' _ [Htid Hnone Hidle] Hl.
    step_cases Hl.
    all: split; sys_simpl; try done; try congruence.
    all: try (intros k Hk; rewrite ?pc_insert, ?pc_wake;
              try case_decide; subst; try done; try congruence;
              rewrite Hidle by congruence; done).
    all: try (intros Hf; specialize (Hnone Hf); try rewrite Hnone; try done; congruence).
    all: try (intros; rewrite Hnone by (done || congruence); done).
    all: try (intros k Hk; rewrite pc_insert; case_decide; subst; [|by apply Hidle];
              rewrite Hidle in * by done; done).
    all: match goal with
         | H : CM_FORCE_SINGLETHREADED_RENDERING _ = _ |- _ => by rewrite H
         end.
Qed.

(** ** Mutual exclusion *)

Lemma holdsQueueMutex_wake pc : holdsQueueMutex (wakeProd pc) = holdsQueueMutex pc.
Proof. by destruct pc. Qed.

Lemma holdsNotifyMutex_wake pc : holdsNotifyMutex (wakeProd pc) = holdsNotifyMutex pc.
Proof. by destruct pc. Qed.

Lemma coreHoldsQueueMutex_wake pc :
  coreHoldsQueueMutex (wakeCore pc) = coreHoldsQueueMutex pc.
Proof. by destruct pc. Qed.

Lemma coreHoldsNotifyMutex_wake pc :
  coreHoldsNotifyMutex (wakeCore pc) = coreHoldsNotifyMutex pc.
Proof. by destruct pc. Qed.

Lemma mutex_inv_reachable cfg M K W s :
  reachable cfg M K W s → mutex_inv s.
Proof.
  revert s. apply reachable_ind'.
  - intros s0 _ [-> _]%ctor_inv.
    destruct (CM_FORCE_SINGLETHREADED_RENDERING cfg) eqn:Hcfg; sys_simpl;
      split; sys_simpl; try done.
  - intros s l s' Hr [Hq Hqc Hn Hnc] Hl.
    apply core_inv_reachable in Hr as [Htid Hnone Hidle].
    assert (Hrun : corePc s ≠ CNone → coreTid s = Some K).
    { destruct (CM_FORCE_SINGLETHREADED_RENDERING cfg); [|done].
      intros []. by apply Hnone. }
    clear Htid Hnone.
    step_cases Hl.
    all: repeat match goal with
         | H : default Idle (pcs _ !! ?t) = _ |- _ =>
             lazymatch goal with
             | _ : holdsQueueMutex (default Idle (pcs _ !! t)) = true → _ |- _ => fail
             | _ => pose proof (Hq t) as ?; pose proof (Hn t) as ?
             end
         end.
    all: repeat match goal with
         | H : default Idle (pcs _ !! ?t) = _ |- _ => rewrite H in *
         | H : corePc _ = _ |- _ => rewrite H in *
         end.
    all: cbn [holdsQueueMutex holdsNotifyMutex coreHoldsQueueMutex
              coreHoldsNotifyMutex] in *.
    all: repeat match goal with
         | H : true = true → _ |- _ => specialize (H eq_refl)
         | H : ?pc ≠ CNone → _ |- _ =>
             lazymatch pc with
             | corePc _ => fail
             | _ => first [ specialize (H ltac:(discriminate)) | clear H ]
             end
         end.
    all: split; sys_simpl;
      rewrite ?coreHoldsQueueMutex_wake, ?coreHoldsNotifyMutex_wake;
      try done; try congruence.
    all: try (intros t' Ht'; rewrite ?pc_insert, ?pc_wake in Ht';
              rewrite ?holdsQueueMutex_wake, ?holdsNotifyMutex_wake in Ht';
              try case_decide; subst; try done;
              first [ specialize (Hq _ Ht') | specialize (Hn _ Ht') ];
              try congruence;
              match goal with
              | Hk : coreTid _ = Some ?k |- _ =>
                  assert (t' = k) as -> by congruence;
                  rewrite (Hidle k) in Ht' by congruence; done
              end).
    (* a producer takes or gives back a mutex the core thread cannot hold *)
    all: intros Hc;
      assert (Hne : corePc s ≠ CNone) by (intros E; rewrite E in Hc; done);
      specialize (Hrun Hne);
      first [ specialize (Hqc Hc) | specialize (Hnc Hc) ]; try congruence;
      match goal with
      | H : default Idle (pcs _ !! ?t) = _ |- _ =>
          rewrite (Hidle t) in H by congruence; done
      end.
Qed.

(** ** First in, first out *)

Lemma batch_wake pc : batch (wakeCore pc) = batch pc.
Proof. by destruct pc. Qed.

Lemma inflight_wake pc : inflight (wakeCore pc) = inflight pc.
Proof. by destruct pc. Qed.

Ltac trace_simpl :=
  unfold allocated, ids, enqueued, played in *; sys_simpl;
  rewrite ?omap_app in *;
  cbn [omap list_omap queuedOf invokedOf notifyId queued] in *;
  rewrite ?batch_wake, ?inflight_wake in *;
  repeat match goal with
  | H : corePc _ = _ |- _ => rewrite H in *
  end;
  cbn [batch inflight] in *;
  rewrite ?app_nil_r in *.

(** Every command ever queued is, in the order of queueing, either already
    played, or in the batch the core thread is playing, or still queued. *)
Lemma fifo_inv_reachable cfg M K W s :
  reachable cfg M K W s →
  enqueued s = played s ++ batch (corePc s) ++ mCommandQueue (self s).
Proof.
  revert s. apply reachable_ind'.
  - intros s0 _ [-> _]%ctor_inv.
    by destruct (CM_FORCE_SINGLETHREADED_RENDERING cfg).
  - intros s l s' Hr IH Hl.
    step_cases Hl; trace_simpl; try done.
    all: rewrite IH, <- ?(assoc_L (++)); try done.
Qed.

(** ** Notify-ids *)

Lemma nth_id_succ k : to_UINT32 (nth_id k + 1) = nth_id (S k).
Proof.
  unfold nth_id, to_UINT32. rewrite Nat2Z.inj_succ.
  by rewrite Zplus_mod_idemp_l.
Qed.

Lemma nth_id_small k : (Z.of_nat k < UINT32_modulus)%Z → nth_id k = Z.of_nat k.
Proof. intros Hk. unfold nth_id, to_UINT32. apply Z.mod_small. lia. Qed.

(** The notify-ids of the queued commands are, in order, the successive
    values of the counter, which stands at the next one. *)
Lemma ids_inv_reachable cfg M K W s :
  reachable cfg M K W s →
  ids (enqueued s) = nth_id <$> seq 0 (allocated s) ∧
  mMaxCommandNotifyId (self s) = nth_id (allocated s).
Proof.
  revert s. apply reachable_ind'.
  - intros s0 _ [-> _]%ctor_inv.
    by destruct (CM_FORCE_SINGLETHREADED_RENDERING cfg).
  - intros s l s' Hr [IH1 IH2] Hl.
    step_cases Hl; trace_simpl; try done.
    rewrite length_app, Nat.add_1_r, seq_S, fmap_app. cbn [length].
    cbn [fmap list_fmap Nat.add]. rewrite <- IH1, IH2, nth_id_succ. done.
Qed.

(** ** Pending calls *)

Lemma pending_wake pc : pending (wakeProd pc) = pending pc.
Proof. by destruct pc. Qed.

Lemma blockedOn_wake pc : blockedOn (wakeProd pc) = blockedOn pc.
Proof. by destruct pc. Qed.

Lemma pending_inv_reachable cfg M K W s :
  reachable cfg M K W s → pending_inv cfg s.
Proof.
  revert s. apply reachable_ind'.
  - intros s0 _ [-> _]%ctor_inv.
    destruct (CM_FORCE_SINGLETHREADED_RENDERING cfg) eqn:Hcfg; sys_simpl;
      split; sys_simpl; try done.
  - intros s l s' Hr [Hq Hb] Hl.
    step_cases Hl.
    all: repeat match goal with
         | H : default Idle (pcs _ !! ?t) = _ |- _ =>
             lazymatch goal with
             | _ : ∀ q, pending (default Idle (pcs _ !! t)) = Some q → _ |- _ => fail
             | _ => pose proof (Hq t) as ?; pose proof (Hb t) as ?
             end
         end.
    all: repeat match goal with
         | H : default Idle (pcs _ !! ?t) = _ |- _ => rewrite H in *
         end.
    all: cbn [pending blockedOn] in *.
    all: split; trace_simpl.
    all: try (intros t' q' Ht'; rewrite ?pc_insert, ?pc_wake, ?pending_wake in Ht';
              try case_decide; subst; cbn [pending] in Ht'; try done;
              rewrite ?elem_of_app;
              first [ by eauto
                    | left; by eauto
                    | right; injection Ht' as <-; unfold commandOf;
                      match goal with H : cBlock _ = _ |- _ => rewrite H end;
                      by apply list_elem_of_singleton ]).
    all: try (intros t' call' id' Ht';
              rewrite ?pc_insert, ?pc_wake, ?blockedOn_wake in Ht';
              try case_decide; subst; cbn [blockedOn] in Ht'; try done;
              first [ by eauto
                    | injection Ht' as <- <-; by eauto
                    | injection Ht' as <- <-; split; congruence
                    | edestruct Hb as [? ?]; [eassumption|]; split; congruence ]).
Qed.

(** ** Completions *)

Lemma findCompleted_Some id completed iter :
  findCompleted id completed = Some iter →
  completed !! iter = Some id ∧
  ∀ j x, completed !! j = Some x → j < iter → x ≠ id.
Proof.
  unfold findCompleted. destruct (list_find _ completed) as [[i x]|] eqn:Hf; [|done].
  cbn. intros [= <-]. apply list_find_Some in Hf as (Hi & -> & Hlt). eauto.
Qed.

Lemma findCompleted_None id completed :
  findCompleted id completed = None → id ∉ completed.
Proof.
  unfold findCompleted. destruct (list_find _ completed) as [[i x]|] eqn:Hf; [done|].
  intros _ Hin. apply list_find_None in Hf.
  rewrite Forall_forall in Hf. by apply (Hf id).
Qed.

(** The recorded completions, with the one being recorded, are among the
    notify-ids of the played commands, each used at most as often. *)
Lemma completed_inv_reachable cfg M K W s :
  reachable cfg M K W s →
  mCommandsCompleted (self s) ++ inflight (corePc s) ⊆+ ids (played s).
Proof.
  revert s. apply reachable_ind'.
  - intros s0 _ [-> _]%ctor_inv.
    by destruct (CM_FORCE_SINGLETHREADED_RENDERING cfg).
  - intros s l s' Hr IH Hl.
    step_cases Hl; trace_simpl; try done.
    + etrans; [|exact IH]. apply submseteq_skips_r, sublist_submseteq, sublist_delete.
    + match goal with H : notifyId _ = _ |- _ => rewrite H end.
      by apply submseteq_skips_r.
    + match goal with H : notifyId _ = _ |- _ => rewrite H end.
      by rewrite app_nil_r.
Qed.

Lemma invoker_inv_reachable cfg M K W s :
  reachable cfg M K W s →
  ∀ t q, EvInvoke t q ∈ trace s → coreTid s = Some t.
Proof.
  revert s.
  apply (reachable_ind' cfg M K W
           (λ s, ∀ t q, EvInvoke t q ∈ trace s → coreTid s = Some t)).
  - intros s0 _ [-> _]%ctor_inv.
    destruct (CM_FORCE_SINGLETHREADED_RENDERING cfg); sys_simpl;
      by intros ?? ?%elem_of_nil.
  - intros s l s' Hr IH Hl.
    step_cases Hl; try done.
    all: try (intros t' q' Hin; specialize (IH _ _ Hin); congruence).
    all: intros t' q' [Hin|Hin%list_elem_of_singleton]%elem_of_app;
      first [ congruence | specialize (IH _ _ Hin); congruence ].
Qed.

(** ** Leaving the loop *)

Lemma exit_inv_reachable cfg M K W s :
  reachable cfg M K W s →
  corePc s = CExit →
  mCommandQueue (self s) = [] ∧ mCoreThreadShutdown (self s) = true.
Proof.
  revert s.
  apply (reachable_ind' cfg M K W
           (λ s, corePc s = CExit →
                 mCommandQueue (self s) = [] ∧ mCoreThreadShutdown (self s) = true)).
  - intros s0 _ [-> _]%ctor_inv.
    by destruct (CM_FORCE_SINGLETHREADED_RENDERING cfg).
  - intros s l s' Hr IH Hl.
    pose proof (mutex_inv_reachable _ _ _ _ _ Hr) as [Hq Hqc _ _].
    pose proof (core_inv_reachable _ _ _ _ _ Hr) as [_ _ Hidle].
    assert (Hwake : wakeCore (corePc s) = CExit → corePc s = CExit)
      by by destruct (corePc s).
    step_cases Hl; try done.
    all: try (intros ?%Hwake; by apply IH).
    all: try (intros Hc; destruct (IH Hc); by split).
    all: try (intros _; split; [|done];
              match goal with
              | H : isEmpty ?q = true |- _ => by destruct q
              end).
    (* nobody queues while the core thread holds the queue mutex *)
    all: intros Hc; rewrite Hc in Hqc; specialize (Hqc eq_refl);
      match goal with
      | H : default Idle (pcs _ !! ?t) = _ |- _ =>
          specialize (Hq t); rewrite H in Hq; specialize (Hq eq_refl);
          rewrite (Hidle t) in H by congruence; done
      end.
Qed.

(** ** Worker slots *)

Lemma reserved_wake pc : reserved (wakeCore pc) = reserved pc.
Proof. by destruct pc. Qed.

Lemma workers_inv_reachable cfg M K W s :
  reachable cfg M K W s →
  mMaxActiveTasks s = (W - reserved (corePc s))%Z.
Proof.
  revert s. apply reachable_ind'.
  - intros s0 _ [-> _]%ctor_inv.
    destruct (CM_FORCE_SINGLETHREADED_RENDERING cfg); sys_simpl;
      cbn [reserved]; lia.
  - intros s l s' Hr IH Hl.
    step_cases Hl; rewrite ?reserved_wake; try done.
    all: repeat match goal with
         | H : corePc _ = _ |- _ => rewrite H in *
         end; cbn [reserved] in *; lia.
Qed.

(** ** Lists *)

Lemma snoc_eq_split {A} (l pre post : list A) e x :
  l ++ [e] = pre ++ x :: post →
  (post = [] ∧ pre = l ∧ x = e) ∨
  ∃ post', post = post' ++ [e] ∧ l = pre ++ x :: post'.
Proof.
  destruct post as [|y post' _] using rev_ind.
  - intros [-> ->]%app_inj_tail. by left.
  - rewrite app_comm_cons, (assoc_L (++)).
    intros [-> ->]%app_inj_tail. right. eauto.
Qed.

Lemma ids_app qs1 qs2 : ids (qs1 ++ qs2) = ids qs1 ++ ids qs2.
Proof. apply omap_app. Qed.

Lemma elem_of_ids q i qs : q ∈ qs → notifyId q = Some i → i ∈ ids qs.
Proof. intros Hq Hi. unfold ids. apply list_elem_of_omap. eauto. Qed.

(** A command queued with a notify-id no other queued command carries has
    been played as soon as that notify-id shows among the played ones. *)
Lemma unique_id_played (enq pl rest : list QueuedCommand) q i :
  enq = pl ++ rest → NoDup (ids enq) → q ∈ enq →
  notifyId q = Some i → i ∈ ids pl → q ∈ pl.
Proof.
  intros -> Hnd [Hq|Hq]%elem_of_app Hi Hpl; [done|].
  rewrite ids_app in Hnd. apply NoDup_app in Hnd as (_ & Hdisj & _).
  destruct (Hdisj _ Hpl). by eapply elem_of_ids.
Qed.

Lemma nth_id_NoDup n :
  (Z.of_nat n ≤ UINT32_modulus)%Z → NoDup (nth_id <$> seq 0 n).
Proof.
  intros Hn. apply NoDup_fmap_2_strong; [|apply NoDup_seq].
  intros x y [_ Hx]%elem_of_seq [_ Hy]%elem_of_seq.
  rewrite !nth_id_small by lia. lia.
Qed.

Lemma ids_NoDup cfg M K W s :
  reachable cfg M K W s →
  (Z.of_nat (allocated s) ≤ UINT32_modulus)%Z →
  NoDup (ids (enqueued s)).
Proof.
  intros [-> _]%ids_inv_reachable Hn. by apply nth_id_NoDup.
Qed.

(** ** Returning from a blocking call *)

Lemma returned_inv_reachable cfg M K W s :
  CM_FORCE_SINGLETHREADED_RENDERING cfg = false →
  reachable cfg M K W s →
  (Z.of_nat (allocated s) ≤ UINT32_modulus)%Z →
  ∀ pre t q post i,
    trace s = pre ++ EvReturn t q :: post → notifyId q = Some i →
    q ∈ omap invokedOf pre.
Proof.
  intros Hcfg. revert s.
  apply (reachable_ind' cfg M K W
    (λ s, (Z.of_nat (allocated s) ≤ UINT32_modulus)%Z →
          ∀ pre t q post i,
            trace s = pre ++ EvReturn t q :: post → notifyId q = Some i →
            q ∈ omap invokedOf pre)).
  - intros s0 _ [-> _]%ctor_inv. rewrite Hcfg. sys_simpl.
    intros _ pre t q post i Htr. by destruct pre.
  - intros s l s' Hr IH Hl.
    pose proof (fifo_inv_reachable _ _ _ _ _ Hr) as Hfifo.
    pose proof (pending_inv_reachable _ _ _ _ _ Hr) as [Hpq Hpb].
    pose proof (completed_inv_reachable _ _ _ _ _ Hr) as Hcompl.
    pose proof (ids_NoDup _ _ _ _ _ Hr) as Hnd.
    step_cases Hl; try done.
    all: unfold allocated, ids, enqueued in IH |- *; sys_simpl;
      rewrite ?omap_app, ?length_app; cbn [omap list_omap queuedOf notifyId queued length].
    all: try (intros Ha; apply IH; lia).
    all: intros Ha pre t' q' post i [(-> & -> & Heq)|(post' & -> & Htr)]%snoc_eq_split Hid;
      [|eapply IH; [lia|exact Htr|exact Hid]]; try discriminate Heq.
    all: injection Heq as -> ->.
    all: try congruence.
    all: try (unfold commandOf in Hid;
              match goal with H : cBlock _ = false |- _ => rewrite H in Hid end;
              discriminate Hid).
    (* the caller has found its notify-id among the completed ones *)
    match goal with
    | Hpc : default Idle (pcs s !! ?t) = BCheck ?call ?id,
      Hf : findCompleted _ _ = Some ?n |- _ =>
        apply findCompleted_Some in Hf as [Hf _];
        apply list_elem_of_lookup_2 in Hf;
        pose proof (Hpq t (commandOf call id)) as Hq;
        pose proof (Hpb t call id) as Hb;
        rewrite Hpc in Hq, Hb; specialize (Hq eq_refl);
        destruct (Hb eq_refl) as [Hblock _]
    end.
    unfold commandOf in Hid. rewrite Hblock in Hid. injection Hid as <-.
    eapply (unique_id_played _ _ _ _ _ Hfifo);
      [apply Hnd; unfold allocated, ids, enqueued; lia|exact Hq| |].
    + unfold commandOf. by rewrite Hblock.
    + eapply elem_of_submseteq; [|exact Hcompl]. apply elem_of_app. by left.
Qed.

(** * Shutdown *)

Lemma trace_mono cfg l s s' :
  step_fn cfg l s = Some s' → trace s `prefix_of` trace s'.
Proof.
  intros Hl. step_cases Hl; try done.
  all: by apply prefix_app_r.
Qed.

Lemma omap_prefix {A B} (f : A → option B) (l1 l2 : list A) :
  l1 `prefix_of` l2 → omap f l1 `prefix_of` omap f l2.
Proof. intros [k ->]. rewrite omap_app. by apply prefix_app_r. Qed.

Lemma exited_step cfg l s s' :
  step_fn cfg l s = Some s' → corePc s = CDone → corePc s' = CDone.
Proof.
  intros Hl Hd. step_cases Hl; try done; try congruence.
  all: by rewrite Hd.
Qed.

(** What was queued before the core thread left has been played by the
    time it has left. *)
Lemma drained_steps cfg M K W s1 s2 :
  reachable cfg M K W s1 → corePc s1 ≠ CDone → steps cfg s1 s2 →
  if exited (corePc s2) then enqueued s1 `prefix_of` played s2
  else enqueued s1 `prefix_of` enqueued s2.
Proof.
  intros Hr1 Hn Hs.
  cut (reachable cfg M K W s2 ∧
       if exited (corePc s2) then enqueued s1 `prefix_of` played s2
       else enqueued s1 `prefix_of` enqueued s2); [tauto|].
  revert s2 Hs.
  apply (rtc_ind_r (λ s2, reachable cfg M K W s2 ∧
           if exited (corePc s2) then enqueued s1 `prefix_of` played s2
           else enqueued s1 `prefix_of` enqueued s2)).
  - split; [done|]. destruct (corePc s1); cbn [exited]; done.
  - intros s s' _ [l Hl] [Hr IH]. split; [by eapply reachable_step|].
    pose proof (trace_mono _ _ _ _ Hl) as Hmono.
    destruct (exited (corePc s)) eqn:Hex.
    + assert (corePc s = CDone) as Hd by by destruct (corePc s).
      rewrite (exited_step _ _ _ _ Hl Hd). cbn [exited].
      etrans; [exact IH|]. by apply omap_prefix.
    + destruct (exited (corePc s')) eqn:Hex'.
      * assert (enqueued s = played s ∧ played s' = played s) as [He Hp].
        { pose proof (fifo_inv_reachable _ _ _ _ _ Hr) as Hfifo.
          pose proof (exit_inv_reachable _ _ _ _ _ Hr) as Hexit.
          step_cases Hl; trace_simpl; try done; try congruence.
          all: try by destruct (corePc s).
          destruct Hexit as [Hq _]; [done|]. rewrite Hq in Hfifo.
          by rewrite app_nil_r in Hfifo. }
        rewrite Hp, <- He. exact IH.
      * etrans; [exact IH|]. by apply omap_prefix.
Qed.

(** C5: the core thread leaves its loop only from the test of an empty
    queue with the shutdown flag set, when everything ever queued has been
    played; every command that was queued while the core thread was still
    running, those queued at the time of the shutdown request among them, has
    been played, in order, once the core thread has left, and by then the
    core thread has handed its worker slot back with [addWorker]. *)
Theorem shutdown_drains_queue cfg M K W s1 s2 :
  reachable cfg M K W s1 → corePc s1 ≠ CDone →
  steps cfg s1 s2 → corePc s2 = CDone →
  (∀ q, q ∈ mCommandQueue (self s1) → q ∈ played s2) ∧
  enqueued s1 `prefix_of` played s2 ∧
  mCoreThreadShutdown (self s2) = true ∧
  mMaxActiveTasks s2 = W ∧
  (∀ s s', reachable cfg M K W s → step_fn cfg Core s = Some s' →
     corePc s' = CExit →
     corePc s = CTest ∧ mCommandQueue (self s) = [] ∧
     mCoreThreadShutdown (self s) = true ∧ played s = enqueued s) ∧
  (∀ s s', reachable cfg M K W s → step_fn cfg Core s = Some s' →
     corePc s' = CDone →
     corePc s = CExit ∧ mCommandQueue (self s) = [] ∧
     played s = enqueued s ∧
     mMaxActiveTasks s' = (mMaxActiveTasks s + 1)%Z).
Proof.
  intros Hr1 Hn Hs Hd.
  pose proof (drained_steps _ _ _ _ _ _ Hr1 Hn Hs) as Hpre.
  rewrite Hd in Hpre. cbn [exited] in Hpre.
  pose proof (reachable_steps _ _ _ _ _ _ Hr1 Hs) as Hr2.
  split_and!.
  - intros q Hq. eapply elem_of_prefix; [|exact Hpre].
    rewrite (fifo_inv_reachable _ _ _ _ _ Hr1), !elem_of_app. auto.
  - done.
  - clear Hpre Hr1 Hn Hs. revert s2 Hr2 Hd.
    apply (reachable_ind' cfg M K W
             (λ s, corePc s = CDone → mCoreThreadShutdown (self s) = true)).
    + intros s0 _ [-> _]%ctor_inv.
      by destruct (CM_FORCE_SINGLETHREADED_RENDERING cfg).
    + intros s l s' Hr IH Hl.
      pose proof (exit_inv_reachable _ _ _ _ _ Hr) as Hexit.
      assert (Hwake : wakeCore (corePc s) = CDone → corePc s = CDone)
        by by destruct (corePc s).
      step_cases Hl; try done; try (intros ?%Hwake; by apply IH).
      intros _. by apply Hexit.
  - rewrite (workers_inv_reachable _ _ _ _ _ Hr2), Hd. cbn [reserved]. lia.
  - intros s s' Hr Hl He.
    pose proof (fifo_inv_reachable _ _ _ _ _ Hr) as Hfifo.
    step_cases Hl; try done.
    all: rewrite Hfifo.
    all: repeat match goal with
         | H : corePc _ = _ |- _ => rewrite H in *
         | H : isEmpty ?q = true |- _ => destruct q; [clear H|discriminate H]
         end.
    all: try done.
    all: split_and!; try done; cbn [batch]; by rewrite ?app_nil_r.
  - intros s s' Hr Hl He.
    pose proof (fifo_inv_reachable _ _ _ _ _ Hr) as Hfifo.
    pose proof (exit_inv_reachable _ _ _ _ _ Hr) as Hexit.
    step_cases Hl; try done.
    destruct Hexit as [Hq _]; [done|].
    rewrite Hq in Hfifo |- *. cbn [batch] in Hfifo. rewrite app_nil_r in Hfifo.
    by split_and!.
Qed.

Lemma shutdown_drains_queue_witness :
  ∃ s0 s1 s2,
    CoreThread_ctor multiThreaded 0 1 4 = Ok s0 ∧
    run multiThreaded shutdown_schedule_queued s0 = Some s1 ∧
    run multiThreaded shutdown_schedule_drain s1 = Some s2 ∧
    mCoreThreadShutdown (self s1) = true ∧
    length (mCommandQueue (self s1)) = 3 ∧
    corePc s1 ≠ CDone ∧ corePc s2 = CDone ∧
    played s2 = mCommandQueue (self s1) ∧
    mMaxActiveTasks s2 = 4%Z.
Proof.
  eexists _, _, _. split; [reflexivity|].
  split; [vm_compute; reflexivity|]. split; [vm_compute; reflexivity|].
  split; [reflexivity|]. split; [reflexivity|]. split; [discriminate|].
  split; [reflexivity|]. split; [reflexivity|].
  match goal with
  | |- mMaxActiveTasks ?s2 = _ =>
      refine (proj1 (proj2 (proj2 (proj2
        (shutdown_drains_queue multiThreaded 0 1 4 _ s2 _ _ _ _)))))
  end.
  - eapply (reachable_run multiThreaded 0 1 4 _ shutdown_schedule_queued);
      [lia | reflexivity | vm_compute; reflexivity].
  - discriminate.
  - apply (steps_run _ shutdown_schedule_drain). vm_compute. reflexivity.
  - reflexivity.
Defined.

(** * Worker capacity *)

(** C8: the core thread holds one worker slot exactly while it tests,
    flushes and plays, and none while it waits.  It enters its wait only
    from the program point reached by [addWorker] on an empty queue without
    shutdown, and from that point it does nothing but wait; once woken and
    holding the mutex again it does nothing but [removeWorker], which leads
    back to the test of the queue. *)
Theorem worker_slot_paired_with_wait cfg M K W s :
  reachable cfg M K W s →
  reservedSlots W s = reserved (corePc s) ∧
  (working (corePc s) = true → reservedSlots W s = 1%Z) ∧
  (corePc s = CWait → reservedSlots W s = 0%Z) ∧
  ∀ s', step_fn cfg Core s = Some s' →
    (corePc s' = CWaitEnter →
       corePc s = CTest ∧ mCommandQueue (self s) = [] ∧
       mCoreThreadShutdown (self s) = false ∧
       mMaxActiveTasks s' = (mMaxActiveTasks s + 1)%Z) ∧
    (corePc s = CWaitEnter →
       corePc s' = CWait ∧ mMaxActiveTasks s' = mMaxActiveTasks s ∧
       mCommandQueueMutex (self s') = None) ∧
    (corePc s' = CWait → corePc s = CWaitEnter) ∧
    (corePc s = CWoken →
       corePc s' = CReclaim ∧ mMaxActiveTasks s' = mMaxActiveTasks s ∧
       mCommandQueueMutex (self s') = Some K) ∧
    (corePc s = CReclaim →
       corePc s' = CTest ∧
       mMaxActiveTasks s' = (mMaxActiveTasks s - 1)%Z) ∧
    (corePc s' = CReclaim → corePc s = CWoken).
Proof.
  intros Hr. pose proof (workers_inv_reachable _ _ _ _ _ Hr) as Hw.
  pose proof (core_inv_reachable _ _ _ _ _ Hr) as [Htid _ _].
  unfold reservedSlots. split_and!.
  - lia.
  - intros Hwk. rewrite Hw. destruct (corePc s); try done; cbn [reserved]; lia.
  - intros Hc. rewrite Hw, Hc. cbn [reserved]. lia.
  - intros s' Hl. step_cases Hl.
    all: repeat match goal with
         | H : isEmpty ?q = true |- _ => destruct q; [clear H|discriminate H]
         end.
    all: split_and!; try done; try congruence.
    all: intros _; split_and!; try done.
    all: destruct (CM_FORCE_SINGLETHREADED_RENDERING cfg); congruence.
Qed.

Lemma worker_slot_paired_with_wait_witness :
  ∃ s0 s1,
    CoreThread_ctor multiThreaded 0 1 4 = Ok s0 ∧
    run multiThreaded shutdown_schedule_queued s0 = Some s1 ∧
    corePc s1 = CWait ∧ reservedSlots 4 s1 = 0%Z.
Proof.
  eexists _, _. split; [reflexivity|]. split; [vm_compute; reflexivity|].
  split; [reflexivity|].
  match goal with
  | |- reservedSlots 4 ?s1 = _ =>
      refine (proj1 (proj2 (proj2
        (worker_slot_paired_with_wait multiThreaded 0 1 4 s1 _))) _)
  end.
  - eapply (reachable_run multiThreaded 0 1 4 _ shutdown_schedule_queued);
      [lia | reflexivity | vm_compute; reflexivity].
  - reflexivity.
Defined.

(** ** Counting invocations *)




Lemma played_ids_NoDup cfg M K W s :
  reachable cfg M K W s →
  (Z.of_nat (allocated s) ≤ UINT32_modulus)%Z →
  NoDup (ids (played s)).
Proof.
  intros Hr Hn. pose proof (ids_NoDup _ _ _ _ _ Hr Hn) as Hnd.
  rewrite (fifo_inv_reachable _ _ _ _ _ Hr), ids_app in Hnd.
  by apply NoDup_app in Hnd as [? _].
Qed.

(** ** Distinct pending notify-ids *)

Lemma pendingId_wake pc : pendingId (wakeProd pc) = pendingId pc.
Proof. by destruct pc. Qed.

Lemma allocated_mono cfg l s s' :
  step_fn cfg l s = Some s' → allocated s ≤ allocated s'.
Proof.
  intros Hl. apply trace_mono in Hl as [k Hk].
  unfold allocated, ids, enqueued. rewrite Hk, !omap_app, length_app. lia.
Qed.

Lemma nth_id_fresh n j :
  (Z.of_nat n < UINT32_modulus)%Z → j < n → nth_id j ≠ nth_id n.
Proof. intros Hn Hj. rewrite !nth_id_small by lia. lia. Qed.

Lemma pending_distinct_reachable cfg M K W s :
  reachable cfg M K W s →
  (Z.of_nat (allocated s) ≤ UINT32_modulus)%Z →
  pending_ids_distinct s.
Proof.
  revert s.
  apply (reachable_ind' cfg M K W
    (λ s, (Z.of_nat (allocated s) ≤ UINT32_modulus)%Z → pending_ids_distinct s)).
  - intros s0 _ [-> _]%ctor_inv.
    destruct (CM_FORCE_SINGLETHREADED_RENDERING cfg); intros _ t1 t2 i _;
      unfold pcOf; sys_simpl; by rewrite lookup_empty.
  - intros s l s' Hr IH Hl Hn.
    pose proof (allocated_mono _ _ _ _ Hl) as Hmono.
    assert (Hn0 : (Z.of_nat (allocated s) ≤ UINT32_modulus)%Z) by lia.
    specialize (IH Hn0).
    pose proof (pending_inv_reachable _ _ _ _ _ Hr) as [Hpq _].
    pose proof (ids_inv_reachable _ _ _ _ _ Hr) as [Hids Hctr].
    assert (Hfresh : (Z.of_nat (allocated s) < UINT32_modulus)%Z →
                     ∀ t', pendingId (default Idle (pcs s !! t')) ≠
                           Some (mMaxCommandNotifyId (self s))).
    { intros Hlt t' Ht'. unfold pendingId in Ht'.
      destruct (pending (default Idle (pcs s !! t'))) as [q'|] eqn:Hq'; [|done].
      cbn [mbind option_bind] in Ht'.
      pose proof (elem_of_ids _ _ _ (Hpq _ _ Hq') Ht') as Hin.
      rewrite Hids, Hctr in Hin.
      apply list_elem_of_fmap in Hin as (j & Hj & [_ Hj']%elem_of_seq).
      revert Hj. apply not_eq_sym, nth_id_fresh; [done|lia]. }
    unfold pending_ids_distinct in *.
    step_cases Hl; try done.
    all: intros t1 t2 i Hne; rewrite ?pc_insert, ?pc_wake, ?pendingId_wake.
    all: repeat case_decide; subst; try done; try (by apply IH).
    (* moves that keep the pending command *)
    all: try (match goal with
              | H : default Idle (pcs _ !! ?t) = _ |- _ =>
                  first [ intros H1; apply (IH t t2 i); [done|rewrite H; exact H1]
                        | intros H1 H2; apply (IH t1 t i Hne H1); rewrite H; exact H2 ]
              end).
    (* a submission without notification *)
    all: try (unfold pendingId, pending, commandOf; cbn [mbind option_bind];
              match goal with H : cBlock _ = false |- _ => rewrite H end;
              cbn [notifyId queued]; by auto).
    (* a fresh notify-id *)
    all: unfold pendingId, pending, commandOf; cbn [mbind option_bind];
      match goal with H : cBlock _ = true |- _ => rewrite H end;
      cbn [notifyId queued].
    + assert (Hlt : (Z.of_nat (allocated s) < UINT32_modulus)%Z)
        by (revert Hn; unfold allocated, ids, enqueued; sys_simpl;
            rewrite !omap_app, length_app; cbn; lia).
      intros [= <-]. by apply Hfresh.
    + assert (Hlt : (Z.of_nat (allocated s) < UINT32_modulus)%Z)
        by (revert Hn; unfold allocated, ids, enqueued; sys_simpl;
            rewrite !omap_app, length_app; cbn; lia).
      intros H1 [= <-]. by apply Hfresh in H1.
Qed.

(** * Blocking submissions *)



(** * The completed set *)

Lemma submseteq_NoDup (l k : list Z) : l ⊆+ k → NoDup k → NoDup l.
Proof.
  intros [k' Hk]%submseteq_Permutation Hnd. rewrite Hk in Hnd.
  by apply NoDup_app in Hnd as [? _].
Qed.

Lemma completed_NoDup cfg M K W s :
  reachable cfg M K W s →
  (Z.of_nat (allocated s) ≤ UINT32_modulus)%Z →
  NoDup (mCommandsCompleted (self s)).
Proof.
  intros Hr Hn.
  pose proof (played_ids_NoDup _ _ _ _ _ Hr Hn) as Hnd.
  pose proof (completed_inv_reachable _ _ _ _ _ Hr) as Hsub.
  apply (submseteq_NoDup _ _ Hsub) in Hnd.
  by apply NoDup_app in Hnd as [? _].
Qed.

Lemma returns_after_finding_reachable cfg s :
  CM_FORCE_SINGLETHREADED_RENDERING cfg = false →
  returns_after_finding cfg s.
Proof.
  intros Hcfg t call id s' Hin Hl Hidle. unfold pcOf in *.
  step_cases Hl; rewrite ?pc_insert, ?decide_True in Hidle by done;
    try discriminate Hidle; try congruence.
  all: repeat match goal with
       | H : default Idle (pcs _ !! _) = _ |- _ => rewrite H in Hin
       end; cbn [inBlockingCall blockedOn] in Hin; try discriminate Hin.
  - match goal with H : cBlock _ = false |- _ => rewrite H in Hin end. done.
  - injection Hin as -> ->.
    match goal with
    | H : findCompleted _ _ = Some ?n |- _ =>
        apply findCompleted_Some in H as [Hat Hbefore];
        exists (take n (mCommandsCompleted (self s))),
               (drop (S n) (mCommandsCompleted (self s)))
    end.
    split_and!.
    + by rewrite take_drop_middle.
    + intros (j & Hj)%list_elem_of_lookup_1.
      pose proof (lookup_lt_Some _ _ _ Hj) as Hlen. rewrite length_take in Hlen.
      rewrite lookup_take_lt in Hj by lia. by eapply Hbefore; [exact Hj|lia|].
    + by rewrite delete_take_drop.
Qed.

(** C7 (as amended): in a build without
    [CM_FORCE_SINGLETHREADED_RENDERING], [blockUntilCommandCompleted] returns
    only by finding its notify-id among the completed ones and erasing that
    one entry, the first equal to it; and as long as no more than 2^32
    notify-ids have been drawn, no notify-id is in the completed set twice,
    so that none is left of it after the erasure. *)
Theorem completed_ids_unique cfg M K W s :
  CM_FORCE_SINGLETHREADED_RENDERING cfg = false →
  reachable cfg M K W s →
  returns_after_finding cfg s ∧
  ((Z.of_nat (allocated s) ≤ UINT32_modulus)%Z →
   NoDup (mCommandsCompleted (self s)) ∧
   ∀ t call id s',
     inBlockingCall (pcOf s t) = Some (call, id) →
     step_fn cfg (Producer t) s = Some s' → pcOf s' t = Idle →
     id ∉ mCommandsCompleted (self s')).
Proof.
  intros Hcfg Hr. split; [by apply returns_after_finding_reachable|].
  intros Hn. pose proof (completed_NoDup _ _ _ _ _ Hr Hn) as Hnd.
  split; [done|]. intros t call id s' Hin Hl Hidle.
  destruct (returns_after_finding_reachable _ s Hcfg _ _ _ _ Hin Hl Hidle)
    as (l1 & l2 & Heq & Hl1 & ->).
  rewrite Heq in Hnd. apply NoDup_app in Hnd as (_ & Hdisj & [Hl2 _]%NoDup_cons).
  rewrite elem_of_app. by intros [?|?].
Qed.

Lemma completed_ids_unique_witness :
  ∃ s0 s,
    CoreThread_ctor multiThreaded 0 1 4 = Ok s0 ∧
    run multiThreaded (take 18 blocking_schedule) s0 = Some s ∧
    mCommandsCompleted (self s) = [0%Z] ∧
    inBlockingCall (pcOf s 2) =
      Some ({| cReturn := false; cCallback := 100; cBlock := true |}, 0%Z) ∧
    returns_after_finding multiThreaded s ∧
    NoDup (mCommandsCompleted (self s)).
Proof.
  eexists _, _. split; [reflexivity|]. split; [vm_compute; reflexivity|].
  split; [reflexivity|]. split; [reflexivity|].
  match goal with
  | |- returns_after_finding _ ?s ∧ _ =>
      destruct (completed_ids_unique multiThreaded 0 1 4 s eq_refl) as [H1 H2]
  end.
  - eapply (reachable_run multiThreaded 0 1 4 _ (take 18 blocking_schedule));
      [lia | reflexivity | vm_compute; reflexivity].
  - split; [exact H1|]. apply H2. vm_compute. discriminate.
Defined.

(** * Notify-ids *)

Lemma counter_step cfg M K W s l s' :
  reachable cfg M K W s → step_fn cfg l s = Some s' →
  (mMaxCommandNotifyId (self s') ≠ mMaxCommandNotifyId (self s) →
   ∃ t call id,
     l = Producer t ∧ pcOf s t = QCrit call id ∧ cBlock call = true ∧
     mCommandQueueMutex (self s) = Some t ∧
     pcOf s' t = QNotify call (mMaxCommandNotifyId (self s)) ∧
     mMaxCommandNotifyId (self s') =
       to_UINT32 (mMaxCommandNotifyId (self s) + 1) ∧
     allocated s' = S (allocated s)) ∧
  ((Z.of_nat (allocated s') < UINT32_modulus)%Z →
   (mMaxCommandNotifyId (self s) ≤ mMaxCommandNotifyId (self s'))%Z).
Proof.
  intros Hr Hl.
  pose proof (mutex_inv_reachable _ _ _ _ _ Hr) as [Hq _ _ _].
  pose proof (ids_inv_reachable _ _ _ _ _ Hr) as [_ Hctr].
  pose proof (ids_inv_reachable _ _ _ _ _ (reachable_step _ _ _ _ _ _ _ Hr Hl))
    as [_ Hctr'].
  pose proof (allocated_mono _ _ _ _ Hl) as Hmono.
  split.
  - clear Hctr Hctr' Hmono. unfold pcOf. step_cases Hl; try done.
    intros _.
    match goal with
    | H : default Idle (pcs _ !! ?t) = QCrit ?call ?id |- _ =>
        exists t, call, id; specialize (Hq t); rewrite H in Hq
    end.
    rewrite pc_insert, decide_True by done.
    split_and!; try done; [by apply Hq|].
    unfold allocated, ids, enqueued. sys_simpl.
    rewrite !omap_app, length_app. cbn. lia.
  - intros Hlt. rewrite Hctr, Hctr', !nth_id_small by lia. lia.
Qed.

(** C4: short of wraparound of the 32-bit counter, which the
    specification leaves out of its scope, the notify-id counter changes
    only in the locked section of a blocking submission, by the thread that
    holds the queue mutex, which takes the old value as its notify-id and
    stores the successor; while fewer than 2^32 notify-ids have been drawn
    the counter never decreases; and as long as no more than 2^32 have been
    drawn, the threads with a pending blocking command carry pairwise
    distinct notify-ids, and a blocked caller returns only on finding its
    own notify-id, recorded for its own command, which no other pending
    thread carries. *)
Theorem notify_ids_distinct_before_wrap cfg M K W s :
  reachable cfg M K W s →
  (∀ l s', step_fn cfg l s = Some s' →
     (mMaxCommandNotifyId (self s') ≠ mMaxCommandNotifyId (self s) →
      ∃ t call id,
        l = Producer t ∧ pcOf s t = QCrit call id ∧ cBlock call = true ∧
        mCommandQueueMutex (self s) = Some t ∧
        pcOf s' t = QNotify call (mMaxCommandNotifyId (self s)) ∧
        mMaxCommandNotifyId (self s') =
          to_UINT32 (mMaxCommandNotifyId (self s) + 1) ∧
        allocated s' = S (allocated s)) ∧
     ((Z.of_nat (allocated s') < UINT32_modulus)%Z →
      (mMaxCommandNotifyId (self s) ≤ mMaxCommandNotifyId (self s'))%Z)) ∧
  ((Z.of_nat (allocated s) ≤ UINT32_modulus)%Z →
   pending_ids_distinct s ∧
   (CM_FORCE_SINGLETHREADED_RENDERING cfg = false →
    ∀ t call id s',
      blockedOn (pcOf s t) = Some (call, id) →
      step_fn cfg (Producer t) s = Some s' → pcOf s' t = Idle →
      id ∈ mCommandsCompleted (self s) ∧
      commandOf call id ∈ played s ∧
      ∀ t2, t2 ≠ t → pendingId (pcOf s t2) ≠ Some id)).
Proof.
  intros Hr. split; [intros l s'; by eapply counter_step|].
  intros Hn. pose proof (pending_distinct_reachable _ _ _ _ _ Hr Hn) as Hdist.
  split; [done|]. intros Hcfg t call id s' Hb Hl Hidle.
  pose proof (pending_inv_reachable _ _ _ _ _ Hr) as [_ Hpb].
  destruct (Hpb t call id Hb) as [Hblock _].
  assert (Hin : inBlockingCall (pcOf s t) = Some (call, id)).
  { unfold pcOf in *. by destruct (default Idle (pcs s !! t)). }
  destruct (returns_after_finding_reachable _ s Hcfg _ _ _ _ Hin Hl Hidle)
    as (l1 & l2 & Heq & _ & _).
  split_and!.
  - rewrite Heq, elem_of_app, elem_of_cons. auto.
  - pose proof (reachable_step _ _ _ _ _ _ _ Hr Hl) as Hr'.
    pose proof (allocated_mono _ _ _ _ Hl) as Hmono.
    assert (trace s' = trace s ++ [EvReturn t (commandOf call id)] ∧
            allocated s' = allocated s) as [Htr Ha].
    { clear Hr' Hmono Hdist Heq. unfold pcOf in *.
      step_cases Hl; rewrite ?pc_insert, ?decide_True in Hidle by done;
        try discriminate Hidle.
      all: repeat match goal with
           | H : default Idle (pcs _ !! _) = _ |- _ => rewrite H in Hb, Hin
           end; cbn [blockedOn] in Hb; try discriminate Hb.
      injection Hb as -> ->. split; [done|].
      unfold allocated, ids, enqueued. sys_simpl. rewrite omap_app. cbn.
      by rewrite app_nil_r. }
    eapply (returned_inv_reachable cfg M K W s' Hcfg Hr');
      [lia|exact Htr|].
    unfold commandOf. by rewrite Hblock.
  - intros t2 Hne. apply (Hdist t t2 id); [done|].
    unfold pcOf in *. destruct (default Idle (pcs s !! t)); try done.
    all: injection Hb as -> ->; unfold pendingId, pending, commandOf;
      cbn [mbind option_bind]; by rewrite Hblock.
Qed.

Lemma notify_ids_distinct_before_wrap_witness :
  ∃ s0 s,
    CoreThread_ctor multiThreaded 0 1 4 = Ok s0 ∧
    run multiThreaded two_pending_schedule s0 = Some s ∧
    allocated s = 2 ∧
    pendingId (pcOf s 2) = Some 0%Z ∧
    pendingId (pcOf s 3) = Some 1%Z ∧
    pending_ids_distinct s.
Proof.
  eexists _, _. split; [reflexivity|]. split; [vm_compute; reflexivity|].
  split; [reflexivity|]. split; [reflexivity|]. split; [reflexivity|].
  refine (proj1 (proj2 (notify_ids_distinct_before_wrap multiThreaded 0 1 4 _ _) _)).
  - eapply (reachable_run multiThreaded 0 1 4 _ two_pending_schedule);
      [lia | reflexivity | vm_compute; reflexivity].
  - vm_compute. discriminate.
Defined.

(** ** The counter wraps around *)

Lemma run_cons_eq cfg l ls s s1 r :
  step_fn cfg l s = Some s1 → run cfg ls s1 = r → run cfg (l :: ls) s = r.
Proof. intros Hl Hr. cbn [run]. by rewrite Hl. Qed.

Lemma reachable_run_from cfg M K W ls s s' :
  reachable cfg M K W s → run cfg ls s = Some s' → reachable cfg M K W s'.
Proof. intros Hr Hrun. eapply reachable_steps; [done|by eapply steps_run]. Qed.

Lemma findCompleted_second k :
  k ≠ 0%Z → findCompleted k [0%Z; k] = Some 1.
Proof.
  intros Hk. unfold findCompleted. cbn [list_find].
  rewrite decide_False by done. rewrite decide_True by done. done.
Qed.


(** Simplification of one step of a schedule on a state known by its
    members. *)
Ltac exec_simpl :=
  unfold mayCall, pcOf, queueCommand, queueReturnCommand, submit,
    producer_step, runCoreThread_step, enqueue, flush;
  rewrite ?put_queued;
  sys_simpl;
  rewrite ?pc_insert, ?pc_wake;
  repeat match goal with
  | H : default Idle (pcs _ !! _) = _ |- _ => rewrite H
  | H : coreTid _ = _ |- _ => rewrite H
  | H : corePc _ = _ |- _ => rewrite H
  | H : mCoreThreadId _ = _ |- _ => rewrite H
  | H : mCommandQueueMutex _ = _ |- _ => rewrite H
  | H : mCommandNotifyMutex _ = _ |- _ => rewrite H
  | H : mCommandQueue _ = _ |- _ => rewrite H
  | H : mCommandsCompleted _ = _ |- _ => rewrite H
  | H : mCoreThreadShutdown _ = _ |- _ => rewrite H
  | H : mMaxCommandNotifyId _ = _ |- _ => rewrite H
  | |- context [decide (?a = ?b)] =>
      first [ rewrite (decide_True (P := a = b)) by done
            | rewrite (decide_False (P := a = b)) by done ]
  | |- context [bool_decide ?P] =>
      first [ rewrite (bool_decide_eq_true_2 P) by done
            | rewrite (bool_decide_eq_false_2 P) by done ]
  end;
  cbn [andb wakeProd wakeCore isEmpty notifyId queued cBlock callB callA
       mbind option_bind app CM_FORCE_SINGLETHREADED_RENDERING multiThreaded].

Ltac exec_step := eapply run_cons_eq; [cbn [step_fn]; repeat exec_simpl; reflexivity|].

Lemma wrap_cycle k s :
  wrapping k s → k ≠ 0%Z →
  ∃ s', run multiThreaded wrap_cycle_schedule s = Some s' ∧
        wrapping (to_UINT32 (k + 1)) s'.
Proof.
  intros [Hr Hk Hc Hcore HA HB Hqm Hnm Hq Htid Hid Hinv] Hk0.
  unfold pcOf in HA, HB.
  eexists.
  match goal with |- ?R ∧ _ => assert (Hrun : R) end.
  { unfold wrap_cycle_schedule.
    do 12 exec_step.
    eapply run_cons_eq; [|reflexivity].
    cbn [step_fn]. repeat exec_simpl.
    rewrite findCompleted_second by done. reflexivity. }
  split; [exact Hrun|].
  pose proof (reachable_run_from _ _ _ _ _ _ _ Hr Hrun) as Hr'.
  clear Hrun.
  split; unfold pcOf; sys_simpl; rewrite ?pc_insert, ?pc_wake; try done.
  - repeat (rewrite ?pc_insert, ?pc_wake; rewrite (decide_False (P := 3 = 2)) by done).
    by rewrite HA.
  - intros t q [[[Hin|Hin]%elem_of_app|Hin]%elem_of_app|Hin]%elem_of_app.
    + by apply (Hinv t q).
    + apply list_elem_of_singleton in Hin. discriminate Hin.
    + apply list_elem_of_singleton in Hin. injection Hin as -> ->.
      intros _. cbn. congruence.
    + apply list_elem_of_singleton in Hin. discriminate Hin.
Qed.

Lemma wrapping_base :
  ∃ s, wrapping 2 s.
Proof.
  destruct (CoreThread_ctor multiThreaded 0 1 4) as [s0|] eqn:Hc; [|done].
  destruct (run multiThreaded wrap_prefix_schedule s0) as [s|] eqn:Hrun;
    [|vm_compute in Hc; injection Hc as <-; vm_compute in Hrun; done].
  exists s.
  assert (Hr : reachable multiThreaded 0 1 4 s)
    by (eapply reachable_run; [|exact Hc|exact Hrun]; done).
  vm_compute in Hc. injection Hc as <-.
  vm_compute in Hrun. injection Hrun as <-.
  split; try done.
  intros t q Hin Hcb.
  repeat (apply elem_of_cons in Hin as [Hin|Hin];
          [try discriminate Hin; injection Hin as _ ->; try discriminate Hcb;
           discriminate|]).
  by apply elem_of_nil in Hin.
Qed.

Lemma wrapping_upto n :
  (Z.of_nat n + 2 < UINT32_modulus)%Z → ∃ s, wrapping (Z.of_nat n + 2) s.
Proof.
  induction n as [|n IH]; intros Hn.
  - apply wrapping_base.
  - destruct IH as [s Hs]; [lia|].
    destruct (wrap_cycle _ _ Hs) as (s' & _ & Hs'); [lia|].
    exists s'. unfold to_UINT32 in Hs'. rewrite Z.mod_small in Hs' by lia.
    by replace (Z.of_nat (S n) + 2)%Z with (Z.of_nat n + 2 + 1)%Z by lia.
Qed.

(** After 2^32 - 1 blocking submissions the counter stands at its largest
    value, with thread 2 still waiting on notify-id 0. *)
Lemma wrapping_max : ∃ s, wrapping 4294967295 s.
Proof.
  destruct (wrapping_upto (Z.to_nat 4294967293)) as [s Hs].
  - rewrite Z2Nat.id by done. done.
  - exists s. by rewrite Z2Nat.id in Hs by done.
Qed.

(** One more blocking submission draws 4294967295 and sets the counter
    back to 0. *)
Lemma wrapping_zero :
  ∃ s s', wrapping 4294967295 s ∧
          run multiThreaded wrap_cycle_schedule s = Some s' ∧ wrapping 0 s'.
Proof.
  destruct wrapping_max as [s Hs].
  destruct (wrap_cycle _ _ Hs) as (s' & Hrun & Hs'); [done|].
  by exists s, s'.
Qed.

Lemma wrap_decrease s :
  wrapping 4294967295 s →
  ∃ s2 s3, reachable multiThreaded 0 1 4 s2 ∧
    step_fn multiThreaded (Producer 3) s2 = Some s3 ∧
    mMaxCommandNotifyId (self s2) = 4294967295%Z ∧
    mMaxCommandNotifyId (self s3) = 0%Z.
Proof.
  intros [Hr Hk Hc Hcore HA HB Hqm Hnm Hq Htid Hid Hinv].
  unfold pcOf in HA, HB. eexists _, _.
  match goal with |- ?R ∧ _ => assert (Hr2 : R) end.
  { eapply (reachable_run_from _ _ _ _ [CallQueueCommand 3 200 true; Producer 3]);
      [exact Hr|].
    do 2 exec_step. reflexivity. }
  split; [exact Hr2|]. clear Hr2.
  match goal with |- ?R ∧ _ => assert (Hstep : R) end.
  { cbn [step_fn]. repeat exec_simpl. reflexivity. }
  split; [exact Hstep|]. clear Hstep. sys_simpl. by rewrite Hk.
Qed.

Lemma collision_pending s :
  wrapping 0 s →
  ∃ s', run multiThreaded (take 3 wrap_collision_schedule) s = Some s' ∧
    pendingId (pcOf s' 2) = Some 0%Z ∧ pendingId (pcOf s' 3) = Some 0%Z.
Proof.
  intros [Hr Hk Hc Hcore HA HB Hqm Hnm Hq Htid Hid Hinv].
  unfold pcOf in HA, HB. eexists.
  match goal with |- ?R ∧ _ => assert (Hrun : R) end.
  { cbn [take wrap_collision_schedule]. do 3 exec_step. reflexivity. }
  split; [exact Hrun|]. clear Hrun. unfold pcOf. sys_simpl.
  repeat (rewrite ?pc_insert, ?pc_wake;
          rewrite ?(decide_False (P := 3 = 2)), ?(decide_True (P := 3 = 3)) by done).
  by rewrite HA.
Qed.


Lemma collision_completed s :
  wrapping 0 s →
  ∃ s', run multiThreaded wrap_duplicate_schedule s = Some s' ∧
    mCommandsCompleted (self s') = [0%Z; 0%Z].
Proof.
  intros [Hr Hk Hc Hcore HA HB Hqm Hnm Hq Htid Hid Hinv].
  unfold pcOf in HA, HB. eexists.
  match goal with |- ?R ∧ _ => assert (Hrun : R) end.
  { unfold wrap_duplicate_schedule. do 9 exec_step. reflexivity. }
  split; [exact Hrun|]. clear Hrun. sys_simpl. by rewrite ?Hc, ?Hk.
Qed.

(** * What goes wrong outside the amended claims *)

(** C7 (as stated) fails.  In a build with
    [CM_FORCE_SINGLETHREADED_RENDERING] the blocking call returns although
    its notify-id was never put into the completed set.  In a multi-threaded
    build, once the counter has wrapped around, notify-id 0 is recorded for
    a second command while its first record has not been taken out. *)
Lemma returns_after_finding_counterexample :
  (∃ s0 s,
     CoreThread_ctor singleThreaded 0 1 4 = Ok s0 ∧
     run singleThreaded (take 3 blocking_schedule_single) s0 = Some s ∧
     ¬ returns_after_finding singleThreaded s) ∧
  (∃ s, reachable multiThreaded 0 1 4 s ∧
        ¬ NoDup (mCommandsCompleted (self s))).
Proof.
  split.
  - eexists _, _. split; [reflexivity|]. split; [vm_compute; reflexivity|].
    intros H.
    edestruct (H 5 {| cReturn := false; cCallback := 7; cBlock := true |} 0%Z)
      as (l1 & l2 & Heq & _); [reflexivity|vm_compute; reflexivity|reflexivity|].
    vm_compute in Heq. by destruct l1.
  - destruct wrapping_zero as (s1 & s & _ & _ & Hs).
    destruct (collision_completed _ Hs) as (s' & Hrun & Hc).
    exists s'. split; [eapply reachable_run_from; [apply Hs|exact Hrun]|].
    rewrite Hc. intros [Hnin _]%NoDup_cons. apply Hnin. by left.
Qed.

(** Past the wraparound of the counter, which the specification leaves out
    of its scope, notify-ids do collide: the blocking submission that draws
    4294967295 sets the counter back to 0, and the next one is handed
    notify-id 0 while an older caller still waits on notify-id 0. *)
Lemma notify_ids_collide_after_wrap :
  (∃ s, reachable multiThreaded 0 1 4 s ∧ ¬ counter_monotone multiThreaded s) ∧
  (∃ s, reachable multiThreaded 0 1 4 s ∧ ¬ pending_ids_distinct s).
Proof.
  destruct wrapping_zero as (s1 & s & Hs1 & _ & Hs). split.
  - destruct (wrap_decrease _ Hs1) as (s2 & s3 & Hr2 & Hstep & H2 & H3).
    exists s2. split; [done|]. intros H. specialize (H _ _ Hstep).
    rewrite H2, H3 in H. done.
  - destruct (collision_pending _ Hs) as (s' & Hrun & HA & HB).
    exists s'. split; [eapply reachable_run_from; [apply Hs|exact Hrun]|].
    intros H. by apply (H 2 3 0%Z).
Qed.

(** * Further properties of the code *)

(** ** Construction *)

(** X1: [CoreThread::CoreThread] with [initCoreThread]: the constructor raises
    [InternalErrorException] exactly in a build that neither forces
    single-threaded rendering nor has thread support.  In every other build
    it leaves two distinct, empty frame allocators with the first one
    active, an empty queue, the notify-id counter at 0, no shutdown request
    and the constructing thread recorded as the core thread; a core thread
    is started exactly when single-threaded rendering is not forced. *)
Theorem constructor_outcome cfg M K W :
  match CoreThread_ctor cfg M K W with
  | Throw e =>
      CM_FORCE_SINGLETHREADED_RENDERING cfg = false ∧
      CM_THREAD_SUPPORT cfg = false ∧
      ∃ msg, e = InternalErrorException msg
  | Ok s0 =>
      (CM_FORCE_SINGLETHREADED_RENDERING cfg = true ∨ CM_THREAD_SUPPORT cfg = true) ∧
      mCoreThreadId (self s0) = M ∧
      mCommandQueue (self s0) = [] ∧
      mMaxCommandNotifyId (self s0) = 0%Z ∧
      mCoreThreadShutdown (self s0) = false ∧
      mSyncedCoreAccessor (self s0) = None ∧
      mAccessors (self s0) = [] ∧
      (∃ f0 f1, mFrameAllocs (self s0) = [f0; f1] ∧ f0 ≠ f1 ∧
                getFrameAlloc s0 = Some f0 ∧
                arena s0 f0 = Some [] ∧ arena s0 f1 = Some []) ∧
      (coreTid s0, corePc s0) =
        (if CM_FORCE_SINGLETHREADED_RENDERING cfg then (None, CNone)
         else (Some K, CStart)) ∧
      mMaxActiveTasks s0 = W ∧ trace s0 = []
  end.
Proof.
  destruct (CoreThread_ctor cfg M K W) as [s0|e] eqn:Hc.
  - apply ctor_inv in Hc as [-> Hb].
    destruct (CM_FORCE_SINGLETHREADED_RENDERING cfg); sys_simpl;
      (split_and!; try done; exists 0, 1; by split_and!).
  - revert Hc. unfold CoreThread_ctor, CoreThread_ctor_in, initCoreThread, cm_new.
    cbv beta iota zeta.
    destruct (CM_FORCE_SINGLETHREADED_RENDERING cfg), (CM_THREAD_SUPPORT cfg);
      intros [= <-]; eauto.
Qed.

(** ** Ownership of the two mutexes *)

Lemma owner_inv_reachable cfg M K W s :
  reachable cfg M K W s → owner_inv s.
Proof.
  revert s. apply reachable_ind'.
  - intros s0 _ [-> _]%ctor_inv.
    destruct (CM_FORCE_SINGLETHREADED_RENDERING cfg) eqn:Hcfg; sys_simpl;
      split; sys_simpl; done.
  - intros s l s' Hr [Hq Hn] Hl.
    pose proof (core_inv_reachable _ _ _ _ _ Hr) as [Htid Hnone Hidle].
    step_cases Hl.
    all: split; sys_simpl; intros t' Ht'; try discriminate Ht';
      rewrite ?pc_insert, ?pc_wake, ?holdsQueueMutex_wake, ?holdsNotifyMutex_wake,
        ?coreHoldsQueueMutex_wake, ?coreHoldsNotifyMutex_wake.
    all: try (first [ destruct (Hq _ Ht') as [Hp|[Hc1 Hc2]]
                    | destruct (Hn _ Ht') as [Hp|[Hc1 Hc2]] ];
              [ try case_decide; subst;
                first [ left; done
                      | exfalso;
                        match goal with
                        | H : default Idle (pcs _ !! _) = _ |- _ =>
                            rewrite H in Hp; done
                        end ]
              | first [ right; split; [done|];
                        repeat match goal with
                        | H : corePc _ = _ |- _ => rewrite H in *
                        end; done
                      | exfalso;
                        repeat match goal with
                        | H : corePc _ = _ |- _ => rewrite H in *
                        end; done
                      | exfalso; try case_decide; subst;
                        rewrite ?(Hidle _ Hc1) in *; congruence ] ]).
    all: try (injection Ht' as <-; first [ left; by rewrite decide_True by done
                                         | right; split; [congruence | done] ]).
    all: destruct (Hq _ Ht') as [Hp|[Hc1 Hc2]];
      [left; done | right; split; [congruence | done]].
Qed.

Ltac reach_by ls :=
  eapply (reachable_run multiThreaded 0 1 4 _ ls);
  [lia | reflexivity | vm_compute; reflexivity].

(** X2: [mCommandQueueMutex] and [mCommandNotifyMutex] exclude: at any moment at
    most one thread, the core thread included, is inside a section guarded
    by one of them, and the mutex is free exactly when no thread is. *)
Theorem critical_sections_exclusive cfg M K W s :
  reachable cfg M K W s →
  (∀ t1 t2, holdsQueueMutex (pcOf s t1) = true →
            holdsQueueMutex (pcOf s t2) = true → t1 = t2) ∧
  (∀ t, holdsQueueMutex (pcOf s t) = true →
        coreHoldsQueueMutex (corePc s) = false) ∧
  (∀ t1 t2, holdsNotifyMutex (pcOf s t1) = true →
            holdsNotifyMutex (pcOf s t2) = true → t1 = t2) ∧
  (∀ t, holdsNotifyMutex (pcOf s t) = true →
        coreHoldsNotifyMutex (corePc s) = false) ∧
  (mCommandQueueMutex (self s) = None ↔
     (∀ t, holdsQueueMutex (pcOf s t) = false) ∧
     coreHoldsQueueMutex (corePc s) = false) ∧
  (mCommandNotifyMutex (self s) = None ↔
     (∀ t, holdsNotifyMutex (pcOf s t) = false) ∧
     coreHoldsNotifyMutex (corePc s) = false).
Proof.
  intros Hr.
  pose proof (mutex_inv_reachable _ _ _ _ _ Hr) as [Hq Hqc Hn Hnc].
  pose proof (owner_inv_reachable _ _ _ _ _ Hr) as [Hoq Hon].
  pose proof (core_inv_reachable _ _ _ _ _ Hr) as [Htid Hnone Hidle].
  assert (Hcq : coreHoldsQueueMutex (corePc s) = true →
                mCommandQueueMutex (self s) = Some K ∧ coreTid s = Some K).
  { intros Hc. specialize (Hqc Hc).
    destruct (CM_FORCE_SINGLETHREADED_RENDERING cfg).
    - rewrite Hnone in Hc by done. done.
    - by rewrite Hqc, Htid. }
  assert (Hcn : coreHoldsNotifyMutex (corePc s) = true →
                mCommandNotifyMutex (self s) = Some K ∧ coreTid s = Some K).
  { intros Hc. specialize (Hnc Hc).
    destruct (CM_FORCE_SINGLETHREADED_RENDERING cfg).
    - rewrite Hnone in Hc by done. done.
    - by rewrite Hnc, Htid. }
  unfold pcOf. split_and!.
  - intros t1 t2 H1%Hq H2%Hq. congruence.
  - intros t Ht. destruct (coreHoldsQueueMutex (corePc s)) eqn:Hc; [|done].
    destruct (Hcq eq_refl) as [Hm Hk]. pose proof (Hq _ Ht) as Hm'.
    assert (t = K) as -> by congruence. rewrite (Hidle K Hk) in Ht. done.
  - intros t1 t2 H1%Hn H2%Hn. congruence.
  - intros t Ht. destruct (coreHoldsNotifyMutex (corePc s)) eqn:Hc; [|done].
    destruct (Hcn eq_refl) as [Hm Hk]. pose proof (Hn _ Ht) as Hm'.
    assert (t = K) as -> by congruence. rewrite (Hidle K Hk) in Ht. done.
  - split.
    + intros Hfree. split.
      * intros t. destruct (holdsQueueMutex _) eqn:Ht; [|done].
        apply Hq in Ht. congruence.
      * destruct (coreHoldsQueueMutex (corePc s)) eqn:Hc; [|done].
        destruct (Hcq eq_refl). congruence.
    + intros [Hp Hc]. apply eq_None_not_Some. intros [t Hm].
      destruct (Hoq _ Hm) as [Ht|[_ Ht]]; [rewrite Hp in Ht | rewrite Hc in Ht]; done.
  - split.
    + intros Hfree. split.
      * intros t. destruct (holdsNotifyMutex _) eqn:Ht; [|done].
        apply Hn in Ht. congruence.
      * destruct (coreHoldsNotifyMutex (corePc s)) eqn:Hc; [|done].
        destruct (Hcn eq_refl). congruence.
    + intros [Hp Hc]. apply eq_None_not_Some. intros [t Hm].
      destruct (Hon _ Hm) as [Ht|[_ Ht]]; [rewrite Hp in Ht | rewrite Hc in Ht]; done.
Qed.

Lemma critical_sections_exclusive_witness :
  ∃ s0 s,
    CoreThread_ctor multiThreaded 0 1 4 = Ok s0 ∧
    run multiThreaded [CallQueueCommand 2 10 false; Producer 2] s0 = Some s ∧
    holdsQueueMutex (pcOf s 2) = true ∧
    coreHoldsQueueMutex (corePc s) = false ∧
    ∀ t, holdsQueueMutex (pcOf s t) = true → t = 2.
Proof.
  eexists _, _. split; [reflexivity|]. split; [vm_compute; reflexivity|].
  split; [reflexivity|].
  match goal with
  | |- coreHoldsQueueMutex (corePc ?s0) = _ ∧ _ =>
      destruct (critical_sections_exclusive multiThreaded 0 1 4 s0)
        as (Hx & Hc & _)
  end.
  - reach_by [CallQueueCommand 2 10 false; Producer 2].
  - split; [by apply (Hc 2)|]. intros t Ht. by apply Hx.
Defined.

(** ** Events and their origin *)

(** What a step adds to the history, and where the thread stood. *)
Lemma trace_step cfg l s s' :
  step_fn cfg l s = Some s' →
  trace s' = trace s ∨
  ∃ e, trace s' = trace s ++ [e] ∧
    match e with
    | EvImmediate t call => t = mCoreThreadId (self s)
    | EvQueue t q =>
        ∃ call id, pcOf s t = QCrit call id ∧
          q = queued call (if cBlock call
                           then Some (mMaxCommandNotifyId (self s)) else None)
    | EvInvoke t q => coreTid s = Some t ∧ ∃ cs, corePc s = CPlay (q :: cs)
    | EvReturn t q =>
        ∃ call id, q = commandOf call id ∧
          (pcOf s t = QNotify call id ∨ pcOf s t = BCheck call id)
    end.
Proof.
  intros Hl. step_cases Hl; try (by left).
  all: right; eexists; (split; [reflexivity|]); cbn beta iota; eauto.
  all: eexists _, _; split; [eassumption|];
    match goal with
    | H : cBlock _ = _ |- _ => by rewrite H
    end.
Qed.

(** A command is invoked only after it has been queued, and the commands
    invoked before it are exactly the commands queued before it. *)
Lemma invoked_after_queued cfg M K W s :
  reachable cfg M K W s →
  ∀ pre t q post, trace s = pre ++ EvInvoke t q :: post →
    omap invokedOf pre ++ [q] `prefix_of` omap queuedOf pre.
Proof.
  revert s. apply (reachable_ind' cfg M K W (λ s, ∀ pre t q post,
    trace s = pre ++ EvInvoke t q :: post →
    omap invokedOf pre ++ [q] `prefix_of` omap queuedOf pre)).
  - intros s0 _ [-> _]%ctor_inv pre t q post.
    destruct (CM_FORCE_SINGLETHREADED_RENDERING cfg), pre; discriminate.
  - intros s l s' Hr IH Hl pre t q post Htr.
    destruct (trace_step _ _ _ _ Hl) as [Hsame|(e & He & Hev)].
    { rewrite Hsame in Htr. eauto. }
    rewrite He in Htr.
    apply snoc_eq_split in Htr as [(_ & -> & <-)|(post' & _ & Htr)]; [|eauto].
    destruct Hev as (_ & cs & Hpc).
    pose proof (fifo_inv_reachable _ _ _ _ _ Hr) as Hfifo.
    rewrite Hpc in Hfifo. cbn [batch app] in Hfifo.
    fold (played s). fold (enqueued s). rewrite Hfifo.
    apply prefix_app, prefix_cons, prefix_nil.
Qed.

(** X3: The queue hands every command to the core thread once and in the order
    of queueing: what has been queued so far is what has been invoked,
    followed by the batch being played, followed by the contents of the
    queue; only the core thread invokes; and each invocation comes after
    the queueing of its command, with exactly the earlier queued commands
    invoked before it. *)
Theorem commands_invoked_in_queue_order cfg M K W s :
  reachable cfg M K W s →
  enqueued s = played s ++ batch (corePc s) ++ mCommandQueue (self s) ∧
  played s `prefix_of` enqueued s ∧
  (∀ t q, EvInvoke t q ∈ trace s →
     t = K ∧ CM_FORCE_SINGLETHREADED_RENDERING cfg = false) ∧
  (∀ pre t q post, trace s = pre ++ EvInvoke t q :: post →
     omap invokedOf pre ++ [q] `prefix_of` omap queuedOf pre).
Proof.
  intros Hr. pose proof (fifo_inv_reachable _ _ _ _ _ Hr) as Hfifo.
  split_and!.
  - done.
  - rewrite Hfifo. by apply prefix_app_r.
  - intros t q Hin.
    pose proof (invoker_inv_reachable _ _ _ _ _ Hr _ _ Hin) as Ht.
    pose proof (core_inv_reachable _ _ _ _ _ Hr) as [Htid _ _].
    rewrite Ht in Htid.
    destruct (CM_FORCE_SINGLETHREADED_RENDERING cfg); [done|].
    by injection Htid.
  - by apply (invoked_after_queued cfg M K W).
Qed.

Lemma commands_invoked_in_queue_order_witness :
  ∃ s0 s1 s2,
    CoreThread_ctor multiThreaded 0 1 4 = Ok s0 ∧
    run multiThreaded shutdown_schedule_queued s0 = Some s1 ∧
    run multiThreaded (take 7 shutdown_schedule_drain) s1 = Some s2 ∧
    callback <$> enqueued s2 = [10; 11; 12] ∧
    callback <$> played s2 = [10; 11] ∧
    played s2 `prefix_of` enqueued s2.
Proof.
  eexists _, _, _. split; [reflexivity|].
  split; [vm_compute; reflexivity|]. split; [vm_compute; reflexivity|].
  split; [reflexivity|]. split; [reflexivity|].
  match goal with
  | |- played ?s `prefix_of` _ =>
      refine (proj1 (proj2 (commands_invoked_in_queue_order multiThreaded 0 1 4 s _)))
  end.
  reach_by (shutdown_schedule_queued ++ take 7 shutdown_schedule_drain).
Defined.

(** X4: Notify-ids are handed out in the order in which blocking commands
    enter the queue: a command is queued with a notify-id exactly when its
    submission blocks, and then with the current value of the counter; the
    [k]-th command with a notify-id, counted from 0, carries [k mod 2^32];
    and the counter stands at the number of such commands queued so far,
    modulo [2^32]. *)
Theorem notify_ids_count_blocking_commands cfg M K W s :
  reachable cfg M K W s →
  ids (enqueued s) = (λ k, Z.of_nat k mod 2 ^ 32)%Z <$> seq 0 (allocated s) ∧
  mMaxCommandNotifyId (self s) = (Z.of_nat (allocated s) mod 2 ^ 32)%Z ∧
  (0 ≤ mMaxCommandNotifyId (self s) < 2 ^ 32)%Z ∧
  ∀ l s', step_fn cfg l s = Some s' →
    enqueued s' = enqueued s ∨
    ∃ t call id, pcOf s t = QCrit call id ∧
      enqueued s' =
        enqueued s ++
        [queued call (if cBlock call
                      then Some (mMaxCommandNotifyId (self s)) else None)].
Proof.
  intros [H1 H2]%ids_inv_reachable. split; [|split; [|split]].
  - exact H1.
  - exact H2.
  - rewrite H2. apply Z.mod_pos_bound. reflexivity.
  - intros l s' Hl. unfold enqueued.
    destruct (trace_step _ _ _ _ Hl) as [->|(e & -> & He)]; [by left|].
    rewrite omap_app. destruct e; cbn [omap list_omap queuedOf];
      rewrite ?app_nil_r; try (by left).
    right. destruct He as (call & id & Hpc & ->). eauto.
Qed.

Lemma notify_ids_count_blocking_commands_witness :
  ∃ s0 s,
    CoreThread_ctor multiThreaded 0 1 4 = Ok s0 ∧
    run multiThreaded wrap_prefix_schedule s0 = Some s ∧
    ids (enqueued s) = [0; 1]%Z ∧
    mMaxCommandNotifyId (self s) = 2%Z.
Proof.
  eexists _, _. split; [reflexivity|]. split; [vm_compute; reflexivity|].
  split; [reflexivity|].
  match goal with
  | |- mMaxCommandNotifyId (self ?s0) = _ =>
      assert (Hr : reachable multiThreaded 0 1 4 s0)
        by reach_by wrap_prefix_schedule;
      destruct (notify_ids_count_blocking_commands multiThreaded 0 1 4 s0 Hr)
        as (_ & Hc & _)
  end.
  rewrite Hc. reflexivity.
Defined.

(** ** The synced accessor *)

Lemma initialised_wake pc : initialised (wakeCore pc) = initialised pc.
Proof. by destruct pc. Qed.

Lemma running_wake pc : running (wakeCore pc) = running pc.
Proof. by destruct pc. Qed.

Lemma synced_inv_reachable cfg M K W s :
  reachable cfg M K W s →
  (initialised (corePc s) = false → mSyncedCoreAccessor (self s) = None) ∧
  (running (corePc s) = true →
     ∃ p, mSyncedCoreAccessor (self s) = Some p ∧
          heap s !! p = Some (OCoreThreadAccessor true K)) ∧
  (initialised (corePc s) = true → running (corePc s) = false →
     ∃ p, mSyncedCoreAccessor (self s) = Some p ∧ heap s !! p = None).
Proof.
  revert s. apply reachable_ind'.
  - intros s0 _ [-> _]%ctor_inv.
    by destruct (CM_FORCE_SINGLETHREADED_RENDERING cfg).
  - intros s l s' Hr (Hnone & Hrun & Hgone) Hl.
    pose proof (heap_inv_reachable _ _ _ _ _ Hr) as [Hf Ha [b0 H0] [b1 H1] Hn Hb Hsy].
    pose proof (core_inv_reachable _ _ _ _ _ Hr) as [Htid _ _].
    assert (Hidx : ∀ i p, [0; 1] !! i = Some p → p = 0 ∨ p = 1).
    { intros [|[|i]] p; cbn; intros [= <-]; auto. }
    assert (Hk : ∀ k, coreTid s = Some k → k = K).
    { intros k Hk. rewrite Hk in Htid.
      destruct (CM_FORCE_SINGLETHREADED_RENDERING cfg); congruence. }
    step_cases Hl.
    all: unfold getFrameAlloc in *; sys_simpl.
    all: repeat match goal with
         | H : mFrameAllocs (self _) !! _ = Some _ |- _ => rewrite Hf in H
         | H : [0; 1] !! _ = Some _ |- _ => apply Hidx in H
         | H : coreTid _ = Some _ |- _ => apply Hk in H; subst
         end.
    all: rewrite ?initialised_wake, ?running_wake.
    all: repeat match goal with
         | H : corePc _ = _ |- _ => rewrite H in *
         end.
    all: cbn [initialised running] in *.
    all: try (split_and!; done).
    all: split_and!; try done; try (intros; discriminate).
    all: try (intros Hx; destruct (Hrun Hx) as (p & Hp & Hhp); exists p;
              split; [done|]; specialize (Hsy _ Hp);
              rewrite ?lookup_insert_ne by lia; done).
    all: try (intros Hx Hy; destruct (Hgone Hx Hy) as (p & Hp & Hhp); exists p;
              split; [done|]; specialize (Hsy _ Hp);
              rewrite ?lookup_insert_ne by lia; done).
    + intros _. exists (heapNext s). rewrite lookup_insert_eq.
      by rewrite (Hk n eq_refl).
    + intros _ _. eexists. split; [eassumption|]. by rewrite lookup_delete_eq.
Qed.

(** X5: [getSyncedAccessor] has an object to return exactly while the core
    thread is between the creation of the synced accessor and its deletion,
    and that object is the synchronised accessor made by the core thread.
    Before [runCoreThread] has created it the pointer is null; after the
    core thread has deleted it on its way out the pointer is left as it
    was, pointing at the deleted object. *)
Theorem synced_accessor_lifetime cfg M K W s :
  reachable cfg M K W s →
  getSyncedAccessor s =
    (if running (corePc s) then Some (OCoreThreadAccessor true K) else None) ∧
  (mSyncedCoreAccessor (self s) = None ↔ initialised (corePc s) = false) ∧
  (corePc s = CExit ∨ corePc s = CDone →
     ∃ p, mSyncedCoreAccessor (self s) = Some p ∧ heap s !! p = None).
Proof.
  intros Hr.
  destruct (synced_inv_reachable _ _ _ _ _ Hr) as (Hnone & Hrun & Hgone).
  unfold getSyncedAccessor. split_and!.
  - destruct (running (corePc s)) eqn:Hx.
    + destruct (Hrun eq_refl) as (p & -> & Hp). done.
    + destruct (initialised (corePc s)) eqn:Hy.
      * destruct (Hgone eq_refl eq_refl) as (p & -> & Hp). done.
      * by rewrite Hnone.
  - split; [|done]. intros Hs.
    destruct (initialised (corePc s)) eqn:Hy; [|done].
    destruct (running (corePc s)) eqn:Hx.
    + destruct (Hrun eq_refl) as (p & Hp & _). congruence.
    + destruct (Hgone eq_refl eq_refl) as (p & Hp & _). congruence.
  - intros [Hpc|Hpc]; rewrite Hpc in Hgone; by apply Hgone.
Qed.

Lemma synced_accessor_lifetime_witness :
  ∃ s0 s1 s2,
    CoreThread_ctor multiThreaded 0 1 4 = Ok s0 ∧
    run multiThreaded shutdown_schedule_queued s0 = Some s1 ∧
    run multiThreaded shutdown_schedule_drain s1 = Some s2 ∧
    getSyncedAccessor s0 = None ∧
    getSyncedAccessor s1 = Some (OCoreThreadAccessor true 1) ∧
    getSyncedAccessor s2 = None ∧
    mSyncedCoreAccessor (self s2) = Some 2.
Proof.
  eexists _, _, _. split; [reflexivity|].
  split; [vm_compute; reflexivity|]. split; [vm_compute; reflexivity|].
  split; [reflexivity|]. split; [|split; reflexivity].
  match goal with
  | |- getSyncedAccessor ?s = _ =>
      rewrite (proj1 (synced_accessor_lifetime multiThreaded 0 1 4 s
        ltac:(reach_by shutdown_schedule_queued)))
  end.
  reflexivity.
Defined.

(** X6: in the lifetime of the first [CoreThread] of a process,
    [submitAccessors] goes through [mSyncedCoreAccessor]: called before the
    core thread has created the synced accessor it has a null pointer to
    go through, and called after the core thread has deleted it, a pointer
    to a deleted object.  While the core thread runs, the calls it makes
    are one per thread that has called [getAccessor], each on that
    thread's unsynchronised accessor, the i-th call on the accessor of the
    i-th container of the registry, followed by one on the live synced
    accessor, all with the caller's [blockUntilComplete].  The registry is
    in the order of registration: a step leaves it as it is or is a
    thread's first [getAccessor], which appends that thread's container. *)
Theorem submitAccessors_calls cfg M K W s block :
  reachable cfg M K W s →
  (running (corePc s) = false → submitAccessors block s = None) ∧
  (running (corePc s) = true →
     ∃ accs synced,
       submitAccessors block s =
         Some (((λ a, (a, block)) <$> accs) ++ [(synced, block)]) ∧
       Forall2 (λ c a, heap s !! c = Some (OAccessorContainer a))
               (mAccessors (self s)) accs ∧
       NoDup accs ∧
       (∀ a, a ∈ accs ↔ ∃ t c, mAccessor s !! t = Some c ∧
                               heap s !! c = Some (OAccessorContainer a) ∧
                               heap s !! a = Some (OCoreThreadAccessor false t)) ∧
       heap s !! synced = Some (OCoreThreadAccessor true K)) ∧
  (∀ l s', step_fn cfg l s = Some s' →
     mAccessors (self s') = mAccessors (self s) ∨
     ∃ t c, l = CallGetAccessor t ∧ mAccessor s !! t = None ∧
            mAccessor s' !! t = Some c ∧
            mAccessors (self s') = mAccessors (self s) ++ [c]).
Proof.
  intros Hr.
  destruct (synced_inv_reachable _ _ _ _ _ Hr) as (Hnone & Hrun & Hgone).
  pose proof (acc_inv_reachable _ _ _ _ _ Hr) as Ha.
  destruct (registry_accessors _ Ha) as (accs & Hm & Hnd & Hlen & Hiff).
  split_and!.
  - intros Hx. unfold submitAccessors.
    rewrite (registry_calls _ _ Ha Hm). cbn [mbind option_bind].
    destruct (initialised (corePc s)) eqn:Hy.
    + destruct (Hgone eq_refl Hx) as (p & -> & Hp). cbn [mbind option_bind].
      unfold deref_accessor. by rewrite Hp.
    + by rewrite Hnone.
  - intros Hx. unfold submitAccessors.
    rewrite (registry_calls _ _ Ha Hm). cbn [mbind option_bind].
    destruct (Hrun Hx) as (p & -> & Hp). cbn [mbind option_bind].
    unfold deref_accessor. rewrite Hp. cbn [mbind option_bind].
    exists accs, p. rewrite fmap_app. split_and!; try done.
    + apply mapM_Some in Hm. eapply Forall2_impl; [exact Hm|].
      intros c a Hd. unfold deref_container in Hd.
      destruct (heap s !! c) as [[]|]; try done. by injection Hd as ->.
    + intros a. rewrite Hiff. destruct Ha as [_ Htls _ _].
      unfold deref_container. split.
      * intros (t & c & Ht & Hd). exists t, c.
        destruct (Htls _ _ Ht) as (_ & a' & Hc & Ha'). rewrite Hc in Hd.
        injection Hd as <-. done.
      * intros (t & c & Ht & Hc & _). exists t, c. by rewrite Hc.
  - intros l s' Hl. clear Hm Hnd Hlen Hiff Hnone Hrun Hgone.
    destruct l; cbn [step_fn] in Hl;
      try (left; step_cases Hl; sys_simpl; done).
    destruct (mayCall t s); [|done].
    destruct (getAccessor t s) as [[a s1]|] eqn:Hg; [|done]. injection Hl as <-.
    apply getAccessor_Some in Hg as [(Ht & _ & ->)|(c & _ & _ & ->)]; [|by left].
    right. exists t, (S (heapNext s)). sys_simpl. by rewrite lookup_insert_eq.
Qed.

Lemma submitAccessors_calls_witness :
  ∃ s0 s s',
    CoreThread_ctor multiThreaded 0 1 4 = Ok s0 ∧
    run multiThreaded [CallGetAccessor 5; Core; Core; CallGetAccessor 6] s0 = Some s ∧
    run multiThreaded (shutdown_schedule_queued ++ shutdown_schedule_drain) s0 =
      Some s' ∧
    running (corePc s0) = false ∧
    submitAccessors true s0 = None ∧
    mAccessors (self s) = [3; 6] ∧
    submitAccessors true s = Some [(2, true); (5, true); (4, true)] ∧
    corePc s' = CDone ∧
    submitAccessors true s' = None.
Proof.
  eexists _, _, _. split; [reflexivity|]. split; [vm_compute; reflexivity|].
  split; [vm_compute; reflexivity|]. split; [reflexivity|].
  split.
  { refine (proj1 (submitAccessors_calls multiThreaded 0 1 4 _ true _) _);
      [reach_by (@nil Label) | reflexivity]. }
  split; [reflexivity|]. split; [vm_compute; reflexivity|].
  split; [reflexivity|].
  refine (proj1 (submitAccessors_calls multiThreaded 0 1 4 _ true _) _);
    [reach_by (shutdown_schedule_queued ++ shutdown_schedule_drain) | reflexivity].
Defined.

(** ** The accessor of the calling thread *)

Lemma getAccessor_owned t s :
  heap_inv s → acc_inv s →
  ∃ a s1 c, getAccessor t s = Some (a, s1) ∧ heap_inv s1 ∧ acc_inv s1 ∧
    mAccessor s1 !! t = Some c ∧ deref_container s1 c = Some a ∧
    heap s1 !! a = Some (OCoreThreadAccessor false t).
Proof.
  intros Hh Ha.
  assert (∃ a s1, getAccessor t s = Some (a, s1)) as (a & s1 & Hg).
  { unfold getAccessor, cm_new. cbv beta iota zeta.
    destruct (mAccessor s !! t) as [c|] eqn:Hc.
    - rewrite Hc. cbn [mbind option_bind].
      destruct Ha as [_ Htls _ _]. destruct (Htls _ _ Hc) as (_ & a & Hca & _).
      unfold deref_container. rewrite Hca. cbn [mbind option_bind]. eauto.
    - sys_simpl. rewrite lookup_insert_eq. cbn [mbind option_bind].
      unfold deref_container. sys_simpl. rewrite lookup_insert_eq.
      cbn [mbind option_bind]. eauto. }
  destruct (getAccessor_preserves _ _ _ _ Hh Ha Hg) as [Hh1 Ha1].
  assert (Hcached : ∃ c, mAccessor s1 !! t = Some c ∧ deref_container s1 c = Some a).
  { pose proof Hg as Hg'.
    apply getAccessor_Some in Hg' as [(Hnone & -> & ->)|(c & Hc & Hd & ->)]; [|eauto].
    exists (S (heapNext s)). sys_simpl. unfold deref_container. sys_simpl.
    by rewrite !lookup_insert_eq. }
  destruct Hcached as (c & Hc & Hd). exists a, s1, c. split_and!; try done.
  destruct Ha1 as [_ Htls _ _]. destruct (Htls _ _ Hc) as (_ & a' & Hc' & Ha').
  unfold deref_container in Hd. rewrite Hc' in Hd. by injection Hd as <-.
Qed.

(** ** What a destroyed [CoreThread] leaves behind *)

Lemma sweep_containers l s :
  mAccessor (foldl (λ s' c, cm_delete (Some c) s') s l) = mAccessor s ∧
  heapNext (foldl (λ s' c, cm_delete (Some c) s') s l) = heapNext s ∧
  self (foldl (λ s' c, cm_delete (Some c) s') s l) = self s ∧
  ∀ p, p ∈ l → heap (foldl (λ s' c, cm_delete (Some c) s') s l) !! p = None.
Proof.
  assert (Hgone : ∀ l s p, heap s !! p = None →
            heap (foldl (λ s' c, cm_delete (Some c) s') s l) !! p = None).
  { clear. induction l as [|c l IH]; intros s p Hp; [done|].
    cbn [foldl]. apply IH. unfold cm_delete. sys_simpl.
    rewrite lookup_delete_None. by right. }
  revert s. induction l as [|c l IH]; intros s.
  - split_and!; try done. by intros p ?%elem_of_nil.
  - cbn [foldl]. destruct (IH (cm_delete (Some c) s)) as (H1 & H2 & H3 & H4).
    rewrite H1, H2, H3. unfold cm_delete at 1 2 3. sys_simpl.
    split_and!; try done.
    intros p [->|Hin]%elem_of_cons; [|by apply H4].
    apply Hgone. unfold cm_delete. sys_simpl. apply lookup_delete_eq.
Qed.

Lemma dtor_inv cfg td s p :
  CoreThread_dtor cfg td s = Some p →
  ∃ s1, steps cfg s s1 ∧ tls p = mAccessor s1 ∧ nextObject p = heapNext s1 ∧
        ∀ c, c ∈ mAccessors (self s1) → objects p !! c = None.
Proof.
  unfold CoreThread_dtor. intros Hd.
  match type of Hd with
  | (?m ≫= _) = _ => destruct m as [s1|] eqn:Hs1; [|done]
  end.
  cbn [mbind option_bind] in Hd. injection Hd as <-.
  exists s1. split.
  { destruct (CM_FORCE_SINGLETHREADED_RENDERING cfg).
    - injection Hs1 as ->. apply rtc_refl.
    - by eapply steps_run. }
  destruct (sweep_containers (mAccessors (self s1)) s1) as (H1 & H2 & H3 & H4).
  cbn [tls objects nextObject].
  unfold cm_delete.
  repeat match goal with
  | |- context [match ?x with Some _ => _ | None => _ end] => destruct x
  end; sys_simpl; rewrite ?H1, ?H2; split_and!; try done;
    intros c Hc; rewrite ?lookup_delete_None; auto.
Qed.

Lemma ctor_in_inv cfg M K p s' :
  CoreThread_ctor_in cfg M K p = Ok s' →
  mAccessor s' = tls p ∧
  heap s' = <[S (nextObject p) := OFrameAlloc []]>
              (<[nextObject p := OFrameAlloc []]> (objects p)).
Proof.
  unfold CoreThread_ctor_in, initCoreThread, cm_new. cbv beta iota zeta.
  destruct (CM_FORCE_SINGLETHREADED_RENDERING cfg), (CM_THREAD_SUPPORT cfg);
    intros H; try discriminate H; injection H as <-; auto.
Qed.

(** X7: in the lifetime of the first [CoreThread] of a process,
    [gCoreAccessor] goes through no null or dangling pointer: on any
    thread it yields an unsynchronised accessor created for that very
    thread, never the synced accessor and never another thread's, and it
    keeps yielding the same object, without changing anything, whatever
    the system does afterwards.  The thread-local slot outlives the
    [CoreThread]: once the destructor has deleted the containers, the
    slot of a thread that has called [getAccessor] points at a deleted
    container, and on any [CoreThread] constructed afterwards that
    thread's [getAccessor] and [gCoreAccessor] have no object to go
    through. *)
Theorem gCoreAccessor_is_the_callers_own cfg M K W s t :
  reachable cfg M K W s →
  ∃ a s1,
    getAccessor t s = Some (a, s1) ∧
    gCoreAccessor t s = Some (OCoreThreadAccessor false t, s1) ∧
    mSyncedCoreAccessor (self s1) ≠ Some a ∧
    (∀ t' a' s', t' ≠ t → getAccessor t' s1 = Some (a', s') → a' ≠ a) ∧
    ∀ s2, steps cfg s1 s2 →
      getAccessor t s2 = Some (a, s2) ∧
      gCoreAccessor t s2 = Some (OCoreThreadAccessor false t, s2) ∧
      ∀ td p cfg' M' K' s',
        CoreThread_dtor cfg td s2 = Some p →
        CoreThread_ctor_in cfg' M' K' p = Ok s' →
        is_Some (mAccessor s' !! t) ∧
        getAccessor t s' = None ∧ gCoreAccessor t s' = None.
Proof.
  intros Hr.
  pose proof (heap_inv_reachable _ _ _ _ _ Hr) as Hh.
  pose proof (acc_inv_reachable _ _ _ _ _ Hr) as Ha.
  destruct (getAccessor_owned t s Hh Ha) as (a & s1 & c & Hg & Hh1 & Ha1 & Hc & Hd & Hobj).
  exists a, s1. split_and!.
  - done.
  - unfold gCoreAccessor. rewrite Hg. cbn. by rewrite Hobj.
  - intros Hsy. destruct Ha1 as [_ _ _ Hsyn].
    destruct (Hsyn _ _ Hsy Hobj). congruence.
  - intros t' a' s' Hne Hg' ->.
    destruct (getAccessor_owned t' s1 Hh1 Ha1) as (a2 & s2 & c2 & Hg2 & _ & _ & _ & _ & Hobj2).
    rewrite Hg' in Hg2. injection Hg2 as <- <-.
    assert (heap s' !! a = Some (OCoreThreadAccessor false t)) as Hobj'.
    { apply getAccessor_Some in Hg' as [(_ & _ & ->)|(_ & _ & _ & ->)]; [|done].
      sys_simpl. destruct Hh1 as [_ _ _ _ _ Hb _].
      assert (a < heapNext s1) by (apply Hb; eauto).
      by rewrite !lookup_insert_ne by lia. }
    congruence.
  - intros s2 Hs2.
    destruct (tls_stable_steps _ _ _ _ _ _ Hh1 Ha1 Hs2 Hc Hd) as [Hc2 Hd2].
    destruct (heap_inv_steps _ _ _ Hh1 Ha1 Hs2) as [Hh2 Ha2].
    pose proof (getAccessor_cached _ _ _ _ Hc2 Hd2) as Hg2.
    split; [done|]. split.
    { unfold gCoreAccessor. rewrite Hg2. cbn.
      destruct Ha2 as [_ Htls _ _]. destruct (Htls _ _ Hc2) as (_ & a' & Hc' & Ha').
      unfold deref_container in Hd2. rewrite Hc' in Hd2. injection Hd2 as ->.
      by rewrite Ha'. }
    intros td p cfg' M' K' s' Hdt Hct.
    destruct (dtor_inv _ _ _ _ Hdt) as (s3 & Hs3 & Htls & Hnext & Hgone).
    destruct (tls_stable_steps _ _ _ _ _ _ Hh2 Ha2 Hs3 Hc2 Hd2) as [Hc3 Hd3].
    destruct (heap_inv_steps _ _ _ Hh2 Ha2 Hs3) as [Hh3 Ha3].
    destruct (ctor_in_inv _ _ _ _ _ Hct) as [Hm' Hheap'].
    assert (Hc' : mAccessor s' !! t = Some c) by (by rewrite Hm', Htls).
    assert (Hnone : heap s' !! c = None).
    { rewrite Hheap', Hnext.
      destruct Ha3 as [_ Htls3 _ _]. destruct (Htls3 _ _ Hc3) as (Hin & a' & Hca & _).
      destruct Hh3 as [_ _ _ _ _ Hb _].
      assert (c < heapNext s3) by (apply Hb; eauto).
      rewrite !lookup_insert_ne by lia. by apply Hgone. }
    assert (Hg' : getAccessor t s' = None).
    { unfold getAccessor. rewrite Hc'. cbn [mbind option_bind]. rewrite Hc'.
      cbn [mbind option_bind]. unfold deref_container. by rewrite Hnone. }
    split_and!; [eauto|done|]. unfold gCoreAccessor. by rewrite Hg'.
Qed.

Lemma gCoreAccessor_is_the_callers_own_witness :
  ∃ s0 s p s',
    CoreThread_ctor multiThreaded 0 1 4 = Ok s0 ∧
    run multiThreaded [Core; Core; CallGetAccessor 5] s0 = Some s ∧
    (fst <$> gCoreAccessor 5 s) = Some (OCoreThreadAccessor false 5) ∧
    (fst <$> gCoreAccessor 6 s) = Some (OCoreThreadAccessor false 6) ∧
    CoreThread_dtor multiThreaded 0 s = Some p ∧
    CoreThread_ctor_in multiThreaded 0 1 p = Ok s' ∧
    gCoreAccessor 5 s' = None.
Proof.
  eexists _, _, _, _. split; [reflexivity|]. split; [vm_compute; reflexivity|].
  match goal with
  | |- (fst <$> gCoreAccessor 5 ?s0) = _ ∧ _ =>
      assert (Hr : reachable multiThreaded 0 1 4 s0)
        by reach_by [Core; Core; CallGetAccessor 5];
      destruct (gCoreAccessor_is_the_callers_own multiThreaded 0 1 4 s0 5 Hr)
        as (a5 & s5 & Hg5 & H5 & _ & _ & Hlater);
      destruct (gCoreAccessor_is_the_callers_own multiThreaded 0 1 4 s0 6 Hr)
        as (a6 & s6 & _ & H6 & _)
  end.
  rewrite H5, H6. split; [reflexivity|]. split; [reflexivity|].
  split; [vm_compute; reflexivity|]. split; [vm_compute; reflexivity|].
  vm_compute in Hg5. injection Hg5 as <- <-.
  refine (proj2 (proj2 (proj2 (proj2 (Hlater _ (rtc_refl _ _)))
            0 _ multiThreaded 0 1 _ _ _))); vm_compute; reflexivity.
Defined.

(** ** Forced single-threaded rendering *)

Lemma queueing_wake pc : queueing (wakeProd pc) = queueing pc.
Proof. by destruct pc. Qed.

Lemma single_inv_reachable cfg M K W s :
  CM_FORCE_SINGLETHREADED_RENDERING cfg = true →
  reachable cfg M K W s →
  played s = [] ∧ mCommandsCompleted (self s) = [] ∧
  mCoreThreadShutdown (self s) = false ∧ mCoreThreadId (self s) = M ∧
  mSyncedCoreAccessor (self s) = None ∧ mMaxActiveTasks s = W ∧
  mCommandNotifyMutex (self s) = None ∧
  ∀ t, queueing (default Idle (pcs s !! t)) = true.
Proof.
  intros Hflag. revert s. apply reachable_ind'.
  - intros s0 _ [-> _]%ctor_inv. rewrite Hflag. by split_and!.
  - intros s l s' Hr (Hpl & Hco & Hsh & Hid & Hsy & Hw & Hnm & Hpcs) Hl.
    pose proof (core_inv_reachable _ _ _ _ _ Hr) as [Htid Hnone _].
    rewrite Hflag in Htid. specialize (Hnone Hflag).
    step_cases Hl; try congruence.
    all: try (unfold played in *; sys_simpl; rewrite ?omap_app, ?Hpl;
              cbn [omap list_omap invokedOf]).
    all: split_and!; try done.
    all: try (intros t'; rewrite ?pc_insert, ?pc_wake, ?queueing_wake;
              try case_decide; subst; done).
    all: match goal with
         | H : default Idle (pcs _ !! ?t) = _ |- _ =>
             specialize (Hpcs t); rewrite H in Hpcs; done
         end.
Qed.

(** X8: In a build that forces single-threaded rendering no core thread exists
    and nothing is ever played: commands submitted by a thread other than
    the constructing one are appended to the queue and stay there, no
    thread ever enters [blockUntilCommandCompleted] or the locked section
    of [shutdownCoreThread], the completed-commands set stays empty, the
    worker capacity is untouched and the constructing thread remains the
    recorded core thread. *)
Theorem single_threaded_build_is_inert cfg M K W s :
  CM_FORCE_SINGLETHREADED_RENDERING cfg = true →
  reachable cfg M K W s →
  corePc s = CNone ∧ coreTid s = None ∧
  played s = [] ∧ mCommandQueue (self s) = enqueued s ∧
  mCommandsCompleted (self s) = [] ∧
  mCoreThreadShutdown (self s) = false ∧ mCoreThreadId (self s) = M ∧
  mSyncedCoreAccessor (self s) = None ∧ mMaxActiveTasks s = W ∧
  (∀ t, blockedOn (pcOf s t) = None ∧ inShutdown (pcOf s t) = false) ∧
  (∀ t, shutdownCoreThread cfg t s = s).
Proof.
  intros Hflag Hr.
  destruct (single_inv_reachable _ _ _ _ _ Hflag Hr)
    as (Hpl & Hco & Hsh & Hid & Hsy & Hw & Hnm & Hpcs).
  pose proof (core_inv_reachable _ _ _ _ _ Hr) as [Htid Hnone _].
  pose proof (fifo_inv_reachable _ _ _ _ _ Hr) as Hfifo.
  rewrite Hflag in Htid. specialize (Hnone Hflag).
  rewrite Hpl, Hnone in Hfifo. cbn in Hfifo.
  split_and!; try done.
  - intros t. specialize (Hpcs t). unfold pcOf.
    by destruct (default Idle (pcs s !! t)).
  - intros t. unfold shutdownCoreThread. by rewrite Hflag.
Qed.

Lemma single_threaded_build_is_inert_witness :
  ∃ s0 s,
    CoreThread_ctor singleThreaded 0 1 4 = Ok s0 ∧
    run singleThreaded
      (blocking_schedule_single ++ [CallShutdownCoreThread 5; CallQueueCommand 0 9 true])
      s0 = Some s ∧
    callback <$> mCommandQueue (self s) = [7] ∧
    played s = [] ∧
    trace s =
      [EvQueue 5 {| returnsValue := false; callback := 7; notifyId := Some 0%Z |};
       EvReturn 5 {| returnsValue := false; callback := 7; notifyId := Some 0%Z |};
       EvImmediate 0 {| cReturn := false; cCallback := 9; cBlock := true |}].
Proof.
  eexists _, _. split; [reflexivity|]. split; [vm_compute; reflexivity|].
  split; [reflexivity|]. split; [|reflexivity].
  match goal with
  | |- played ?s = _ =>
      refine (proj1 (proj2 (proj2
        (single_threaded_build_is_inert singleThreaded 0 1 4 s eq_refl _))))
  end.
  eapply (reachable_run singleThreaded 0 1 4 _
            (blocking_schedule_single ++
             [CallShutdownCoreThread 5; CallQueueCommand 0 9 true]));
    [lia | reflexivity | vm_compute; reflexivity].
Defined.

(** ** The recorded core thread *)

Lemma pastShutdownSection_wake pc :
  pastShutdownSection (wakeProd pc) = pastShutdownSection pc.
Proof. by destruct pc. Qed.

Lemma coreid_inv_reachable cfg M K W s :
  CM_FORCE_SINGLETHREADED_RENDERING cfg = false →
  reachable cfg M K W s →
  mCoreThreadShutdown (self s) = false →
  (∀ t, pastShutdownSection (default Idle (pcs s !! t)) = false) ∧
  mCoreThreadId (self s) = (if initialised (corePc s) then K else M).
Proof.
  intros Hflag. revert s.
  apply (reachable_ind' cfg M K W (λ s,
    mCoreThreadShutdown (self s) = false →
    (∀ t, pastShutdownSection (default Idle (pcs s !! t)) = false) ∧
    mCoreThreadId (self s) = (if initialised (corePc s) then K else M))).
  - intros s0 _ [-> _]%ctor_inv. by rewrite Hflag.
  - intros s l s' Hr IH Hl.
    pose proof (core_inv_reachable _ _ _ _ _ Hr) as [Htid _ _].
    rewrite Hflag in Htid.
    step_cases Hl; try congruence.
    all: rewrite ?initialised_wake.
    all: intros Hsh; try discriminate Hsh; try congruence;
      first [ destruct (IH Hsh) as [Hpcs Hid] | destruct (IH eq_refl) as [Hpcs Hid] ].
    all: try match goal with
         | H : default Idle (pcs _ !! ?t) = _ |- _ =>
             pose proof (Hpcs t) as Hpt; rewrite H in Hpt; try discriminate Hpt
         end.
    all: repeat match goal with
         | H : corePc _ = _ |- _ => rewrite H in *
         end.
    all: cbn [initialised] in *.
    all: split; try done; try congruence.
    all: try (intros t'; rewrite ?pc_insert, ?pc_wake, ?pastShutdownSection_wake;
              try case_decide; subst; done).
Qed.

(** X9: The recorded core-thread id, which the guards and the immediate
    branch of the submission calls compare against: in a multi-threaded
    build, and until a shutdown has been requested, it is the constructing
    thread up to the moment the core thread has stored its own id and the
    core thread from then on.  In that first window a submission by the
    constructing thread runs its callback at once on the constructing
    thread instead of queueing it. *)
Theorem recorded_core_thread_before_shutdown cfg M K W s :
  CM_FORCE_SINGLETHREADED_RENDERING cfg = false →
  reachable cfg M K W s →
  mCoreThreadShutdown (self s) = false →
  mCoreThreadId (self s) = (if initialised (corePc s) then K else M) ∧
  (initialised (corePc s) = false →
     ∀ cb b, queueCommand M cb b s =
             log (EvImmediate M {| cReturn := false; cCallback := cb; cBlock := b |}) s) ∧
  (initialised (corePc s) = true →
     ∀ t cb b, t ≠ K →
       queueCommand t cb b s =
       set_pc t (QLock {| cReturn := false; cCallback := cb; cBlock := b |}
                       (to_UINT32 (-1))) s) ∧
  (∀ t, throwIfNotCoreThread cfg t s = Ok () ↔
        t = (if initialised (corePc s) then K else M)).
Proof.
  intros Hflag Hr Hsh.
  destruct (coreid_inv_reachable _ _ _ _ _ Hflag Hr Hsh) as [_ Hid].
  split_and!; [done| | |].
  - intros Hi cb b. rewrite Hi in Hid. unfold queueCommand, submit.
    by rewrite Hid, decide_True.
  - intros Hi t cb b Hne. rewrite Hi in Hid. unfold queueCommand, submit.
    by rewrite Hid, decide_False.
  - intros t. unfold throwIfNotCoreThread. rewrite Hflag, Hid.
    destruct (decide (t ≠ _)) as [Hne|Heq]; split; try done.
    intros _. by destruct (decide (t = if initialised (corePc s) then K else M)).
Qed.

Lemma recorded_core_thread_before_shutdown_witness :
  ∃ s0 s,
    CoreThread_ctor multiThreaded 0 1 4 = Ok s0 ∧
    run multiThreaded [Core; Core] s0 = Some s ∧
    mCoreThreadId (self s0) = 0 ∧ mCoreThreadId (self s) = 1.
Proof.
  eexists _, _. split; [reflexivity|]. split; [vm_compute; reflexivity|].
  split.
  - match goal with
    | |- mCoreThreadId (self ?s) = _ =>
        refine (proj1 (recorded_core_thread_before_shutdown multiThreaded 0 1 4 s
                         eq_refl _ eq_refl))
    end.
    reach_by (@nil Label).
  - match goal with
    | |- mCoreThreadId (self ?s) = _ =>
        refine (proj1 (recorded_core_thread_before_shutdown multiThreaded 0 1 4 s
                         eq_refl _ eq_refl))
    end.
    reach_by [Core; Core].
Defined.

(** ** Frame data across updates *)

Ltac frame_simpl Hf H0 H1 :=
  repeat first
    [ progress (unfold frameAlloc, update, getFrameAlloc, arena)
    | progress sys_simpl
    | rewrite Hf
    | rewrite next_index_0
    | rewrite next_index_1
    | progress change ([0; 1] !! Z.to_nat 0) with (Some 0)
    | progress change ([0; 1] !! Z.to_nat 1) with (Some 1)
    | rewrite lookup_insert_eq
    | rewrite lookup_insert_ne by done
    | rewrite H0
    | rewrite H1
    | progress cbn [mbind option_bind] ].

(** X10: What is allocated from the frame allocator lives for one [update] and
    no longer: an allocation goes into the active arena and leaves the
    other one alone; the next [update] makes the other arena the active
    one, cleared, and keeps the allocation; the [update] after that brings
    the first arena back as the active one, emptied. *)
Theorem frame_data_lives_for_one_update cfg M K W s n :
  reachable cfg M K W s →
  ∃ p p' blocks s1 s2 s3,
    p' ≠ p ∧ getFrameAlloc s = Some p ∧
    arena s p = Some blocks ∧ is_Some (arena s p') ∧
    frameAlloc n s = Some s1 ∧ getFrameAlloc s1 = Some p ∧
    arena s1 p = Some (blocks ++ [n]) ∧ arena s1 p' = arena s p' ∧
    update s1 = Some s2 ∧ getFrameAlloc s2 = Some p' ∧
    arena s2 p = Some (blocks ++ [n]) ∧ arena s2 p' = Some [] ∧
    update s2 = Some s3 ∧ getFrameAlloc s3 = Some p ∧
    arena s3 p = Some [] ∧ arena s3 p' = Some [].
Proof.
  intros [Hf Ha [b0 H0] [b1 H1] _ _ _]%heap_inv_reachable.
  destruct Ha as [Ha|Ha].
  - exists 0, 1, b0. eexists _, _, _.
    split; [done|]. split; [by frame_simpl Hf H0 H1; rewrite Ha|].
    split; [by frame_simpl Hf H0 H1|]. split; [by frame_simpl Hf H0 H1|].
    split; [frame_simpl Hf H0 H1; rewrite Ha; frame_simpl Hf H0 H1; reflexivity|].
    split; [by frame_simpl Hf H0 H1; rewrite Ha|].
    split; [by frame_simpl Hf H0 H1|]. split; [by frame_simpl Hf H0 H1|].
    split; [frame_simpl Hf H0 H1; rewrite Ha; frame_simpl Hf H0 H1; reflexivity|].
    split_and!; by frame_simpl Hf H0 H1.
  - exists 1, 0, b1. eexists _, _, _.
    split; [done|]. split; [by frame_simpl Hf H0 H1; rewrite Ha|].
    split; [by frame_simpl Hf H0 H1|]. split; [by frame_simpl Hf H0 H1|].
    split; [frame_simpl Hf H0 H1; rewrite Ha; frame_simpl Hf H0 H1; reflexivity|].
    split; [by frame_simpl Hf H0 H1; rewrite Ha|].
    split; [by frame_simpl Hf H0 H1|]. split; [by frame_simpl Hf H0 H1|].
    split; [frame_simpl Hf H0 H1; rewrite Ha; frame_simpl Hf H0 H1; reflexivity|].
    split_and!; by frame_simpl Hf H0 H1.
Qed.

Lemma frame_data_lives_for_one_update_witness :
  ∃ s0 s,
    CoreThread_ctor multiThreaded 0 1 4 = Ok s0 ∧
    run multiThreaded frames_schedule s0 = Some s ∧
    arena s 0 = Some [8] ∧ arena s 1 = Some [16] ∧
    ∃ s1 s2 s3,
      frameAlloc 32 s = Some s1 ∧ update s1 = Some s2 ∧ update s2 = Some s3 ∧
      arena s1 1 = Some [16; 32] ∧ arena s2 1 = Some [16; 32] ∧
      arena s3 1 = Some [] ∧ getFrameAlloc s3 = Some 1.
Proof.
  eexists _, _. split; [reflexivity|]. split; [vm_compute; reflexivity|].
  split; [reflexivity|]. split; [reflexivity|].
  match goal with
  | |- ∃ s1 s2 s3, frameAlloc 32 ?s = _ ∧ _ =>
      destruct (frame_data_lives_for_one_update multiThreaded 0 1 4 s 32
                  ltac:(reach_by frames_schedule))
        as (p & p' & blocks & s1 & s2 & s3 & Hne & Hp & Hb & _ & Hs1 & _ &
            Ha1 & _ & Hs2 & _ & Ha2 & _ & Hs3 & Hg3 & Ha3 & _)
  end.
  assert (p = 1) as -> by (vm_compute in Hp; by injection Hp).
  assert (blocks = [16]) as -> by (vm_compute in Hb; by injection Hb).
  exists s1, s2, s3. by split_and!.
Defined.

(** ** After the core thread has left *)

Lemma after_exit_steps cfg s s' :
  corePc s = CDone → steps cfg s s' →
  corePc s' = CDone ∧ played s' = played s.
Proof.
  intros Hd Hs. induction Hs as [|x y z [l Hl] _ IH]; [done|].
  destruct IH as [IH1 IH2]; [by eapply exited_step|]. split; [done|].
  rewrite IH2. unfold played.
  destruct (trace_step _ _ _ _ Hl) as [->|(e & -> & He)]; [done|].
  rewrite omap_app. destruct e; cbn; rewrite ?app_nil_r; try done.
  destruct He as (_ & cs & Hpc). congruence.
Qed.

(** X11: Once the core thread has left [runCoreThread] nothing is invoked any
    more.  Submissions are still accepted: their commands pile up in the
    queue behind what was played before the exit, and a blocking call
    whose command sits there has not returned, however long the system
    has been running since. *)
Theorem nothing_is_invoked_after_exit cfg M K W s s' :
  reachable cfg M K W s → corePc s = CDone → steps cfg s s' →
  corePc s' = CDone ∧ played s' = played s ∧
  enqueued s' = played s ++ mCommandQueue (self s') ∧
  ((Z.of_nat (allocated s') ≤ UINT32_modulus)%Z →
   ∀ t q, q ∈ mCommandQueue (self s') → is_Some (notifyId q) →
          EvReturn t q ∉ trace s').
Proof.
  intros Hr Hd Hs. destruct (after_exit_steps _ _ _ Hd Hs) as [Hd' Hpl].
  pose proof (reachable_steps _ _ _ _ _ _ Hr Hs) as Hr'.
  pose proof (fifo_inv_reachable _ _ _ _ _ Hr') as Hfifo.
  rewrite Hd', Hpl in Hfifo. cbn [batch app] in Hfifo.
  split_and!; try done.
  intros Hbound t q Hq [i Hi] Hret.
  assert (Hflag : CM_FORCE_SINGLETHREADED_RENDERING cfg = false).
  { pose proof (core_inv_reachable _ _ _ _ _ Hr) as [_ Hnone _].
    destruct (CM_FORCE_SINGLETHREADED_RENDERING cfg); [|done].
    rewrite Hnone in Hd; done. }
  apply list_elem_of_split in Hret as (pre & post & Htr).
  pose proof (returned_inv_reachable _ _ _ _ _ Hflag Hr' Hbound _ _ _ _ _ Htr Hi) as Hinv.
  assert (Hin : q ∈ played s).
  { rewrite <- Hpl. unfold played. rewrite Htr, omap_app.
    apply elem_of_app. by left. }
  pose proof (ids_NoDup _ _ _ _ _ Hr' Hbound) as Hnd.
  rewrite Hfifo, ids_app in Hnd. apply NoDup_app in Hnd as (_ & Hdisj & _).
  apply (Hdisj i); by eapply elem_of_ids.
Qed.

Lemma nothing_is_invoked_after_exit_witness :
  ∃ s0 s1 s2 s3,
    CoreThread_ctor multiThreaded 0 1 4 = Ok s0 ∧
    run multiThreaded shutdown_schedule_queued s0 = Some s1 ∧
    run multiThreaded shutdown_schedule_drain s1 = Some s2 ∧
    run multiThreaded late_submission_schedule s2 = Some s3 ∧
    corePc s2 = CDone ∧
    callback <$> mCommandQueue (self s3) = [77] ∧
    (∃ call id, pcOf s3 5 = BWait call id) ∧
    played s3 = played s2.
Proof.
  eexists _, _, _, _. split; [reflexivity|].
  split; [vm_compute; reflexivity|]. split; [vm_compute; reflexivity|].
  split; [vm_compute; reflexivity|]. split; [reflexivity|].
  split; [reflexivity|]. split; [by eexists _, _|].
  match goal with
  | |- played ?s3 = played ?s2 =>
      refine (proj1 (proj2
        (nothing_is_invoked_after_exit multiThreaded 0 1 4 s2 s3 _ eq_refl _)))
  end.
  - reach_by (shutdown_schedule_queued ++ shutdown_schedule_drain).
  - apply (steps_run multiThreaded late_submission_schedule).
    vm_compute. reflexivity.
Defined.

(** ** Completion records *)

Ltac history_simpl :=
  unfold returned in *; trace_simpl;
  cbn [omap list_omap returnedOf invokedOf queuedOf commandOf queued notifyId] in *;
  rewrite ?app_nil_r in *.

(** Every invocation of a command with a notify-id leaves one record,
    which is on its way into the completed set, in it, or has been taken
    out by the one call that returned on it. *)
Lemma completions_inv_reachable cfg M K W s :
  CM_FORCE_SINGLETHREADED_RENDERING cfg = false →
  reachable cfg M K W s →
  ids (played s) ≡ₚ
    mCommandsCompleted (self s) ++ inflight (corePc s) ++ ids (returned s).
Proof.
  intros Hflag. revert s. apply reachable_ind'.
  - intros s0 _ [-> _]%ctor_inv. by rewrite Hflag.
  - intros s l s' Hr IH Hl.
    pose proof (pending_inv_reachable _ _ _ _ _ Hr) as [_ Hblock].
    step_cases Hl; try congruence.
    all: history_simpl; try done.
    all: try match goal with
         | H : default Idle (pcs _ !! ?t) = BCheck ?call ?id |- _ =>
             let Hb := fresh "Hb" in
             destruct (Hblock t call id) as [Hb _]; [by rewrite H|];
             rewrite Hb
         end.
    all: repeat match goal with
         | H : cBlock _ = _ |- _ => rewrite H
         | H : notifyId _ = _ |- _ => rewrite H
         end.
    all: rewrite ?app_nil_r; try done.
    + etrans; [exact IH|].
      match goal with
      | H : findCompleted _ _ = Some _ |- _ =>
          apply findCompleted_Some in H as [H _];
          etrans; [apply Permutation_app_tail, (delete_Permutation _ _ _ H)|]
      end.
      cbn [app]. rewrite !(assoc_L (++)). apply Permutation_cons_append.
    + rewrite IH. cbn [app]. rewrite <- Permutation_cons_append.
      apply Permutation_middle.
    + rewrite IH. cbn [app]. by rewrite <- (assoc_L (++)).
Qed.

(** X12: Completion records are neither lost nor made up: in a multi-threaded
    build the notify-ids of the commands invoked so far are, counted with
    multiplicity, the ids in the completed set, the id the core thread is
    about to record, and the ids of the blocking calls that have returned.
    So each return of a blocking call has used up one record of an
    invocation with its notify-id, whether or not the counter has wrapped. *)
Theorem completion_records_conserved cfg M K W s :
  CM_FORCE_SINGLETHREADED_RENDERING cfg = false →
  reachable cfg M K W s →
  ids (played s) ≡ₚ
    mCommandsCompleted (self s) ++ inflight (corePc s) ++ ids (returned s) ∧
  length (mCommandsCompleted (self s)) + length (ids (returned s))
    ≤ length (ids (played s)) ∧
  (∀ id, id ∈ mCommandsCompleted (self s) → id ∈ ids (played s)) ∧
  (∀ id, id ∈ ids (returned s) → id ∈ ids (played s)).
Proof.
  intros Hflag Hr.
  pose proof (completions_inv_reachable _ _ _ _ _ Hflag Hr) as Hp.
  split_and!.
  - done.
  - rewrite Hp, !length_app. lia.
  - intros id Hid. rewrite Hp. apply elem_of_app. by left.
  - intros id Hid. rewrite Hp, !elem_of_app. auto.
Qed.

Lemma completion_records_conserved_witness :
  ∃ s0 s1 s2,
    CoreThread_ctor multiThreaded 0 1 4 = Ok s0 ∧
    run multiThreaded (take 18 blocking_schedule) s0 = Some s1 ∧
    run multiThreaded (drop 18 blocking_schedule) s1 = Some s2 ∧
    ids (played s1) = [0%Z] ∧ mCommandsCompleted (self s1) = [0%Z] ∧
    ids (returned s1) = [] ∧
    mCommandsCompleted (self s2) = [] ∧ ids (returned s2) = [0%Z] ∧
    ids (played s2) ≡ₚ
      mCommandsCompleted (self s2) ++ inflight (corePc s2) ++ ids (returned s2).
Proof.
  eexists _, _, _. split; [reflexivity|].
  split; [vm_compute; reflexivity|]. split; [vm_compute; reflexivity|].
  do 5 (split; [reflexivity|]).
  match goal with
  | |- ids (played ?s) ≡ₚ _ =>
      refine (proj1 (completion_records_conserved multiThreaded 0 1 4 s eq_refl _))
  end.
  reach_by blocking_schedule.
Defined.

(** ** Wake-ups *)

Lemma aboutToNotify_wake pc : aboutToNotify (wakeProd pc) = aboutToNotify pc.
Proof. by destruct pc. Qed.

Lemma wakeCore_not_waiting pc : wakeCore pc ≠ CWait.
Proof. by destruct pc. Qed.

Lemma wakeCore_waitEnter pc : wakeCore pc = CWaitEnter → pc = CWaitEnter.
Proof. by destruct pc. Qed.

Lemma wakeProd_not_waiting pc call id : wakeProd pc ≠ BWait call id.
Proof. by destruct pc. Qed.

(** The core thread enters its wait with the queue empty and no shutdown
    requested, and while it waits with work to do some thread is about to
    notify it. *)
Lemma ready_inv_reachable cfg M K W s :
  reachable cfg M K W s →
  (corePc s = CWaitEnter →
     mCommandQueue (self s) = [] ∧ mCoreThreadShutdown (self s) = false) ∧
  (corePc s = CWait →
     mCommandQueue (self s) ≠ [] ∨ mCoreThreadShutdown (self s) = true →
     ∃ t, aboutToNotify (default Idle (pcs s !! t)) = true).
Proof.
  revert s. apply reachable_ind'.
  - intros s0 _ [-> _]%ctor_inv.
    by destruct (CM_FORCE_SINGLETHREADED_RENDERING cfg).
  - intros s l s' Hr [Henter Hwait] Hl.
    pose proof (mutex_inv_reachable _ _ _ _ _ Hr) as [Hq Hqc _ _].
    pose proof (core_inv_reachable _ _ _ _ _ Hr) as [_ _ Hidle].
    assert (Hexcl : ∀ t, corePc s = CWaitEnter →
              holdsQueueMutex (default Idle (pcs s !! t)) = true → False).
    { intros t Hpc Ht. pose proof (Hq _ Ht) as Hm. rewrite Hpc in Hqc.
      specialize (Hqc eq_refl). rewrite Hm in Hqc. symmetry in Hqc.
      rewrite (Hidle _ Hqc) in Ht. done. }
    clear Hq Hqc Hidle.
    step_cases Hl.
    all: split; sys_simpl; try assumption.
    all: intros Hpc; try discriminate Hpc;
      try (by apply wakeCore_not_waiting in Hpc);
      try apply wakeCore_waitEnter in Hpc.
    (* the core thread is about to wait *)
    all: try (destruct (Henter Hpc) as [Hqe Hsh];
              first [ done
                    | exfalso; eapply Hexcl; [exact Hpc|];
                      match goal with
                      | H : default Idle (pcs _ !! _) = _ |- _ => by rewrite H
                      end ]).
    all: try (match goal with
              | H : isEmpty ?q = true |- _ => by destruct q
              end).
    (* the core thread waits *)
    all: try (intros Hwork;
              match goal with
              | H : corePc _ = CWaitEnter |- _ =>
                  destruct (Henter H) as [Hqe Hsh]; rewrite Hqe, Hsh in Hwork;
                  by destruct Hwork
              end).
    all: intros Hwork.
    all: try (match goal with
              | |- ∃ t0, aboutToNotify (default Idle (<[?t:=_]> _ !! t0)) = true =>
                  exists t; rewrite pc_insert, decide_True by done; done
              end).
    all: try (destruct (Hwait Hpc Hwork) as [t0 Ht0]; exists t0;
              rewrite ?pc_insert, ?pc_wake, ?aboutToNotify_wake;
              try case_decide; subst; try done;
              match goal with
              | H : default Idle (pcs _ !! _) = _ |- _ => rewrite H in Ht0; done
              end).
    destruct (Henter eq_refl) as [Hqe Hsh]. rewrite Hqe, Hsh in Hwork.
    by destruct Hwork.
Qed.

(** A caller waits for its notify-id only while that id is absent from the
    completed set, except between the core thread's recording of it and
    the notification that follows. *)
Lemma complete_inv_reachable cfg M K W s :
  reachable cfg M K W s →
  ∀ t call id, default Idle (pcs s !! t) = BWait call id →
    id ∈ mCommandsCompleted (self s) → ∃ cs, corePc s = CNotifyAll cs.
Proof.
  revert s. apply (reachable_ind' cfg M K W (λ s,
    ∀ t call id, default Idle (pcs s !! t) = BWait call id →
      id ∈ mCommandsCompleted (self s) → ∃ cs, corePc s = CNotifyAll cs)).
  - intros s0 _ [-> _]%ctor_inv.
    by destruct (CM_FORCE_SINGLETHREADED_RENDERING cfg).
  - intros s l s' Hr IH Hl.
    step_cases Hl.
    all: intros t0 call0 id0; rewrite ?pc_insert, ?pc_wake;
      try (by intros ?%wakeProd_not_waiting);
      try case_decide; subst; try done; try (by eauto).
    all: intros Hpc Hin.
    all: try (destruct (IH _ _ _ Hpc Hin) as [cs ->]; by eexists).
    all: try (destruct (IH _ _ _ Hpc Hin) as [cs Hcs]; congruence).
    all: first
      [ injection Hpc as <- <-;
        match goal with
        | H : findCompleted _ _ = None |- _ => by apply findCompleted_None in H
        end
      | apply (IH _ _ _ Hpc); by eapply list_elem_of_delete_inv ].
Qed.

(** X13: No wake-up is lost.  The core thread starts waiting only with an empty
    queue and no shutdown request; whenever it is waiting although a
    command is queued or shutdown has been requested, some thread stands
    right before its [CM_THREAD_NOTIFY_ALL] on [mCommandReadyCondition] and
    its next step wakes the core thread.  Likewise a caller waits inside
    [blockUntilCommandCompleted] for an id that is in the completed set
    only while the core thread stands right before the notification that
    follows its recording, and the core thread's next step wakes it. *)
Theorem no_wakeup_is_lost cfg M K W s :
  reachable cfg M K W s →
  (corePc s = CWaitEnter →
     mCommandQueue (self s) = [] ∧ mCoreThreadShutdown (self s) = false) ∧
  (corePc s = CWait →
     mCommandQueue (self s) ≠ [] ∨ mCoreThreadShutdown (self s) = true →
     ∃ t s', aboutToNotify (pcOf s t) = true ∧
             step_fn cfg (Producer t) s = Some s' ∧ corePc s' = CWoken) ∧
  (∀ t call id, pcOf s t = BWait call id →
     id ∈ mCommandsCompleted (self s) →
     ∃ cs s', corePc s = CNotifyAll cs ∧
              step_fn cfg Core s = Some s' ∧ pcOf s' t = BWoken call id).
Proof.
  intros Hr.
  destruct (ready_inv_reachable _ _ _ _ _ Hr) as [Henter Hwait].
  pose proof (complete_inv_reachable _ _ _ _ _ Hr) as Hcomplete.
  pose proof (core_inv_reachable _ _ _ _ _ Hr) as [Htid Hnone Hidle].
  split_and!.
  - done.
  - intros Hpc Hwork. destruct (Hwait Hpc Hwork) as [t Ht]. exists t.
    assert (Hne : coreTid s ≠ Some t).
    { intros Hk. rewrite (Hidle _ Hk) in Ht. done. }
    unfold pcOf. cbn [step_fn]. rewrite bool_decide_eq_true_2 by done.
    unfold producer_step, pcOf.
    destruct (default Idle (pcs s !! t)) eqn:Hpt; try done.
    + destruct (cBlock call), (CM_FORCE_SINGLETHREADED_RENDERING cfg);
        eexists; (split_and!; [done|reflexivity|]); sys_simpl; by rewrite Hpc.
    + eexists. split_and!; [done|reflexivity|]. sys_simpl. by rewrite Hpc.
  - intros t call id Hpt Hin. unfold pcOf in *.
    destruct (Hcomplete _ _ _ Hpt Hin) as [cs Hcs]. exists cs.
    assert (Hk : coreTid s = Some K).
    { destruct (CM_FORCE_SINGLETHREADED_RENDERING cfg); [|done].
      rewrite Hnone in Hcs; done. }
    cbn [step_fn]. rewrite Hk. cbn [mbind option_bind].
    unfold runCoreThread_step. rewrite Hcs.
    eexists. split_and!; [done|reflexivity|]. sys_simpl.
    by rewrite pc_wake, Hpt.
Qed.

Lemma no_wakeup_is_lost_witness :
  ∃ s0 s,
    CoreThread_ctor multiThreaded 0 1 4 = Ok s0 ∧
    run multiThreaded shutdown_schedule_queued s0 = Some s ∧
    corePc s = CWait ∧ length (mCommandQueue (self s)) = 3 ∧
    ∃ t s', aboutToNotify (pcOf s t) = true ∧
            step_fn multiThreaded (Producer t) s = Some s' ∧ corePc s' = CWoken.
Proof.
  eexists _, _. split; [reflexivity|]. split; [vm_compute; reflexivity|].
  split; [reflexivity|]. split; [reflexivity|].
  match goal with
  | |- ∃ t s', aboutToNotify (pcOf ?s t) = true ∧ _ =>
      refine (proj1 (proj2 (no_wakeup_is_lost multiThreaded 0 1 4 s _)) eq_refl _)
  end.
  - reach_by shutdown_schedule_queued.
  - left. discriminate.
Defined.

(** ** Progress of the core thread *)

Lemma inBlockingCall_wake pc : inBlockingCall (wakeProd pc) = inBlockingCall pc.
Proof. by destruct pc. Qed.

Lemma started_reachable cfg M K W s :
  CM_FORCE_SINGLETHREADED_RENDERING cfg = false →
  reachable cfg M K W s → coreTid s = Some K ∧ corePc s ≠ CNone.
Proof.
  intros Hflag Hr. split.
  { apply core_inv_reachable in Hr as [Htid _ _]. by rewrite Hflag in Htid. }
  revert s Hr. apply reachable_ind'.
  - intros s0 _ [-> _]%ctor_inv. by rewrite Hflag.
  - intros s l s' Hr IH Hl.
    step_cases Hl; try done; try congruence.
    all: by destruct (corePc s).
Qed.

(** Only the last step of [shutdownCoreThread] takes the recorded id away
    from the core thread. *)
Lemma recorded_step cfg K l s s' :
  coreTid s = Some K → step_fn cfg l s = Some s' →
  (∀ t, l = Producer t → pcOf s t ≠ SSetId) →
  recorded K s → recorded K s'.
Proof.
  intros Hk Hl Hns. unfold recorded, pcOf in *.
  step_cases Hl; try congruence.
  all: rewrite ?initialised_wake; try done.
  all: try (repeat match goal with
            | H : corePc _ = _ |- _ => rewrite H in *
            end; cbn [initialised] in *; by auto).
  all: try (exfalso; eapply Hns; [reflexivity|done]).
Qed.

(** While the core thread is the recorded core thread, what it submits
    from a played callback takes the immediate branch. *)
Lemma recorded_submit K s call :
  recorded K s → initialised (corePc s) = true →
  submit K call s = log (EvImmediate K call) s.
Proof.
  intros Hrec Hi. unfold submit. by rewrite (Hrec Hi), decide_True.
Qed.

Lemma steps_recorded_steps cfg K s s' : steps_recorded cfg K s s' → steps cfg s s'.
Proof.
  intros Hs. induction Hs as [|x y z [Hxy _] _ IH]; [apply rtc_refl|].
  by eapply rtc_l.
Qed.

Lemma steps_recorded_end cfg K s s' :
  recorded K s → steps_recorded cfg K s s' → recorded K s'.
Proof. intros Hrec Hs. induction Hs as [|x y z [_ Hy] _ IH]; auto. Qed.

Lemma steps_recorded_once cfg K l s s' :
  coreTid s = Some K → step_fn cfg l s = Some s' →
  (∀ t, l = Producer t → pcOf s t ≠ SSetId) →
  recorded K s → steps_recorded cfg K s s'.
Proof.
  intros Hk Hl Hns Hrec. apply rtc_once. split; [by exists l|].
  by eapply recorded_step.
Qed.

Lemma driven_refl cfg K s : driven cfg K s s.
Proof. split_and!; [apply rtc_refl|done..]. Qed.

Lemma driven_trans cfg K s1 s2 s3 :
  driven cfg K s1 s2 → driven cfg K s2 s3 → driven cfg K s1 s3.
Proof.
  intros (H1 & H2 & H3 & H4) (G1 & G2 & G3 & G4). split_and!.
  - unfold steps_recorded in *. by etrans.
  - congruence.
  - congruence.
  - eauto.
Qed.

(** A step of the core thread from a quiet state. *)
Lemma core_step_quiet cfg M K W s :
  CM_FORCE_SINGLETHREADED_RENDERING cfg = false →
  reachable cfg M K W s → quiet s → recorded K s →
  corePc s ≠ CWait → corePc s ≠ CDone →
  ∃ s', step_fn cfg Core s = Some s' ∧ quiet s' ∧ driven cfg K s s' ∧
    match corePc s with
    | CWaitEnter => corePc s' = CWait ∧ mCommandQueue (self s') = mCommandQueue (self s)
    | CExit => corePc s' = CDone ∧ mCommandQueue (self s') = mCommandQueue (self s)
    | _ => work s' < work s ∧ corePc s' ≠ CDone
    end.
Proof.
  intros Hflag Hr [Hq Hn] Hrec Hnw Hnd.
  destruct (started_reachable _ _ _ _ _ Hflag Hr) as [Hk Hnn].
  destruct (step_fn cfg Core s) as [s'|] eqn:Hstep.
  - exists s'. split; [done|].
    assert (Hsteps : steps_recorded cfg K s s')
      by (by eapply steps_recorded_once).
    clear Hrec.
    unfold driven, quiet, work. revert Hsteps.
    step_cases Hstep; intros Hsteps.
    all: repeat match goal with
         | H : corePc _ = _ |- _ => rewrite H in *
         end.
    all: cbn [coreHoldsQueueMutex coreHoldsNotifyMutex batch rank] in *.
    all: try match goal with
         | H : isEmpty ?q = false |- _ => destruct q; [discriminate H|]
         end.
    all: split_and!; try done; try (by auto); try congruence.
    all: try (unfold enqueued; sys_simpl; rewrite ?omap_app;
              cbn [omap list_omap queuedOf]; by rewrite ?app_nil_r).
    all: try (intros t call id; by rewrite pc_wake, inBlockingCall_wake).
    all: try (cbn [app length rank]; rewrite ?length_app; cbn [length rank]; lia).
    all: try match goal with
         | |- context [rank (CPlay ?l)] => destruct l
         end.
    all: try match goal with
         | |- context [match ?l with [] => _ | _ :: _ => _ end] => destruct l
         end.
    all: cbn [app length rank]; rewrite ?length_app; cbn [length rank]; lia.
  - exfalso. cbn [step_fn] in Hstep. rewrite Hk in Hstep.
    cbn [mbind option_bind] in Hstep. unfold runCoreThread_step in Hstep.
    destruct (corePc s) as [| | | | | | | | | | |[|q cs]| | |] eqn:Hpc;
      cbn [coreHoldsQueueMutex coreHoldsNotifyMutex] in *; try done.
    all: try (destruct Hq as [Hq|Hq]; [rewrite Hq in Hstep|]; done).
    all: try (destruct Hn as [Hn|Hn]; [rewrite Hn in Hstep|]; done).
    all: unfold flush, cm_delete in Hstep; try done.
    { repeat match type of Hstep with
      | context [if ?b then _ else _] => destruct b
      end; done. }
    by destruct (notifyId q).
Qed.

(** The notification a thread stands right before, from a quiet state. *)
Lemma notifier_step_quiet cfg M K W s t :
  CM_FORCE_SINGLETHREADED_RENDERING cfg = false →
  reachable cfg M K W s → quiet s → recorded K s →
  aboutToNotify (default Idle (pcs s !! t)) = true →
  ∃ s', step_fn cfg (Producer t) s = Some s' ∧ quiet s' ∧ driven cfg K s s' ∧
    corePc s' = wakeCore (corePc s) ∧
    mCommandQueue (self s') = mCommandQueue (self s).
Proof.
  intros Hflag Hr [Hq Hn] Hrec Ht.
  destruct (started_reachable _ _ _ _ _ Hflag Hr) as [Hk Hnn].
  pose proof (core_inv_reachable _ _ _ _ _ Hr) as [_ _ Hidle].
  pose proof (pending_inv_reachable _ _ _ _ _ Hr) as [_ Hblock].
  assert (Hne : coreTid s ≠ Some t).
  { intros Hk'. rewrite (Hidle _ Hk') in Ht. done. }
  destruct (step_fn cfg (Producer t) s) as [s'|] eqn:Hstep.
  - exists s'. split; [done|].
    assert (Hsteps : steps_recorded cfg K s s').
    { eapply steps_recorded_once; [done..| |done].
      intros t0 [= <-] Hpc0. unfold pcOf in Hpc0. by rewrite Hpc0 in Ht. }
    clear Hrec.
    unfold driven, quiet. revert Hsteps.
    step_cases Hstep; intros Hsteps; try congruence.
    all: match goal with
         | H : default Idle (pcs _ !! _) = _ |- _ =>
             rewrite H in Ht; try discriminate Ht
         end.
    all: rewrite ?coreHoldsQueueMutex_wake, ?coreHoldsNotifyMutex_wake.
    all: split_and!; try done.
    all: try (unfold enqueued; sys_simpl; rewrite ?omap_app;
              cbn [omap list_omap queuedOf]; by rewrite ?app_nil_r).
    all: intros t' call' id'; rewrite pc_insert; case_decide; subst; try done.
    all: match goal with
         | H : default Idle (pcs _ !! _) = _ |- _ => rewrite H
         end; cbn [inBlockingCall blockedOn];
      repeat match goal with
      | H : cBlock _ = _ |- _ => rewrite H
      end; done.
  - exfalso. cbn [step_fn] in Hstep.
    rewrite bool_decide_eq_true_2 in Hstep by done.
    unfold producer_step, pcOf in Hstep.
    destruct (default Idle (pcs s !! t)); try done.
    by destruct (cBlock call), (CM_FORCE_SINGLETHREADED_RENDERING cfg).
Qed.

Lemma steps_trace_prefix cfg s s' : steps cfg s s' → trace s `prefix_of` trace s'.
Proof.
  intros Hs. induction Hs as [|x y z [l Hl] _ IH]; [done|].
  etrans; [by eapply trace_mono|done].
Qed.

(** From a quiet state the core thread gets through all its work with no
    help but the notifications that are already under way. *)
Lemma drive cfg M K W n :
  CM_FORCE_SINGLETHREADED_RENDERING cfg = false →
  ∀ s, work s < n → reachable cfg M K W s → quiet s → recorded K s →
       corePc s ≠ CDone →
  ∃ s', driven cfg K s s' ∧ settled s' ∧ quiet s'.
Proof.
  intros Hflag. induction n as [|n IH]; intros s Hw Hr Hq Hrec Hnd; [lia|].
  destruct (ready_inv_reachable _ _ _ _ _ Hr) as [Henter Hwait].
  destruct (decide (corePc s = CWait)) as [Hpc|Hpc].
  - destruct (mCommandQueue (self s)) as [|q0 qs] eqn:Hqueue;
      [destruct (mCoreThreadShutdown (self s)) eqn:Hsh|].
    2:{ exists s. split_and!; [apply driven_refl| |done].
        split; [done|]. by left. }
    all: destruct (Hwait Hpc) as [t Ht]; [auto|];
      destruct (notifier_step_quiet _ _ _ _ _ _ Hflag Hr Hq Hrec Ht)
        as (s1 & Hstep & Hq1 & Hd1 & Hpc1 & Hqu1);
      rewrite Hpc in Hpc1; cbn [wakeCore] in Hpc1;
      destruct (IH s1) as (s' & Hd' & Hs' & Hq');
      [ unfold work in *; rewrite Hpc1, Hqu1; rewrite Hpc in Hw;
        cbn [batch rank] in *; lia
      | by eapply reachable_step | done
      | eapply steps_recorded_end; [exact Hrec|apply Hd1] | congruence | ];
      exists s'; split_and!; [by eapply driven_trans|done..].
  - destruct (core_step_quiet _ _ _ _ _ Hflag Hr Hq Hrec Hpc Hnd)
      as (s1 & Hstep & Hq1 & Hd1 & Hm).
    pose proof (reachable_step _ _ _ _ _ _ _ Hr Hstep) as Hr1.
    assert (Hrec1 : recorded K s1)
      by (eapply steps_recorded_end; [exact Hrec|apply Hd1]).
    destruct (corePc s) eqn:Hpcs; try done.
    all: try (destruct Hm as [Hw1 Hnd1];
              destruct (IH s1) as (s' & Hd' & Hs' & Hq'); [lia|done..|];
              exists s'; split_and!; [by eapply driven_trans|done..]).
    + destruct Hm as [Hpc1 Hqu1]. destruct (Henter eq_refl) as [Hqe Hsh].
      exists s1. split_and!; [done| |done].
      split; [congruence|]. left. split; [done|].
      destruct Hd1 as (_ & _ & -> & _). done.
    + destruct Hm as [Hpc1 Hqu1].
      destruct (exit_inv_reachable _ _ _ _ _ Hr Hpcs) as [Hqe _].
      exists s1. split_and!; [done| |done].
      split; [congruence|]. by right.
Qed.

(** A thread inside a locked section leaves it by its next step. *)
Lemma release_step cfg M K W s t :
  reachable cfg M K W s →
  holdsQueueMutex (default Idle (pcs s !! t)) = true ∨
  holdsNotifyMutex (default Idle (pcs s !! t)) = true →
  ∃ s', step_fn cfg (Producer t) s = Some s' ∧
    corePc s' = corePc s ∧
    (mCoreThreadShutdown (self s) = true → mCoreThreadShutdown (self s') = true) ∧
    allocated s' ≤ S (allocated s) ∧
    (if holdsQueueMutex (default Idle (pcs s !! t))
     then mCommandQueueMutex (self s') = None ∧
          mCommandNotifyMutex (self s') = mCommandNotifyMutex (self s)
     else mCommandNotifyMutex (self s') = None ∧
          mCommandQueueMutex (self s') = mCommandQueueMutex (self s)) ∧
    ∀ t' call id, inBlockingCall (default Idle (pcs s !! t')) = Some (call, id) →
      inBlockingCall (default Idle (pcs s' !! t')) = Some (call, id) ∨
      (default Idle (pcs s' !! t') = Idle ∧
       EvReturn t' (commandOf call id) ∈ trace s').
Proof.
  intros Hr Ht.
  pose proof (core_inv_reachable _ _ _ _ _ Hr) as [_ _ Hidle].
  assert (Hne : coreTid s ≠ Some t).
  { intros Hk'. rewrite (Hidle _ Hk') in Ht. by destruct Ht. }
  destruct (step_fn cfg (Producer t) s) as [s'|] eqn:Hstep.
  - exists s'. split; [done|]. unfold allocated, ids, enqueued.
    step_cases Hstep; try congruence.
    all: match goal with
         | H : default Idle (pcs _ !! _) = _ |- _ =>
             rewrite H in *; cbn [holdsQueueMutex holdsNotifyMutex] in *
         end.
    all: try (by destruct Ht).
    all: split_and!; try done.
    all: try (rewrite ?omap_app, ?length_app; cbn; lia).
    all: intros t' call' id'; rewrite pc_insert; case_decide; subst;
      try (by left).
    all: match goal with
         | H : default Idle (pcs _ !! _) = _ |- _ => rewrite H
         end; cbn [inBlockingCall blockedOn]; try done.
    all: intros [= <- <-]; first [by left | right].
    all: split; [done|]; apply elem_of_app; right; by apply list_elem_of_singleton.
  - exfalso. cbn [step_fn] in Hstep.
    rewrite bool_decide_eq_true_2 in Hstep by done.
    unfold producer_step, pcOf, enqueue in Hstep.
    destruct (default Idle (pcs s !! t)) eqn:Hpc;
      cbn [holdsQueueMutex holdsNotifyMutex] in Ht; try (by destruct Ht).
    + by destruct (cBlock call).
    + by destruct (findCompleted _ _).
Qed.

(** The threads holding a mutex step out of their locked sections. *)
Lemma quiesce cfg M K W s :
  CM_FORCE_SINGLETHREADED_RENDERING cfg = false →
  reachable cfg M K W s → recorded K s →
  ∃ s1, steps_recorded cfg K s s1 ∧ quiet s1 ∧ corePc s1 = corePc s ∧
    (mCoreThreadShutdown (self s) = true → mCoreThreadShutdown (self s1) = true) ∧
    allocated s1 ≤ S (allocated s) ∧
    ∀ t call id, inBlockingCall (pcOf s t) = Some (call, id) →
      inBlockingCall (pcOf s1 t) = Some (call, id) ∨
      (pcOf s1 t = Idle ∧ EvReturn t (commandOf call id) ∈ trace s1).
Proof.
  intros Hflag Hr Hrec. unfold pcOf.
  pose proof (owner_inv_reachable _ _ _ _ _ Hr) as [Hoq _].
  assert (Hkeep : ∀ s1 t s2, reachable cfg M K W s1 → recorded K s1 →
    holdsQueueMutex (default Idle (pcs s1 !! t)) = true ∨
    holdsNotifyMutex (default Idle (pcs s1 !! t)) = true →
    step_fn cfg (Producer t) s1 = Some s2 → steps_recorded cfg K s1 s2).
  { intros s1 t s2 Hr1 Hrec1 Ht Hstep.
    destruct (started_reachable _ _ _ _ _ Hflag Hr1) as [Hk _].
    eapply steps_recorded_once; [done..| |done].
    intros t0 [= <-] Hpc0. unfold pcOf in Hpc0. rewrite Hpc0 in Ht.
    by destruct Ht. }
  (* the queue mutex *)
  assert (∃ sa, steps_recorded cfg K s sa ∧
    (mCommandQueueMutex (self sa) = None ∨ coreHoldsQueueMutex (corePc sa) = true) ∧
    corePc sa = corePc s ∧
    (mCoreThreadShutdown (self s) = true → mCoreThreadShutdown (self sa) = true) ∧
    allocated sa ≤ S (allocated s) ∧
    ∀ t call id, inBlockingCall (default Idle (pcs s !! t)) = Some (call, id) →
      inBlockingCall (default Idle (pcs sa !! t)) = Some (call, id))
    as (sa & Hsa & Hqa & Hpca & Hsha & Hala & Hba).
  { destruct (mCommandQueueMutex (self s)) as [t|] eqn:Hm;
      [|exists s; split_and!; [apply rtc_refl|auto..]].
    destruct (Hoq _ eq_refl) as [Ht|[_ Hc]];
      [|exists s; split_and!; [apply rtc_refl|auto..]].
    destruct (release_step cfg M K W s t Hr (or_introl Ht))
      as (sa & Hstep & Hpc & Hsh & Hal & Hmx & Hb).
    rewrite Ht in Hmx. destruct Hmx as [Hmq _].
    exists sa. split_and!; [by eapply Hkeep; eauto|auto..].
    intros t' call id Hin. destruct (Hb _ _ _ Hin) as [|[Hidle Hret]]; [done|].
    exfalso. destruct (trace_step _ _ _ _ Hstep) as [Hsame|(e & He & Hev)].
    - revert Hstep Ht Hin Hidle. clear. intros Hstep Ht Hin Hidle.
      step_cases Hstep; try congruence.
      all: rewrite pc_insert in Hidle; case_decide; subst; try done.
      all: match goal with
           | H : default Idle (pcs _ !! _) = _ |- _ => rewrite H in *
           end; done.
    - revert Hstep Ht Hin Hidle. clear. intros Hstep Ht Hin Hidle.
      step_cases Hstep; try congruence.
      all: rewrite ?pc_insert in Hidle; try case_decide; subst; try done.
      all: match goal with
           | H : default Idle (pcs _ !! _) = _ |- _ => rewrite H in *
           end; done. }
  pose proof (reachable_steps _ _ _ _ _ _ Hr (steps_recorded_steps _ _ _ _ Hsa))
    as Hra.
  pose proof (steps_recorded_end _ _ _ _ Hrec Hsa) as Hreca.
  pose proof (owner_inv_reachable _ _ _ _ _ Hra) as [_ Hona].
  destruct (mCommandNotifyMutex (self sa)) as [t|] eqn:Hm;
    [|exists sa; split_and!; [done|split; auto|auto..]].
  destruct (Hona _ eq_refl) as [Ht|[_ Hc]];
    [|exists sa; split_and!; [done|split; auto|auto..]].
  destruct (release_step cfg M K W sa t Hra (or_intror Ht))
    as (s1 & Hstep & Hpc & Hsh & Hal & Hmx & Hb).
  assert (Hnq : holdsQueueMutex (default Idle (pcs sa !! t)) = false).
  { by destruct (default Idle (pcs sa !! t)). }
  rewrite Hnq in Hmx. destruct Hmx as [Hmn Hmq].
  exists s1. split_and!.
  - unfold steps_recorded in *. etrans; [exact Hsa|].
    by eapply Hkeep; eauto.
  - split; [|by left]. rewrite Hmq, Hpc. done.
  - congruence.
  - auto.
  - assert (allocated s1 = allocated sa); [|lia].
    revert Hstep Ht. clear. intros Hstep Ht. unfold allocated, ids, enqueued.
    step_cases Hstep; try congruence.
    all: match goal with
         | H : default Idle (pcs _ !! _) = _ |- _ => rewrite H in *
         end; try done.
    all: by rewrite omap_app, app_nil_r.
  - intros t' call id Hin. apply Hb. by apply Hba.
Qed.

(** X14: the core thread cannot be locked out.  The callbacks it plays are
    taken to return.  From every state of a multi-threaded build in which
    the core thread has not left and is the recorded core thread (no
    caller of [shutdownCoreThread] has overwritten [mCoreThreadId] after
    the core thread stored its id), the system can run on, the core thread
    staying the recorded core thread all along, to a state in which the
    core thread has invoked, in order, every command queued so far and
    rests with an empty queue; if shutdown has been requested, to one in
    which it has left [runCoreThread]. *)
Theorem core_thread_can_catch_up cfg M K W s :
  CM_FORCE_SINGLETHREADED_RENDERING cfg = false →
  reachable cfg M K W s → corePc s ≠ CDone → recorded K s →
  ∃ s', steps_recorded cfg K s s' ∧
    mCommandQueue (self s') = [] ∧ played s' = enqueued s' ∧
    enqueued s `prefix_of` played s' ∧
    (corePc s' = CWait ∨ corePc s' = CDone) ∧
    (mCoreThreadShutdown (self s) = true → corePc s' = CDone).
Proof.
  intros Hflag Hr Hnd Hrec.
  destruct (quiesce _ _ _ _ _ Hflag Hr Hrec) as (s1 & Hs1 & Hq1 & Hpc1 & Hsh1 & _ & _).
  pose proof (reachable_steps _ _ _ _ _ _ Hr (steps_recorded_steps _ _ _ _ Hs1))
    as Hr1.
  pose proof (steps_recorded_end _ _ _ _ Hrec Hs1) as Hrec1.
  destruct (drive cfg M K W (S (work s1)) Hflag s1) as (s' & Hd & Hset & _);
    [lia|done|done|done|congruence|].
  destruct Hd as (Hs' & Henq & Hsh' & _). destruct Hset as [Hqe Hrest].
  pose proof (reachable_steps _ _ _ _ _ _ Hr1 (steps_recorded_steps _ _ _ _ Hs'))
    as Hr'.
  pose proof (fifo_inv_reachable _ _ _ _ _ Hr') as Hfifo.
  assert (Hpl : played s' = enqueued s').
  { rewrite Hfifo, Hqe.
    destruct Hrest as [[-> _]| ->]; cbn [batch]; by rewrite !app_nil_r. }
  exists s'. split_and!.
  - unfold steps_recorded in *. by etrans.
  - done.
  - done.
  - rewrite Hpl, Henq. apply omap_prefix. apply (steps_trace_prefix cfg).
    exact (steps_recorded_steps _ _ _ _ Hs1).
  - destruct Hrest as [[? _]|?]; auto.
  - intros Hsh. destruct Hrest as [[_ Hf]|?]; [|done].
    rewrite Hsh', Hsh1 in Hf; done.
Qed.

Lemma core_thread_can_catch_up_witness :
  ∃ s0 s,
    CoreThread_ctor multiThreaded 0 1 4 = Ok s0 ∧
    run multiThreaded shutdown_schedule_queued s0 = Some s ∧
    corePc s = CWait ∧ length (mCommandQueue (self s)) = 3 ∧
    mCoreThreadShutdown (self s) = true ∧ mCoreThreadId (self s) = 1 ∧
    ∃ s', steps_recorded multiThreaded 1 s s' ∧ corePc s' = CDone ∧
          enqueued s `prefix_of` played s'.
Proof.
  eexists _, _. split; [reflexivity|]. split; [vm_compute; reflexivity|].
  split; [reflexivity|]. split; [reflexivity|].
  split; [reflexivity|]. split; [reflexivity|].
  match goal with
  | |- ∃ s', steps_recorded _ _ ?s s' ∧ _ =>
      destruct (core_thread_can_catch_up multiThreaded 0 1 4 s eq_refl)
        as (s' & Hs' & _ & _ & Hpre & _ & Hdone);
      [reach_by shutdown_schedule_queued | discriminate | by intros _ |]
  end.
  exists s'. split_and!; [done| |done]. by apply Hdone.
Defined.

(** ** Progress of a blocked caller *)

(** The notify-id a thread waits on is not among those on which a call has
    returned. *)
Lemma pending_not_returned cfg M K W s :
  CM_FORCE_SINGLETHREADED_RENDERING cfg = false →
  reachable cfg M K W s →
  (Z.of_nat (allocated s) ≤ UINT32_modulus)%Z →
  ∀ t i, pendingId (default Idle (pcs s !! t)) = Some i → i ∉ ids (returned s).
Proof.
  intros Hflag. revert s.
  apply (reachable_ind' cfg M K W (λ s,
    (Z.of_nat (allocated s) ≤ UINT32_modulus)%Z →
    ∀ t i, pendingId (default Idle (pcs s !! t)) = Some i → i ∉ ids (returned s))).
  - intros s0 _ [-> _]%ctor_inv. rewrite Hflag. sys_simpl.
    intros _ t i. by rewrite lookup_empty.
  - intros s l s' Hr IH Hl Hbound'.
    pose proof (allocated_mono _ _ _ _ Hl) as Hmono.
    assert (Hbound : (Z.of_nat (allocated s) ≤ UINT32_modulus)%Z) by lia.
    specialize (IH Hbound).
    pose proof (pending_inv_reachable _ _ _ _ _ Hr) as [_ Hblock].
    pose proof (pending_distinct_reachable _ _ _ _ _ Hr Hbound) as Hdist.
    pose proof (completions_inv_reachable _ _ _ _ _ Hflag Hr) as Hcons.
    pose proof (fifo_inv_reachable _ _ _ _ _ Hr) as Hfifo.
    destruct (ids_inv_reachable _ _ _ _ _ Hr) as [Hids Hctr].
    revert Hbound'. unfold pending_ids_distinct, pcOf in Hdist.
    step_cases Hl; try congruence; intros Hbound'.
    all: intros t0 i0; rewrite ?pc_insert, ?pc_wake, ?pendingId_wake.
    all: try (by apply IH).
    all: try case_decide; subst.
    all: unfold returned; sys_simpl; rewrite ?omap_app;
      cbn [omap list_omap returnedOf]; rewrite ?app_nil_r;
      fold (returned s).
    all: try (by apply IH).
    all: try (intros Hp; apply (IH t0 i0);
              match goal with
              | H : default Idle (pcs _ !! _) = _ |- _ => by rewrite H
              end).
    all: try done.
    all: rewrite ?ids_app; unfold pendingId at 1, pending, commandOf;
      try match goal with
      | H : default Idle (pcs _ !! ?t) = BCheck ?call ?id |- _ =>
          let Hb := fresh "Hb" in
          destruct (Hblock t call id) as [Hb _]; [by rewrite H|]
      end;
      repeat match goal with
      | H : cBlock _ = _ |- _ => rewrite H
      end;
      cbn [mbind option_bind ids omap list_omap queued notifyId];
      rewrite ?app_nil_r; try done; try (by apply IH).
    + (* a fresh notify-id *)
      intros [= <-]. rewrite Hctr. intros Hin.
      assert (Hin' : nth_id (allocated s) ∈ ids (enqueued s)).
      { rewrite Hfifo, ids_app, Hcons, !elem_of_app. auto. }
      rewrite Hids in Hin'. apply list_elem_of_fmap in Hin' as (j & Hj & Hjin).
      apply elem_of_seq in Hjin.
      assert (Hlt : (Z.of_nat (allocated s) < UINT32_modulus)%Z).
      { revert Hbound'. unfold allocated, ids, enqueued. sys_simpl.
        rewrite !omap_app, length_app. cbn. lia. }
      apply (nth_id_fresh (allocated s) j Hlt); [lia|done].
    + (* a return on another id *)
      intros Hp [Hin| ->%list_elem_of_singleton]%elem_of_app.
      * by apply (IH t0 i0).
      * match goal with
        | H : default Idle (pcs _ !! ?t1) = BCheck _ _, Hne : ?t1 ≠ t0 |- _ =>
            apply (Hdist t1 t0 commandId Hne); [|done];
            rewrite H; unfold pendingId, pending, commandOf; by rewrite Hb
        end.
Qed.

Lemma pcOf_set_pc t pc s : pcOf (set_pc t pc s) t = pc.
Proof. unfold pcOf, set_pc. sys_simpl. by rewrite lookup_insert_eq. Qed.

(** A caller whose notify-id is in the completed set, with the notify
    mutex free, runs [blockUntilCommandCompleted] to its end. *)
Lemma finish_call cfg K s t call id :
  CM_FORCE_SINGLETHREADED_RENDERING cfg = false →
  coreTid s = Some K → K ≠ t → recorded K s → cBlock call = true →
  mCommandNotifyMutex (self s) = None →
  id ∈ mCommandsCompleted (self s) →
  pcOf s t = QNotify call id ∨ pcOf s t = BLock call id ∨ pcOf s t = BWoken call id →
  ∃ s', steps_recorded cfg K s s' ∧ pcOf s' t = Idle ∧
        EvReturn t (commandOf call id) ∈ trace s'.
Proof.
  intros Hflag Hk Hne Hrec Hb Hm Hin Hpc.
  assert (Hother : ∀ s1, coreTid s1 = Some K → coreTid s1 ≠ Some t).
  { intros s1 -> [= ?]. done. }
  assert (Hone : ∀ s1 s2, coreTid s1 = Some K → recorded K s1 →
    pcOf s1 t ≠ SSetId → producer_step cfg t s1 = Some s2 →
    step cfg s1 s2 ∧ recorded K s2).
  { intros s1 s2 Hk1 Hrec1 Hpc1 Hstep.
    assert (Hl : step_fn cfg (Producer t) s1 = Some s2).
    { cbn [step_fn]. by rewrite bool_decide_eq_true_2 by auto. }
    split; [by exists (Producer t)|].
    eapply recorded_step; [exact Hk1|exact Hl| |exact Hrec1].
    by intros t0 [= <-]. }
  assert (Hcheck : ∀ s1, coreTid s1 = Some K → recorded K s1 →
    pcOf s1 t = BCheck call id →
    id ∈ mCommandsCompleted (self s1) →
    ∃ s', steps_recorded cfg K s1 s' ∧ pcOf s' t = Idle ∧
          EvReturn t (commandOf call id) ∈ trace s').
  { intros s1 Hk1 Hrec1 Hpc1 Hin1.
    destruct (findCompleted id (mCommandsCompleted (self s1))) as [iter|] eqn:Hf;
      [|by apply findCompleted_None in Hf].
    eexists. split_and!.
    - apply rtc_once. apply Hone; [done|done|by rewrite Hpc1|].
      unfold producer_step. rewrite Hpc1, Hf. reflexivity.
    - apply pcOf_set_pc.
    - sys_simpl. apply elem_of_app. right. by apply list_elem_of_singleton. }
  assert (Hlock : ∀ s1, coreTid s1 = Some K → recorded K s1 →
    pcOf s1 t = BLock call id ∨ pcOf s1 t = BWoken call id →
    mCommandNotifyMutex (self s1) = None →
    id ∈ mCommandsCompleted (self s1) →
    ∃ s', steps_recorded cfg K s1 s' ∧ pcOf s' t = Idle ∧
          EvReturn t (commandOf call id) ∈ trace s').
  { intros s1 Hk1 Hrec1 Hpc1 Hm1 Hin1.
    destruct (Hcheck (set_pc t (BCheck call id) (with_mCommandNotifyMutex (Some t) s1)))
      as (s' & Hs' & Hidle & Hret); [done|done|apply pcOf_set_pc|done|].
    exists s'. split_and!; [|done..].
    eapply rtc_l; [|exact Hs'].
    apply Hone; [done|done|by destruct Hpc1 as [-> | ->]|].
    unfold producer_step. destruct Hpc1 as [-> | ->]; by rewrite Hm1. }
  destruct Hpc as [Hpc|Hpc]; [|by apply Hlock].
  destruct (Hlock (set_pc t (BLock call id) (notifyAll_mCommandReadyCondition s)))
    as (s' & Hs' & Hidle & Hret);
    [done| |left; apply pcOf_set_pc|done..|].
  { unfold recorded in *. sys_simpl. by rewrite initialised_wake. }
  exists s'. split_and!; [|done..].
  eapply rtc_l; [|exact Hs'].
  assert (Hstep : producer_step cfg t s =
    Some (set_pc t (BLock call id) (notifyAll_mCommandReadyCondition s))).
  { unfold producer_step. by rewrite Hpc, Hb, Hflag. }
  apply Hone; [done|done|by rewrite Hpc|done].
Qed.

(** X15: a blocking call can always come back.  The callbacks the core
    thread plays are taken to return.  In a multi-threaded build, before
    the notify-id counter has wrapped, while the core thread has not left
    and is the recorded core thread (no caller of [shutdownCoreThread] has
    overwritten [mCoreThreadId] after the core thread stored its id), a
    thread that has queued a blocking command and has not returned is not
    stuck: the system can run on, the core thread staying the recorded
    core thread all along, to a state in which the command has been
    invoked and the call has returned. *)
Theorem blocking_call_can_return cfg M K W s t call id :
  CM_FORCE_SINGLETHREADED_RENDERING cfg = false →
  reachable cfg M K W s →
  (Z.of_nat (allocated s) < UINT32_modulus)%Z →
  corePc s ≠ CDone → recorded K s →
  inBlockingCall (pcOf s t) = Some (call, id) →
  ∃ s', steps_recorded cfg K s s' ∧ pcOf s' t = Idle ∧
        EvReturn t (commandOf call id) ∈ trace s' ∧
        commandOf call id ∈ played s'.
Proof.
  intros Hflag Hr Hbound Hnd Hrec Hin.
  destruct (quiesce _ _ _ _ _ Hflag Hr Hrec) as (s1 & Hs1 & Hq1 & Hpc1 & _ & Hal1 & Hb1).
  pose proof (reachable_steps _ _ _ _ _ _ Hr (steps_recorded_steps _ _ _ _ Hs1))
    as Hr1.
  pose proof (steps_recorded_end _ _ _ _ Hrec Hs1) as Hrec1.
  assert (Hbound1 : (Z.of_nat (allocated s1) ≤ UINT32_modulus)%Z) by lia.
  assert (Hblock : ∀ s2, reachable cfg M K W s2 →
    inBlockingCall (pcOf s2 t) = Some (call, id) →
    cBlock call = true ∧ pending (pcOf s2 t) = Some (commandOf call id) ∧
    pendingId (pcOf s2 t) = Some id).
  { intros s2 Hr2 Hin2.
    pose proof (pending_inv_reachable _ _ _ _ _ Hr2) as [_ Hbl].
    assert (Hcb : cBlock call = true).
    { unfold pcOf in *. destruct (default Idle (pcs s2 !! t)) eqn:Hp; try done;
        cbn [inBlockingCall] in Hin2.
      - destruct (cBlock call0) eqn:Hc; [|done]. by injection Hin2 as <- <-.
      - by apply (Hbl t call id); rewrite Hp.
      - by apply (Hbl t call id); rewrite Hp.
      - by apply (Hbl t call id); rewrite Hp.
      - by apply (Hbl t call id); rewrite Hp. }
    split; [done|]. unfold pendingId.
    destruct (pcOf s2 t) eqn:Hp; try done; cbn [inBlockingCall blockedOn] in Hin2;
      try (injection Hin2 as <- <-; cbn [pending mbind option_bind];
           unfold commandOf; by rewrite Hcb).
    destruct (cBlock call0) eqn:Hc; [|done]. injection Hin2 as <- <-.
    cbn [pending mbind option_bind]. unfold commandOf. by rewrite Hcb. }
  destruct (Hb1 _ _ _ Hin) as [Hin1|[Hidle Hret]].
  2:{ exists s1. split_and!; try done.
      apply list_elem_of_split in Hret as (pre & post & Htr).
      destruct (Hblock s Hr Hin) as (Hcb & _).
      assert (Hid : notifyId (commandOf call id) = Some id).
      { unfold commandOf. by rewrite Hcb. }
      pose proof (returned_inv_reachable _ _ _ _ _ Hflag Hr1 Hbound1 _ _ _ _ _ Htr Hid).
      unfold played. rewrite Htr, omap_app. apply elem_of_app. by left. }
  destruct (drive cfg M K W (S (work s1)) Hflag s1) as (s2 & Hd & Hset & Hq2);
    [lia|done|done|done|congruence|].
  destruct Hd as (Hs2 & Henq & _ & Hb2). destruct Hset as [Hqe Hrest].
  pose proof (reachable_steps _ _ _ _ _ _ Hr1 (steps_recorded_steps _ _ _ _ Hs2))
    as Hr2.
  pose proof (steps_recorded_end _ _ _ _ Hrec1 Hs2) as Hrec2.
  specialize (Hb2 _ _ _ Hin1).
  destruct (Hblock s2 Hr2 Hb2) as (Hcb & Hpend & Hpid).
  assert (Hbound2 : (Z.of_nat (allocated s2) ≤ UINT32_modulus)%Z).
  { unfold allocated in *. by rewrite Henq. }
  pose proof (fifo_inv_reachable _ _ _ _ _ Hr2) as Hfifo.
  assert (Hbatch : batch (corePc s2) = [] ∧ inflight (corePc s2) = []).
  { by destruct Hrest as [[-> _]| ->]. }
  destruct Hbatch as [Hbatch Hinfl].
  rewrite Hqe, Hbatch, !app_nil_r in Hfifo.
  pose proof (pending_inv_reachable _ _ _ _ _ Hr2) as [Hqueued _].
  assert (Hplayed : commandOf call id ∈ played s2).
  { rewrite <- Hfifo. by apply (Hqueued t). }
  assert (Hid : notifyId (commandOf call id) = Some id).
  { unfold commandOf. by rewrite Hcb. }
  assert (Hcomp : id ∈ mCommandsCompleted (self s2)).
  { pose proof (elem_of_ids _ _ _ Hplayed Hid) as Hi.
    rewrite (completions_inv_reachable _ _ _ _ _ Hflag Hr2), Hinfl in Hi.
    apply elem_of_app in Hi as [Hi|Hi]; [done|]. exfalso.
    by apply (pending_not_returned _ _ _ _ _ Hflag Hr2 Hbound2 t id). }
  pose proof (core_inv_reachable _ _ _ _ _ Hr2) as [_ _ Hcidle].
  destruct (started_reachable _ _ _ _ _ Hflag Hr2) as [Hk2 _].
  assert (Hne : K ≠ t).
  { intros <-. unfold pcOf in Hb2. rewrite (Hcidle _ Hk2) in Hb2. done. }
  assert (Hfree : mCommandNotifyMutex (self s2) = None).
  { destruct Hq2 as [_ [Hm|Hm]]; [done|].
    destruct Hrest as [[Hw _]|Hw]; rewrite Hw in Hm; done. }
  destruct (finish_call cfg K s2 t call id Hflag Hk2 Hne Hrec2 Hcb Hfree Hcomp)
    as (s3 & Hs3 & Hidle & Hret).
  { pose proof (mutex_inv_reachable _ _ _ _ _ Hr2) as [_ _ Hmn _].
    pose proof (complete_inv_reachable _ _ _ _ _ Hr2) as Hcw.
    unfold pcOf in *. destruct (default Idle (pcs s2 !! t)) eqn:Hp; try done;
      cbn [inBlockingCall blockedOn] in Hb2.
    - destruct (cBlock call0); [|done]. injection Hb2 as <- <-. auto.
    - injection Hb2 as <- <-. auto.
    - specialize (Hmn t). rewrite Hp in Hmn. specialize (Hmn eq_refl). congruence.
    - injection Hb2 as <- <-. destruct (Hcw _ _ _ Hp Hcomp) as [cs Hcs].
      destruct Hrest as [[Hw _]|Hw]; congruence.
    - injection Hb2 as <- <-. auto. }
  exists s3. split_and!; try done.
  - unfold steps_recorded in *. etrans; [exact Hs1|]. by etrans.
  - pose proof (omap_prefix invokedOf _ _
      (steps_trace_prefix _ _ _ (steps_recorded_steps _ _ _ _ Hs3))) as [k Hk].
    unfold played in *. rewrite Hk. apply elem_of_app. by left.
Qed.

Lemma blocking_call_can_return_witness :
  ∃ s0 s,
    CoreThread_ctor multiThreaded 0 1 4 = Ok s0 ∧
    run multiThreaded (take 9 blocking_schedule) s0 = Some s ∧
    pcOf s 2 = BLock callA 0 ∧ played s = [] ∧ mCoreThreadId (self s) = 1 ∧
    ∃ s', steps_recorded multiThreaded 1 s s' ∧ pcOf s' 2 = Idle ∧
          commandOf callA 0 ∈ played s'.
Proof.
  eexists _, _. split; [reflexivity|]. split; [vm_compute; reflexivity|].
  split; [reflexivity|]. split; [reflexivity|]. split; [reflexivity|].
  match goal with
  | |- ∃ s', steps_recorded _ _ ?s s' ∧ _ =>
      destruct (blocking_call_can_return multiThreaded 0 1 4 s 2 callA 0 eq_refl)
        as (s' & Hs' & Hidle & _ & Hpl);
      [ reach_by (take 9 blocking_schedule)
      | vm_compute; reflexivity | discriminate | by intros _ | reflexivity | ]
  end.
  exists s'. by split_and!.
Defined.

(** ** Calls that do not wait *)

Ltac call_simpl Hflag :=
  repeat first
    [ progress (unfold mayCall, pcOf, shutdownCoreThread, queueCommand,
                queueReturnCommand, submit, producer_step, enqueue)
    | progress sys_simpl
    | rewrite Hflag
    | rewrite pc_insert
    | rewrite put_queued
    | rewrite decide_True by done
    | rewrite bool_decide_eq_true_2 by done
    | progress cbn [andb mbind option_bind]
    | match goal with
      | H : default Idle (pcs _ !! _) = _ |- _ => rewrite H
      | H : mCommandQueueMutex _ = _ |- _ => rewrite H
      | H : cBlock _ = _ |- _ => rewrite H
      end ].

(** X16: [shutdownCoreThread] does not wait for the core thread.  With the
    queue mutex free the caller gets through it by its own four steps: the
    shutdown flag is set, the core thread is at most woken, nothing has
    been played in the meantime and the queue is as it was.  The caller is
    then the recorded core thread: its submissions run at once on the
    caller, and [throwIfNotCoreThread] accepts the caller and rejects the
    thread that runs [runCoreThread]. *)
Theorem shutdown_returns_without_waiting cfg M K W s t :
  CM_FORCE_SINGLETHREADED_RENDERING cfg = false →
  reachable cfg M K W s →
  mayCall t s = true → mCommandQueueMutex (self s) = None →
  ∃ s', run cfg [CallShutdownCoreThread t; Producer t; Producer t;
                 Producer t; Producer t] s = Some s' ∧
    pcOf s' t = Idle ∧
    mCoreThreadShutdown (self s') = true ∧ mCoreThreadId (self s') = t ∧
    corePc s' = wakeCore (corePc s) ∧
    mCommandQueue (self s') = mCommandQueue (self s) ∧ played s' = played s ∧
    (∀ cb b, queueCommand t cb b s' =
             log (EvImmediate t {| cReturn := false; cCallback := cb; cBlock := b |}) s') ∧
    throwIfNotCoreThread cfg t s' = Ok () ∧
    ∃ msg, throwIfNotCoreThread cfg K s' = Throw (InternalErrorException msg).
Proof.
  intros Hflag Hr Hcall Hm.
  destruct (started_reachable _ _ _ _ _ Hflag Hr) as [Hk _].
  pose proof Hcall as Hcall'. apply mayCall_true in Hcall' as [Hidle Hne].
  assert (HtK : K ≠ t) by congruence.
  eexists.
  match goal with |- ?R ∧ _ => assert (Hrun : R) end.
  { eapply run_cons_eq; [cbn [step_fn]; rewrite Hcall; reflexivity|].
    do 3 (eapply run_cons_eq; [cbn [step_fn]; call_simpl Hflag; reflexivity|]).
    eapply run_cons_eq; [cbn [step_fn]; call_simpl Hflag; reflexivity|].
    reflexivity. }
  split; [exact Hrun|]. clear Hrun.
  unfold shutdownCoreThread, played, throwIfNotCoreThread. rewrite Hflag.
  call_simpl Hflag. split_and!; try done.
  - intros cb b. by rewrite decide_True.
  - by destruct (decide (t ≠ t)).
  - destruct (decide (K ≠ t)); [eauto|done].
Qed.

Lemma shutdown_returns_without_waiting_witness :
  ∃ s0 s,
    CoreThread_ctor multiThreaded 0 1 4 = Ok s0 ∧
    run multiThreaded (take 14 shutdown_schedule_queued) s0 = Some s ∧
    corePc s = CWait ∧ length (mCommandQueue (self s)) = 3 ∧
    ∃ s', run multiThreaded [CallShutdownCoreThread 0; Producer 0; Producer 0;
                             Producer 0; Producer 0] s = Some s' ∧
          mCoreThreadShutdown (self s') = true ∧ mCoreThreadId (self s') = 0 ∧
          corePc s' = CWoken ∧ played s' = played s.
Proof.
  eexists _, _. split; [reflexivity|]. split; [vm_compute; reflexivity|].
  split; [reflexivity|]. split; [reflexivity|].
  match goal with
  | |- ∃ s', run _ _ ?s = _ ∧ _ =>
      destruct (shutdown_returns_without_waiting multiThreaded 0 1 4 s 0 eq_refl)
        as (s' & Hrun & _ & Hsh & Hid & Hpc & _ & Hpl & _);
      [ reach_by (take 14 shutdown_schedule_queued)
      | vm_compute; reflexivity | reflexivity | ]
  end.
  exists s'. by split_and!.
Defined.

(** A step of a thread other than the core thread plays nothing and leaves
    the other threads where they are. *)
Lemma producer_step_frame cfg h s s' :
  step_fn cfg (Producer h) s = Some s' →
  played s' = played s ∧ coreTid s' = coreTid s ∧
  ∀ t, t ≠ h → default Idle (pcs s' !! t) = default Idle (pcs s !! t).
Proof.
  intros Hl. unfold played. step_cases Hl.
  all: rewrite ?omap_app; cbn [omap list_omap invokedOf]; rewrite ?app_nil_r.
  all: split_and!; try done.
  all: intros t0 Hne; rewrite pc_insert; by case_decide.
Qed.

(** The core thread gives the queue mutex back without playing anything. *)
Lemma core_release cfg M K W n :
  ∀ s, holdRank (corePc s) < n → reachable cfg M K W s →
  coreHoldsQueueMutex (corePc s) = true →
  ∃ s', steps cfg s s' ∧ mCommandQueueMutex (self s') = None ∧
        played s' = played s ∧ pcs s' = pcs s ∧ coreTid s' = coreTid s.
Proof.
  induction n as [|n IH]; intros s Hn Hr Hc; [lia|].
  pose proof (core_inv_reachable _ _ _ _ _ Hr) as [Htid Hnone _].
  assert (Hk : coreTid s = Some K).
  { destruct (CM_FORCE_SINGLETHREADED_RENDERING cfg); [|done].
    rewrite Hnone in Hc; done. }
  destruct (step_fn cfg Core s) as [s1|] eqn:Hstep.
  - assert (Hs1 : steps cfg s s1) by (apply rtc_once; by exists Core).
    pose proof (reachable_step _ _ _ _ _ _ _ Hr Hstep) as Hr1.
    assert (played s1 = played s ∧ pcs s1 = pcs s ∧ coreTid s1 = coreTid s ∧
            (mCommandQueueMutex (self s1) = None ∨
             (coreHoldsQueueMutex (corePc s1) = true ∧
              holdRank (corePc s1) < holdRank (corePc s))))
      as (Hpl & Hpcs & Hct & Hcase).
    { revert Hc Hstep. clear. intros Hc Hstep. unfold played.
      step_cases Hstep.
      all: repeat match goal with
           | H : corePc _ = _ |- _ => rewrite H in *
           end.
      all: cbn [coreHoldsQueueMutex holdRank] in *; try done.
      all: split_and!; try done; auto. }
    destruct Hcase as [Hfree|[Hc1 Hlt]].
    + exists s1. by split_and!.
    + destruct (IH s1) as (s' & Hs' & Hfree & Hpl' & Hpcs' & Hct'); [lia|done..|].
      exists s'. split_and!; [by etrans|done|congruence..].
  - exfalso. cbn [step_fn] in Hstep. rewrite Hk in Hstep.
    cbn [mbind option_bind] in Hstep. unfold runCoreThread_step, flush in Hstep.
    destruct (corePc s); try done.
    repeat match type of Hstep with
    | context [if ?b then _ else _] => destruct b
    end; done.
Qed.

(** The queueing part of a submission, with the queue mutex free. *)
Lemma finish_submission cfg s t call id :
  coreTid s ≠ Some t → cBlock call = false →
  (pcOf s t = QLock call id ∧ mCommandQueueMutex (self s) = None) ∨
  pcOf s t = QCrit call id ∨ pcOf s t = QNotify call id →
  ∃ s', steps cfg s s' ∧ pcOf s' t = Idle ∧ played s' = played s ∧
        EvReturn t (queued call None) ∈ trace s'.
Proof.
  intros Hne Hb Hpc.
  assert (Hnotify : ∀ s1, coreTid s1 ≠ Some t → pcOf s1 t = QNotify call id →
    ∃ s', steps cfg s1 s' ∧ pcOf s' t = Idle ∧ played s' = played s1 ∧
          EvReturn t (queued call None) ∈ trace s').
  { intros s1 Hne1 Hpc1. eexists. split_and!.
    - apply rtc_once. exists (Producer t). cbn [step_fn].
      rewrite bool_decide_eq_true_2 by done. unfold producer_step.
      rewrite Hpc1, Hb. reflexivity.
    - apply pcOf_set_pc.
    - unfold played. sys_simpl. by rewrite omap_app, app_nil_r.
    - sys_simpl. apply elem_of_app. right. apply list_elem_of_singleton.
      unfold commandOf. by rewrite Hb. }
  assert (Hcrit : ∀ s1, coreTid s1 ≠ Some t → pcOf s1 t = QCrit call id →
    ∃ s', steps cfg s1 s' ∧ pcOf s' t = Idle ∧ played s' = played s1 ∧
          EvReturn t (queued call None) ∈ trace s').
  { intros s1 Hne1 Hpc1.
    destruct (Hnotify (set_pc t (QNotify call id)
                (with_mCommandQueueMutex None (snd (enqueue t call id s1)))))
      as (s' & Hs' & Hidle & Hpl & Hret).
    { unfold enqueue. rewrite Hb. by sys_simpl. }
    { apply pcOf_set_pc. }
    exists s'. split_and!; [|done| |done].
    - eapply rtc_l; [|exact Hs']. exists (Producer t). cbn [step_fn].
      rewrite bool_decide_eq_true_2 by done. unfold producer_step.
      rewrite Hpc1. unfold enqueue. by rewrite Hb.
    - rewrite Hpl. unfold played, enqueue. rewrite Hb. sys_simpl.
      by rewrite omap_app, app_nil_r. }
  destruct Hpc as [[Hpc Hm]|[Hpc|Hpc]]; [|by apply Hcrit|by apply Hnotify].
  destruct (Hcrit (set_pc t (QCrit call id) (with_mCommandQueueMutex (Some t) s)))
    as (s' & Hs' & Hidle & Hpl & Hret); [done|apply pcOf_set_pc|].
  exists s'. split_and!; [|done..].
  eapply rtc_l; [|exact Hs']. exists (Producer t). cbn [step_fn].
  rewrite bool_decide_eq_true_2 by done. unfold producer_step.
  by rewrite Hpc, Hm.
Qed.

(** X17: A submission that does not block never waits for a command to be
    played.  In any build and any reachable state, the core thread gone or
    not, a thread inside a call of [queueCommand] or [queueReturnCommand]
    with [blockUntilComplete] off can get to the end of the call without a
    single command being invoked on the way. *)
Theorem nonblocking_call_returns_without_playback cfg M K W s t call id :
  reachable cfg M K W s → cBlock call = false →
  pcOf s t = QLock call id ∨ pcOf s t = QCrit call id ∨ pcOf s t = QNotify call id →
  ∃ s', steps cfg s s' ∧ pcOf s' t = Idle ∧ played s' = played s ∧
        EvReturn t (queued call None) ∈ trace s'.
Proof.
  intros Hr Hb Hpc.
  pose proof (core_inv_reachable _ _ _ _ _ Hr) as [_ _ Hidle].
  assert (Hne : coreTid s ≠ Some t).
  { intros Hk. unfold pcOf in Hpc. rewrite (Hidle _ Hk) in Hpc.
    by destruct Hpc as [|[|]]. }
  destruct Hpc as [Hpc|Hpc]; [|apply (finish_submission cfg s t call id); auto].
  assert (∃ s1, steps cfg s s1 ∧ mCommandQueueMutex (self s1) = None ∧
                played s1 = played s ∧ coreTid s1 = coreTid s ∧
                pcOf s1 t = QLock call id) as (s1 & Hs1 & Hfree & Hpl & Hct & Hpc1).
  { destruct (mCommandQueueMutex (self s)) as [h|] eqn:Hm;
      [|exists s; split_and!; [apply rtc_refl|done..]].
    pose proof (owner_inv_reachable _ _ _ _ _ Hr) as [Hoq _].
    destruct (Hoq _ Hm) as [Hh|[_ Hc]].
    - assert (h ≠ t).
      { intros ->. unfold pcOf in Hpc. by rewrite Hpc in Hh. }
      destruct (release_step cfg M K W s h Hr (or_introl Hh))
        as (s1 & Hstep & _ & _ & _ & Hmx & _).
      rewrite Hh in Hmx. destruct Hmx as [Hfree _].
      destruct (producer_step_frame _ _ _ _ Hstep) as (Hpl & Hct & Hpcs).
      exists s1. split_and!; [apply rtc_once; by exists (Producer h)|done..|].
      unfold pcOf in *. by rewrite Hpcs.
    - destruct (core_release cfg M K W (S (holdRank (corePc s))) s)
        as (s1 & Hs1 & Hfree & Hpl & Hpcs & Hct); [lia|done..|].
      exists s1. split_and!; try done. unfold pcOf in *. by rewrite Hpcs. }
  destruct (finish_submission cfg s1 t call id) as (s' & Hs' & Hidle' & Hpl' & Hret);
    [congruence|done|auto|].
  exists s'. split_and!; [by etrans|done|congruence|done].
Qed.

Lemma nonblocking_call_returns_without_playback_witness :
  ∃ s0 s,
    CoreThread_ctor multiThreaded 0 1 4 = Ok s0 ∧
    run multiThreaded [Core; Core; Core; CallQueueCommand 2 10 false] s0 = Some s ∧
    corePc s = CTest ∧ mCommandQueueMutex (self s) = Some 1 ∧
    ∃ s', steps multiThreaded s s' ∧ pcOf s' 2 = Idle ∧ played s' = [].
Proof.
  eexists _, _. split; [reflexivity|]. split; [vm_compute; reflexivity|].
  split; [reflexivity|]. split; [reflexivity|].
  match goal with
  | |- ∃ s', steps _ ?s s' ∧ _ =>
      destruct (nonblocking_call_returns_without_playback multiThreaded 0 1 4 s 2
                  {| cReturn := false; cCallback := 10; cBlock := false |}
                  (to_UINT32 (-1)))
        as (s' & Hs' & Hidle & Hpl & _);
      [ reach_by [Core; Core; Core; CallQueueCommand 2 10 false]
      | reflexivity | left; reflexivity | ]
  end.
  exists s'. by split_and!.
Defined.

(** * Blocking submissions, from the call to its return *)




